(** * b_plus.c / b_print.c: a shallow embedding of the B+ tree index file

    The development follows [src/bp/b_plus.c] (the engine: [open_tree],
    [insert_value], [node_overflow], the [main] menu) and
    [src/bp/b_print.c] (the dump tool).

    Modelling conventions.
    - [word_t] values and [long] block references are integers in [Z];
      arithmetic on [word_t] wraps modulo [WORD_T_MAX + 1].
    - The fixed arrays [key[TREE_ORDER]] and [block[TREE_ORDER+1]] are
      lists indexed by [Z]; an access outside the array is undefined
      behaviour in C and makes the computation stop with [Undefined].
    - The index file is a header record at offset 0 and a finite map from
      byte offsets to node records, together with the end-of-file offset and
      the stream position.  [fseek] to a negative offset fails and leaves the
      position where it was; [fread] at or behind the end of the file reads
      nothing and leaves the buffer untouched.  Node records are read and
      written whole: a transfer whose size is not [sizeof(node_t)], a read
      inside the file where no record starts and a write that would neither
      replace a record nor append one are outside what this file format can
      describe, and stop the computation with [Undefined] as well.  What
      the code does from there on is decided by the bytes of the file; the
      section on the file as bytes gives the transfers of the descent of
      [insert_value] that meaning for the MACHINE_16 layout.
    - Calls into the C library succeed whenever they can: [fseek] fails for
      a negative target only, a write is never short, a file can always be
      created, a file that exists can be opened and closed, and memory is
      never exhausted.  The branches of the code that report a failed call
      ([E_MOVE_FILE], [E_WRITE_FILE], [E_CREATE_FILE], [E_CLOSE_FILE],
      [E_NO_MEMORY]) are therefore not reached here, and nothing below
      speaks of a run in which such a call fails.
    - File names are compared as typed: two spellings of one path are two
      names.
    - The single node buffer [opt->p] is part of the state: every [fread]
      overwrites it and every [fwrite] stores its current contents.
    - [rand()] and the indeterminate initial contents of the automatic
      arrays [temp_key]/[temp_block] of [node_overflow] are supplied by an
      environment record.
    - [while] loops whose termination depends on the file contents take a
      fuel argument and stop with [OutOfFuel] when it is used up. *)

From stdpp Require Import base gmap list strings pretty sorting.
Local Open Scope Z_scope.

(** ** Constants and types of b_plus.c *)

Definition WORD_T_MAX : Z := 65535.
Definition NO_BLOCK : Z := -1.
Definition TREE_ORDER : Z := 4.

(** Arithmetic on [word_t] ("16-bit unsigned quantity"). *)
Definition word (x : Z) : Z := x mod (WORD_T_MAX + 1).

Record node_t := mk_node {
  is_leaf : bool;
  keys_used : Z;
  key : list Z;
  block : list Z;
  parent_block : Z
}.

Record header_t := mk_header {
  header_size : Z;
  block_size : Z;
  tree_order : Z;
  root_block : Z
}.

Inductive status_t :=
  | SUCCESS
  | INV_OPT_PTR
  | INV_HEADER_PTR
  | INV_DATA_PTR
  | E_CREATE_FILE
  | E_OPEN_FILE
  | E_CLOSE_FILE
  | E_WRITE_FILE
  | E_READ_FILE
  | E_MOVE_FILE
  | E_NO_MEMORY
  | E_TREE_EMPTY
  | E_INCOMPATIBLE_VERSION.

Definition error_msg (s : status_t) : string :=
  match s with
  | SUCCESS => "No error occured."
  | INV_OPT_PTR => "Null pointer to option struct."
  | INV_HEADER_PTR => "Null pointer to file header struct."
  | INV_DATA_PTR => "Null pointer to tree data."
  | E_CREATE_FILE => "Cannot create designated index file."
  | E_OPEN_FILE => "Cannot open designated index file."
  | E_CLOSE_FILE => "Cannot close designated index file."
  | E_WRITE_FILE => "Cannot write to designated index file."
  | E_READ_FILE => "Cannot read from designated index file."
  | E_MOVE_FILE => "Cannot move within designated index file."
  | E_NO_MEMORY => "Insufficient memory to run program."
  | E_TREE_EMPTY => "The B+ tree is empty."
  | E_INCOMPATIBLE_VERSION =>
      "The tree order of the index file is incompatible with the program."
  end.

(** [sizeof(header_t)] and [sizeof(node_t)] are fixed by the compiler. *)
Class Layout := {
  sizeof_header_t : Z;
  sizeof_node_t : Z
}.

(** ** The index file as seen through a stdio stream *)

Record FILE := mk_file {
  f_header : option header_t;
  f_nodes : gmap Z node_t;
  f_eof : Z;
  f_pos : Z
}.

Inductive whence := SEEK_SET | SEEK_CUR | SEEK_END.

(** The state [insert_value] and [node_overflow] work on: [*h], the stream
    [opt->iop] and the node buffer [*opt->p]. *)
Record engine := mk_engine {
  hdr : header_t;
  opt_iop : FILE;
  opt_p : node_t
}.

(** What the environment decides for one call of [node_overflow]. *)
Record env := mk_env {
  rand_high : bool;          (* rand() > (RAND_MAX >> 1) *)
  stack_key : list Z;        (* temp_key  on entry *)
  stack_block : list Z       (* temp_block on entry *)
}.

(** ** Computations over the engine state *)

Inductive res (A : Type) :=
  | Ret (a : A)
  | Undefined
  | OutOfFuel.
Arguments Ret {A} a.
Arguments Undefined {A}.
Arguments OutOfFuel {A}.

Definition M (A : Type) : Type := engine → res A * engine.

#[global] Instance M_ret : MRet M := λ A a s, (Ret a, s).
#[global] Instance M_bind : MBind M := λ A B f m s,
  match m s with
  | (Ret a, s') => f a s'
  | (Undefined, s') => (Undefined, s')
  | (OutOfFuel, s') => (OutOfFuel, s')
  end.

Definition gets {A} (f : engine → A) : M A := λ s, (Ret (f s), s).
Definition modify (f : engine → engine) : M unit := λ s, (Ret tt, f s).
Definition undefined {A} : M A := λ s, (Undefined, s).
Definition out_of_fuel {A} : M A := λ s, (OutOfFuel, s).
Definition lift_opt {A} (o : option A) : M A :=
  match o with Some a => mret a | None => undefined end.

(** *** Arrays *)

Definition arr_get (a : list Z) (i : Z) : option Z :=
  if 0 <=? i then a !! Z.to_nat i else None.

Definition arr_set (a : list Z) (i v : Z) : option (list Z) :=
  if (0 <=? i) && (i <? Z.of_nat (length a))
  then Some (<[Z.to_nat i := v]> a) else None.

(** *** Field updates *)

Definition with_is_leaf (v : bool) (n : node_t) : node_t :=
  mk_node v (keys_used n) (key n) (block n) (parent_block n).
Definition with_keys_used (v : Z) (n : node_t) : node_t :=
  mk_node (is_leaf n) v (key n) (block n) (parent_block n).
Definition with_key (v : list Z) (n : node_t) : node_t :=
  mk_node (is_leaf n) (keys_used n) v (block n) (parent_block n).
Definition with_block (v : list Z) (n : node_t) : node_t :=
  mk_node (is_leaf n) (keys_used n) (key n) v (parent_block n).
Definition with_parent_block (v : Z) (n : node_t) : node_t :=
  mk_node (is_leaf n) (keys_used n) (key n) (block n) v.

Definition with_root_block (v : Z) (h : header_t) : header_t :=
  mk_header (header_size h) (block_size h) (tree_order h) v.

Definition with_p (f : node_t → node_t) (s : engine) : engine :=
  mk_engine (hdr s) (opt_iop s) (f (opt_p s)).
Definition with_iop (f : FILE → FILE) (s : engine) : engine :=
  mk_engine (hdr s) (f (opt_iop s)) (opt_p s).
Definition with_hdr (f : header_t → header_t) (s : engine) : engine :=
  mk_engine (f (hdr s)) (opt_iop s) (opt_p s).

(** [opt->p->key[i]], [opt->p->block[i]] as r-values and l-values. *)
Definition p_key (i : Z) : M Z :=
  a ← gets (λ s, key (opt_p s)); lift_opt (arr_get a i).
Definition p_block (i : Z) : M Z :=
  a ← gets (λ s, block (opt_p s)); lift_opt (arr_get a i).
Definition set_p_key (i v : Z) : M unit :=
  a ← gets (λ s, key (opt_p s));
  a' ← lift_opt (arr_set a i v);
  modify (with_p (with_key a')).
Definition set_p_block (i v : Z) : M unit :=
  a ← gets (λ s, block (opt_p s));
  a' ← lift_opt (arr_set a i v);
  modify (with_p (with_block a')).

(** *** stdio *)

Definition fseek (offset : Z) (w : whence) : M Z := λ s,
  let f := opt_iop s in
  let target := match w with
                | SEEK_SET => offset
                | SEEK_CUR => f_pos f + offset
                | SEEK_END => f_eof f + offset
                end in
  if target <? 0 then (Ret (-1), s)
  else (Ret 0,
        with_iop (λ f, mk_file (f_header f) (f_nodes f) (f_eof f) target) s).

Definition ftell : M Z := gets (λ s, f_pos (opt_iop s)).

Section engine.
Context {L : Layout}.

(** Node records go through a buffer of [sizeof(node_t)] bytes. *)
Definition whole_records (s : engine) : bool :=
  block_size (hdr s) =? sizeof_node_t.

(** [fread(opt->p, h->block_size, 1, opt->iop)] *)
Definition fread_node : M Z := λ s,
  let f := opt_iop s in
  if negb (whole_records s) then (Undefined, s)
  else
    match f_nodes f !! f_pos f with
    | Some n =>
        (Ret 1,
         mk_engine (hdr s)
           (mk_file (f_header f) (f_nodes f) (f_eof f)
                    (f_pos f + block_size (hdr s)))
           n)
    | None =>
        if f_eof f <=? f_pos f then (Ret 0, s)       (* end of file *)
        else (Undefined, s)
    end.

(** [fwrite(opt->p, h->block_size, 1, opt->iop)] *)
Definition fwrite_node : M Z := λ s,
  let f := opt_iop s in
  let pos' := f_pos f + block_size (hdr s) in
  if negb (whole_records s) then (Undefined, s)
  else if bool_decide (is_Some (f_nodes f !! f_pos f)) || (f_pos f =? f_eof f)
  then
    (Ret 1,
     with_iop (λ f, mk_file (f_header f) (<[f_pos f := opt_p s]> (f_nodes f))
                            (Z.max (f_eof f) pos') pos') s)
  else (Undefined, s).

(** [fwrite(h, sizeof(header_t), 1, opt->iop)]: the engine only ever does
    this with the stream at offset 0. *)
Definition fwrite_header : M Z := λ s,
  let f := opt_iop s in
  if f_pos f =? 0 then
    (Ret 1,
     with_iop (λ f, mk_file (Some (hdr s)) (f_nodes f)
                            (Z.max (f_eof f) sizeof_header_t)
                            sizeof_header_t) s)
  else (Undefined, s).

(** ** Loops *)

(** [for(index=lo; ...; ++index) body] run for [n] rounds; [acc] carries the
    local arrays the body assigns. *)
Fixpoint for_up {A} (n : nat) (index : Z) (body : Z → A → M A) (acc : A)
  : M A :=
  match n with
  | O => mret acc
  | S n' => acc' ← body index acc; for_up n' (word (index + 1)) body acc'
  end.

(** [for(index=lo; index<hi; ++index)] and [for(index=lo; index<=hi; ++index)]
    with bounds the body does not change. *)
Definition for_lt {A} (lo hi : Z) (body : Z → A → M A) (acc : A) : M A :=
  for_up (Z.to_nat (hi - lo)) lo body acc.
Definition for_le {A} (lo hi : Z) (body : Z → A → M A) (acc : A) : M A :=
  for_up (Z.to_nat (hi + 1 - lo)) lo body acc.

(** [for(index=start; index>stop; --index) body] *)
Fixpoint for_down_n (n : nat) (index : Z) (body : Z → M unit) : M unit :=
  match n with
  | O => mret tt
  | S n' => body index;; for_down_n n' (word (index - 1)) body
  end.
Definition for_down (start stop : Z) (body : Z → M unit) : M unit :=
  for_down_n (Z.to_nat (start - stop)) start body.

(** Bodies that only touch the node buffer. *)
Definition on_p (body : Z → M unit) : Z → unit → M unit := λ i _, body i.

(** [for(new_pos=0;new_pos<opt->p->keys_used;++new_pos)
       if(value<=opt->p->key[new_pos]) break;]
    and its strict variant in [node_overflow]; [n] counts the rounds the
    bound still allows. *)
Fixpoint scan (strict : bool) (n : nat) (value new_pos : Z) : M Z :=
  match n with
  | O => mret new_pos
  | S n' =>
      k ← p_key new_pos;
      if (if strict then value <? k else value <=? k) then mret new_pos
      else scan strict n' value (word (new_pos + 1))
  end.

Definition find_pos (strict : bool) (value : Z) : M Z :=
  ku ← gets (λ s, keys_used (opt_p s));
  scan strict (Z.to_nat ku) value 0.

(** The shift-insert shared by [insert_value] and the non-root branch of
    [node_overflow]:
      ++keys_used; shift keys; key[new_pos]=k; shift blocks;
      block[new_pos+1]=b. *)
Definition shift_insert (new_pos k b : Z) : M unit :=
  modify (with_p (λ n, with_keys_used (word (keys_used n + 1)) n));;
  ku ← gets (λ s, keys_used (opt_p s));
  for_down (word (ku - 1)) new_pos
    (λ index, v ← p_key (word (index - 1)); set_p_key index v);;
  set_p_key new_pos k;;
  for_down ku new_pos
    (λ index, v ← p_block (word (index - 1)); set_p_block index v);;
  set_p_block (word (new_pos + 1)) b.

(** The loop that retags the children of the block just written:
      for(index=0;index<=opt->p->keys_used;++index) {
        fseek(block[index]); fread; parent_block=par_block;
        fseek(-block_size, SEEK_CUR); fwrite; }
    The bound and [block[index]] are read from the buffer on every round,
    that is from whatever record the previous round loaded. *)
Fixpoint retag (fuel : nat) (index par_block : Z) : M unit :=
  match fuel with
  | O => out_of_fuel
  | S fuel' =>
      ku ← gets (λ s, keys_used (opt_p s));
      if index <=? ku then
        b ← p_block index;
        fseek b SEEK_SET;;
        fread_node;;
        modify (with_p (with_parent_block par_block));;
        bs ← gets (λ s, block_size (hdr s));
        fseek (- bs) SEEK_CUR;;
        fwrite_node;;
        retag fuel' (word (index + 1)) par_block
      else mret tt
  end.

(** ** node_overflow *)

(** The branch of the [while] loop taken when the buffer holds the root. *)
Definition split_root (fuel : nat) (left_keys right_keys : Z)
    (temp_key temp_block : list Z) : M unit :=
  h ← gets hdr;
  ku ← gets (λ s, keys_used (opt_p s));
  temp_key ← for_lt 0 ku
    (λ index t, v ← p_key index; lift_opt (arr_set t index v)) temp_key;
  temp_block ← for_le 0 ku
    (λ index t, v ← p_block index; lift_opt (arr_set t index v)) temp_block;
  (* write left son *)
  modify (with_p (with_parent_block (header_size h)));;
  modify (with_p (with_keys_used left_keys));;
  for_lt 0 left_keys
    (on_p (λ index, v ← lift_opt (arr_get temp_key index); set_p_key index v))
    tt;;
  for_le 0 left_keys
    (on_p (λ index,
       v ← lift_opt (arr_get temp_block index); set_p_block index v)) tt;;
  fseek 0 SEEK_END;;
  left_block ← ftell;
  fwrite_node;;
  retag fuel 0 left_block;;
  (* write right son *)
  modify (with_p (with_keys_used right_keys));;
  for_lt (word (left_keys + 1)) (tree_order h)
    (on_p (λ index,
       v ← lift_opt (arr_get temp_key index);
       set_p_key (word (index - left_keys - 1)) v)) tt;;
  for_le (word (left_keys + 1)) (tree_order h)
    (on_p (λ index,
       v ← lift_opt (arr_get temp_block index);
       set_p_block (word (index - left_keys - 1)) v)) tt;;
  right_block ← ftell;
  fwrite_node;;
  retag fuel 0 right_block;;
  (* rewrite the root node *)
  fseek (header_size h) SEEK_SET;;
  fread_node;;
  modify (with_p (with_keys_used 1));;
  modify (with_p (with_parent_block NO_BLOCK));;
  v ← lift_opt (arr_get temp_key left_keys);
  set_p_key 0 v;;
  set_p_block 0 left_block;;
  set_p_block 1 right_block;;
  fseek (- block_size h) SEEK_CUR;;
  fwrite_node;;
  mret tt.

(** The other branch; it hands back the temporaries and whether the parent
    overflows in turn. *)
Definition split_inner (left_keys right_keys : Z)
    (temp_key temp_block : list Z) : M (list Z * list Z * bool) :=
  h ← gets hdr;
  ku ← gets (λ s, keys_used (opt_p s));
  temp_key ← for_lt left_keys ku
    (λ index t, v ← p_key index; lift_opt (arr_set t index v)) temp_key;
  temp_block ← for_le left_keys ku
    (λ index t, v ← p_block index; lift_opt (arr_set t index v)) temp_block;
  modify (with_p (with_keys_used left_keys));;
  fseek (- block_size h) SEEK_CUR;;
  left_block ← ftell;
  fwrite_node;;
  fseek 0 SEEK_END;;
  right_block ← ftell;
  for_le 1 right_keys
    (on_p (λ index,
       v ← lift_opt (arr_get temp_key index);
       set_p_key (word (index - 1)) v)) tt;;
  for_le 0 right_keys
    (on_p (λ index,
       v ← lift_opt (arr_get temp_block index); set_p_block index v)) tt;;
  modify (with_p (with_keys_used right_keys));;
  fwrite_node;;
  pb ← gets (λ s, parent_block (opt_p s));
  fseek pb SEEK_SET;;
  fread_node;;
  t0 ← lift_opt (arr_get temp_key 0);
  new_pos ← find_pos true t0;
  shift_insert new_pos t0 right_block;;
  fseek (- block_size h) SEEK_CUR;;
  fwrite_node;;
  ku' ← gets (λ s, keys_used (opt_p s));
  mret (temp_key, temp_block, negb (ku' <? tree_order h)).

(** [while(overflow==true)]; [n] bounds the number of rounds. *)
Fixpoint overflow_loop (fuel n : nat) (left_keys right_keys : Z)
    (temp_key temp_block : list Z) : M unit :=
  match n with
  | O => out_of_fuel
  | S n' =>
      pb ← gets (λ s, parent_block (opt_p s));
      if pb =? NO_BLOCK then
        split_root fuel left_keys right_keys temp_key temp_block
      else
        r ← split_inner left_keys right_keys temp_key temp_block;
        if r.2 : bool
        then overflow_loop fuel n' left_keys right_keys r.1.1 r.1.2
        else mret tt
  end.

(** [q=(rand()>(RAND_MAX>>1U))?0:1] *)
Definition split_q (e : env) : Z := if rand_high e then 0 else 1.
Definition split_left_keys (e : env) (h : header_t) : Z :=
  word (Z.shiftr (tree_order h) 1 - split_q e).
Definition split_right_keys (e : env) (h : header_t) : Z :=
  word (Z.shiftr (tree_order h) 1 + split_q e - 1).

Definition node_overflow (e : env) (fuel : nat) : M status_t :=
  h ← gets hdr;
  overflow_loop fuel fuel (split_left_keys e h) (split_right_keys e h)
    (stack_key e) (stack_block e);;
  mret SUCCESS.

(** ** insert_value *)

(** One round of the [while(insert==false)] loop of the non-empty case;
    the result is the new value of [insert]. *)
Definition descend_step (e : env) (fuel : nat) (value : Z) : M bool :=
  h ← gets hdr;
  fread_node;;
  new_pos ← find_pos false value;
  k ← p_key new_pos;
  if value =? k then mret true                       (* value exists *)
  else
    b ← p_block (word (new_pos + 1));
    if b =? NO_BLOCK then                            (* no more path *)
      shift_insert new_pos value NO_BLOCK;;
      fseek (- block_size h) SEEK_CUR;;
      fwrite_node;;
      ku ← gets (λ s, keys_used (opt_p s));
      (if ku =? tree_order h
       then node_overflow e fuel;; mret true
       else mret true)
    else                                             (* the path continues *)
      fseek b SEEK_SET;;
      mret false.

Fixpoint descend (e : env) (fuel n : nat) (value : Z) : M unit :=
  match n with
  | O => out_of_fuel
  | S n' =>
      insert ← descend_step e fuel value;
      if insert : bool then mret tt else descend e fuel n' value
  end.

(** [h] and [opt] are the addresses of [main]'s locals, never null; the
    first test that can fire is [value==NULL]. *)
Definition insert_value (e : env) (fuel : nat) (value : Z) : M status_t :=
  if value =? 0 then mret INV_DATA_PTR
  else
    h ← gets hdr;
    if tree_order h >? TREE_ORDER then mret E_INCOMPATIBLE_VERSION
    else if root_block h =? NO_BLOCK then      (* the tree is initially empty *)
      r ← fseek 0 SEEK_SET;
      if negb (r =? 0) then mret E_MOVE_FILE
      else
        modify (with_hdr (with_root_block (header_size h)));;
        c ← fwrite_header;
        if negb (c =? 1) then mret E_WRITE_FILE
        else
          (* initialize root node *)
          set_p_key 0 value;;
          modify (with_p (with_keys_used 1));;
          modify (with_p (with_parent_block NO_BLOCK));;
          modify (with_p (with_is_leaf false));;
          for_le 0 (tree_order h)
            (on_p (λ index, set_p_block index NO_BLOCK)) tt;;
          c ← fwrite_node;
          if negb (c =? 1) then mret E_WRITE_FILE
          else mret SUCCESS
    else
      fseek (root_block h) SEEK_SET;;          (* go to the root *)
      descend e fuel fuel value;;
      mret SUCCESS.

End engine.

(** ** open_tree, close_tree and the menu of main *)

(** The newline character of the format strings. *)
Definition nl : string := String (Ascii.ascii_of_nat 10) EmptyString.

Record options_t := mk_options {
  name : string;
  file_exists : bool;
  iop : option FILE;         (* NULL or the open stream *)
  p : option node_t          (* NULL or the node buffer *)
}.

Definition with_stream (o : option FILE) (opt : options_t) : options_t :=
  mk_options (name opt) (file_exists opt) o (p opt).

Definition rewind (pos : Z) (f : FILE) : FILE :=
  mk_file (f_header f) (f_nodes f) (f_eof f) pos.

Section main.
Context {L : Layout}.

(** [disk] maps file names to closed files.  Creating a file and writing to
    it never fail in this model; opening fails when the name is unknown and
    reading the header fails when the file holds none. *)
Definition open_tree (disk : gmap string FILE) (opt : options_t)
    (h : header_t) : status_t * options_t * header_t :=
  if file_exists opt then
    match disk !! name opt with
    | None => (E_OPEN_FILE, with_stream None opt, h)
    | Some f =>
        match f_header f with
        | None => (E_READ_FILE, with_stream (Some (rewind 0 f)) opt, h)
        | Some h' =>
            (SUCCESS, with_stream (Some (rewind sizeof_header_t f)) opt, h')
        end
    end
  else
    (SUCCESS,
     with_stream
       (Some (mk_file (Some h) ∅ sizeof_header_t sizeof_header_t)) opt,
     h).

Definition close_tree (disk : gmap string FILE) (opt : options_t)
  : status_t * gmap string FILE * options_t :=
  match iop opt with
  | Some f => (SUCCESS, <[name opt := f]> disk, with_stream None opt)
  | None => (SUCCESS, disk, with_stream None opt)
  end.

(** [realloc(opt->p, sizeof(node_t))]: a buffer that exists keeps its
    contents, a new one holds whatever the heap held. *)
Definition reallocate_block (heap : node_t) (opt : options_t) : options_t :=
  mk_options (name opt) (file_exists opt) (iop opt)
    (Some (default heap (p opt))).

Record program := mk_program {
  options : options_t;
  header : header_t;
  value : Z;
  disk : gmap string FILE
}.

(** What one round of the menu consumes from outside the program. *)
Record round := mk_round {
  typed_name : string;       (* read_file_name *)
  typed_value : Z;           (* read_word_t *)
  fresh_block : node_t;      (* contents of freshly allocated memory *)
  overflow_env : env;
  loop_fuel : nat
}.

Inductive choice := CREATE | OPEN | CLOSE | INSERT | SEARCH | QUIT | OTHER.

(** The result of one round, with the state it leaves and the messages
    printed on stderr: the program goes on, or [error] ended it, or the
    round did not complete (undefined behaviour, or out of fuel). *)
Inductive outcome :=
  | Running (st : program) (messages : list string)
  | Exited (st : program) (messages : list string)
  | Aborted (st : program).

Definition state_of (o : outcome) : program :=
  match o with
  | Running st _ => st
  | Exited st _ => st
  | Aborted st => st
  end.

(** The header [main] starts with, and [main]'s state before the first
    round ([options.name] and [value] are not initialised). *)
Definition header0 : header_t :=
  mk_header sizeof_header_t sizeof_node_t TREE_ORDER NO_BLOCK.

Definition main_init (garbage_name : string) (garbage_value : Z) : program :=
  mk_program (mk_options garbage_name false None None) header0
    garbage_value ∅.

(** The engine state right after [CREATE] in a fresh program: the header is
    on disk, no node is, and the buffer holds whatever the heap held. *)
Definition created (garbage : node_t) : engine :=
  mk_engine header0
    (mk_file (Some header0) ∅ sizeof_header_t sizeof_header_t) garbage.

(** A run of successful [INSERT] rounds ([main] exits on any other
    status). *)
Fixpoint insert_all (fuel : nat) (l : list (Z * env)) (s : engine)
  : res status_t * engine :=
  match l with
  | [] => (Ret SUCCESS, s)
  | (v, e) :: l' =>
      match insert_value e fuel v s with
      | (Ret SUCCESS, s') => insert_all fuel l' s'
      | r => r
      end
  end.

Definition main_open (exists_ : bool) (done_msg : string) (r : round)
    (st : program) : outcome :=
  let '(_, disk1, opt1) := close_tree (disk st) (options st) in
  let opt2 :=
    mk_options (typed_name r) exists_ (iop opt1) (p opt1) in
  let opt3 := reallocate_block (fresh_block r) opt2 in
  let '(status, opt4, h) := open_tree disk1 opt3 (header st) in
  let st' := mk_program opt4 h (value st) disk1 in
  match status with
  | SUCCESS => Running st' ["File " +:+ name opt4 +:+ done_msg +:+ nl]
  | _ => Exited st' [error_msg status +:+ nl]
  end.

Definition main_close (st : program) : outcome :=
  let '(_, disk1, opt1) := close_tree (disk st) (options st) in
  Running (mk_program opt1 (header st) (value st) disk1)
    ["File " +:+ name opt1 +:+ " has been closed." +:+ nl].

Definition main_insert (r : round) (st : program) : outcome :=
  match iop (options st), p (options st) with
  | None, _ => Running st ["You must open/create a file first." +:+ nl]
  | Some f, Some n =>
      let v := typed_value r in
      let '(result, s) :=
        insert_value (overflow_env r) (loop_fuel r) v
          (mk_engine (header st) f n) in
      let st' :=
        mk_program
          (mk_options (name (options st)) (file_exists (options st))
             (Some (opt_iop s)) (Some (opt_p s)))
          (hdr s) v (disk st) in
      match result with
      | Ret SUCCESS => Running st' []
      | Ret status => Exited st' [error_msg status +:+ nl]
      | _ => Aborted st'
      end
  | Some _, None => Aborted st
  end.

(** [case SEARCH]: the value is read and nothing else is done. *)
Definition main_search (r : round) (st : program) : outcome :=
  match iop (options st) with
  | None => Running st ["You must open/create a file first." +:+ nl]
  | Some _ =>
      Running
        (mk_program (options st) (header st) (typed_value r) (disk st)) []
  end.

Definition main_step (c : choice) (r : round) (st : program) : outcome :=
  match c with
  | CREATE => main_open false " has been created." r st
  | OPEN => main_open true " has been opened." r st
  | CLOSE => main_close st
  | INSERT => main_insert r st
  | SEARCH => main_search r st
  | QUIT => main_close st
  | OTHER => Running st ["Invalid option,try again." +:+ nl]
  end.

(** The [do ... while(choice!=QUIT)] loop over the rounds typed by the user,
    with everything printed on stderr. *)
Fixpoint main_loop (l : list (choice * round)) (st : program)
    (printed : list string) : outcome :=
  match l with
  | [] => Running st printed
  | (c, r) :: l' =>
      match main_step c r st with
      | Running st' out =>
          match c with
          | QUIT => Running st' (printed ++ out)
          | _ => main_loop l' st' (printed ++ out)
          end
      | Exited st' out => Exited st' (printed ++ out)
      | Aborted st' => Aborted st'
      end
  end.

End main.

(** ** b_print.c: what the dump tool prints for one node record *)

Definition leaf_line (n : node_t) : string :=
  if is_leaf n then ">Leaf." +:+ nl else ">Node." +:+ nl.

Definition parent_line (n : node_t) : string :=
  if parent_block n =? NO_BLOCK
  then ">Current node is the root of the B+ tree." +:+ nl
  else "Parent block:" +:+ pretty (parent_block n) +:+ "." +:+ nl.

Fixpoint print_keys (m : nat) (index : Z) (a : list Z)
  : option (list string) :=
  match m with
  | O => Some []
  | S m' =>
      k ← arr_get a index;
      rest ← print_keys m' (index + 1) a;
      Some ((pretty k +:+ " ") :: rest)
  end.

Fixpoint print_blocks (m : nat) (index : Z) (a : list Z)
  : option (list string) :=
  match m with
  | O => Some []
  | S m' =>
      b ← arr_get a index;
      rest ← print_blocks m' (index + 1) a;
      Some ((if b =? NO_BLOCK then "<nip>" else pretty b +:+ " ") :: rest)
  end.

(** The body of the [while] loop of [print_b_plus_tree]; [None] when it
    indexes outside an array. *)
Definition print_node (n : node_t) : option (list string) :=
  ks ← print_keys (Z.to_nat (keys_used n)) 0 (key n);
  bs ← print_blocks (Z.to_nat (keys_used n + 1)) 0 (block n);
  Some ([">Keys in node:" +:+ pretty (keys_used n) +:+ nl;
         leaf_line n;
         parent_line n]
        ++ ks ++ [nl] ++ bs ++ [nl; nl +:+ "Press enter to continue..."]).

(** The keys a node record counts as its own. *)
Definition used_keys (n : node_t) : list Z :=
  take (Z.to_nat (keys_used n)) (key n).

(** The child references a node record counts as its own. *)
Definition used_blocks (n : node_t) : list Z :=
  take (Z.to_nat (keys_used n + 1)) (block n).

(** [keeps I m]: running [m] from a state in [I] ends in a state in [I],
    whether [m] returns, is undefined or runs out of fuel. *)
Definition keeps (I : engine → Prop) {A} (m : M A) : Prop :=
  ∀ s, I s → I (m s).2.

(** No record in the file is flagged as a leaf. *)
Definition nodes_not_leaf (s : engine) : Prop :=
  ∀ off n, f_nodes (opt_iop s) !! off = Some n → is_leaf n = false.

(** Neither is the buffer. *)
Definition no_leaf (s : engine) : Prop :=
  is_leaf (opt_p s) = false ∧ nodes_not_leaf s.

(** What holds between two [INSERT] rounds of a session that started with
    [CREATE]: as long as the tree is empty the buffer is arbitrary. *)
Definition leaf_flag_inv (s : engine) : Prop :=
  nodes_not_leaf s ∧
  (root_block (hdr s) = NO_BLOCK ∨ is_leaf (opt_p s) = false).

(** No record of the file is flagged as a leaf. *)
Definition file_ok (f : FILE) : Prop :=
  ∀ off n, f_nodes f !! off = Some n → is_leaf n = false.

(** The header record of the file, if it has one, is that of an empty
    tree. *)
Definition empty_tree_header (f : FILE) : Prop :=
  ∀ h, f_header f = Some h → root_block h = NO_BLOCK.

(** Every file the program has, closed or open, is [file_ok]. *)
Definition files_ok (st : program) : Prop :=
  (∀ nm f, disk st !! nm = Some f → file_ok f) ∧
  (∀ f, iop (options st) = Some f → file_ok f).

(** What holds between the rounds of the menu: either the buffer exists
    and is not flagged as a leaf, or no tree has a root yet, in memory or in
    any file. *)
Definition program_ok (st : program) : Prop :=
  files_ok st ∧
  ((∃ n, p (options st) = Some n ∧ is_leaf n = false) ∨
   (root_block (header st) = NO_BLOCK ∧
    (∀ nm f, disk st !! nm = Some f → empty_tree_header f) ∧
    (∀ f, iop (options st) = Some f → empty_tree_header f))).

(** [reads_only m]: [m] returns and leaves the state alone. *)
Definition reads_only {A} (m : M A) : Prop := ∀ s, (m s).2 = s.

(** What of the state is on disk or decides where the tree is: the header
    in memory, the header record, the node records and the end of the
    file.  The stream position and the node buffer are left out. *)
Definition file_of (s : engine)
  : header_t * option header_t * gmap Z node_t * Z :=
  (hdr s, f_header (opt_iop s), f_nodes (opt_iop s), f_eof (opt_iop s)).

(** [finds_key value d s]: the descent for [value] that starts with the
    stream where it is in [s] meets, in its [d]-th round, a node whose key
    at the index the scan stops at is [value]; in the rounds before, the
    key differs and [block[new_pos+1]] leads on. *)
Inductive finds_key {L : Layout} (value : Z) : nat → engine → Prop :=
  | finds_here s c s1 new_pos :
      fread_node s = (Ret c, s1) →
      (find_pos false value s1).1 = Ret new_pos →
      arr_get (key (opt_p s1)) new_pos = Some value →
      finds_key value 1 s
  | finds_below s c s1 new_pos k b d :
      fread_node s = (Ret c, s1) →
      (find_pos false value s1).1 = Ret new_pos →
      arr_get (key (opt_p s1)) new_pos = Some k →
      k ≠ value →
      arr_get (block (opt_p s1)) (word (new_pos + 1)) = Some b →
      b ≠ NO_BLOCK →
      finds_key value d (fseek b SEEK_SET s1).2 →
      finds_key value (S d) s.

(** [never r m]: [m] does not return the status [r]. *)
Definition never (r : status_t) (m : M status_t) : Prop :=
  ∀ s, (m s).1 ≠ Ret r.

(** A file that holds nothing but a header declaring order 3, with the
    record sizes of the machine below. *)
Definition order3_file : FILE :=
  mk_file (Some (mk_header 10 36 3 NO_BLOCK)) ∅ 10 10.

(** ** A concrete machine for the worked examples

    The MACHINE_16 target: 2-byte [size_t], [word_t] and enumerations,
    4-byte [long].  Fresh memory and the stack are taken to hold zeros. *)

Definition machine_16 : Layout :=
  {| sizeof_header_t := 10; sizeof_node_t := 36 |}.

Definition zeroed_node : node_t :=
  mk_node false 0 [0; 0; 0; 0] [0; 0; 0; 0; 0] 0.

Definition zeroed_env (hi : bool) : env :=
  mk_env hi [0; 0; 0; 0] [0; 0; 0; 0; 0].

(** [CREATE] followed by [INSERT] rounds; each value comes with the outcome
    of [rand() > (RAND_MAX >> 1)] should the round call [node_overflow]. *)
Definition session16 (l : list (Z * bool)) : res status_t * engine :=
  insert_all (L := machine_16) 10 ((λ x, (x.1, zeroed_env x.2)) <$> l)
    (created (L := machine_16) zeroed_node).

(** The same rounds as typed at the menu. *)
Definition typed (v : Z) (hi : bool) : round :=
  mk_round "t" v zeroed_node (zeroed_env hi) 10.

(** ** The rest of b_print.c: the loop over the records and [main] *)

(** How a run of the tool ends: it has printed its lines on stdout, or
    [error] printed one message on stderr and left. *)
Inductive dumped :=
  | Dumped (stdout : list string)
  | Stopped (stderr : string).

Section b_print.
Context {L : Layout}.

(** [while(fread(opt->p,h->block_size,1,opt->iop)==1) { ... }]; the key the
    user presses after each record is read and dropped. *)
Fixpoint print_records (fuel : nat) : M (list string) :=
  match fuel with
  | O => out_of_fuel
  | S fuel' =>
      c ← fread_node;
      if c =? 1 then
        n ← gets opt_p;
        lines ← lift_opt (print_node n);
        rest ← print_records fuel';
        mret (lines ++ rest)
      else mret []
  end.

Definition print_b_plus_tree (nm : string) (fuel : nat) : M dumped :=
  h ← gets hdr;
  r ← fseek (block_size h) SEEK_SET;
  if negb (r =? 0) then
    mret (Stopped ("Cannot move to root block of index file " +:+ nm +:+
                   "." +:+ nl))
  else
    out ← print_records fuel;
    mret (Dumped out).

(** [main] of the tool, given [argv[1..]], the files on disk and what
    [malloc] hands out; [signal] and [malloc] succeed. *)
Definition b_print (args : list string) (heap : node_t) (fuel : nat)
    (disk : gmap string FILE) : res dumped :=
  match args with
  | [nm] =>
      match disk !! nm with
      | None =>
          Ret (Stopped ("Cannot open index file " +:+ nm +:+ "." +:+ nl))
      | Some f =>
          match f_header f with
          | None =>
              Ret (Stopped ("Cannot read from index file " +:+ nm +:+
                            "." +:+ nl))
          | Some h =>
              (print_b_plus_tree nm fuel
                 (mk_engine h (rewind sizeof_header_t f) heap)).1
          end
      end
  | _ => Ret (Stopped ("Syntax: b_print <index file name>" +:+ nl))
  end.

End b_print.

(** ** Predicates and states the further properties are stated with *)

(** The state once the first branch of [insert_value] has pointed the header
    at the root to be and rewritten it on disk. *)
Definition header_rewritten {L : Layout} (s : engine) : engine :=
  ((fseek 0 SEEK_SET;;
    modify (with_hdr (with_root_block (header_size (hdr s))));;
    fwrite_header) s).2.


(** The arrays after [shift_insert]: slot [new_pos] of the keys and slot
    [new_pos+1] of the blocks are filled, what was there and behind, up to
    the last slot in use, has moved up by one. *)
Definition shifted_keys (new_pos ku k : Z) (ks : list Z) : list Z :=
  take (Z.to_nat new_pos) ks ++ [k] ++
  take (Z.to_nat (ku - new_pos)) (drop (Z.to_nat new_pos) ks) ++
  drop (Z.to_nat (ku + 1)) ks.

Definition shifted_blocks (new_pos ku b : Z) (bs : list Z) : list Z :=
  take (Z.to_nat (new_pos + 1)) bs ++ [b] ++
  take (Z.to_nat (ku - new_pos)) (drop (Z.to_nat (new_pos + 1)) bs) ++
  drop (Z.to_nat (ku + 2)) bs.

Definition shift_inserted (new_pos k b : Z) (n : node_t) : node_t :=
  mk_node (is_leaf n) (keys_used n + 1)
    (shifted_keys new_pos (keys_used n) k (key n))
    (shifted_blocks new_pos (keys_used n) b (block n))
    (parent_block n).

(** A node record as [node_t] declares it. *)
Definition well_formed (n : node_t) : Prop :=
  length (key n) = 4%nat ∧ length (block n) = 5%nat ∧ 0 ≤ keys_used n.

(** [i] is where the scan for [value] stops in [n] without finding it equal:
    the keys before are below the value, and the key at [i], if it is in
    use, is above. *)
Definition insertion_point (value : Z) (n : node_t) (i : Z) : Prop :=
  0 ≤ i ≤ keys_used n ∧
  (∀ j, 0 ≤ j < i → ∃ kj, arr_get (key n) j = Some kj ∧ kj < value) ∧
  (i < keys_used n → ∃ k, arr_get (key n) i = Some k ∧ value < k).

(** The state of the round of [insert_value] that inserts, once the node
    is written back. *)
Definition written_back (value i : Z) (n : node_t) (s : engine) : engine :=
  mk_engine (hdr s)
    (mk_file (f_header (opt_iop s))
       (<[f_pos (opt_iop s) := shift_inserted i value NO_BLOCK n]>
          (f_nodes (opt_iop s)))
       (Z.max (f_eof (opt_iop s)) (f_pos (opt_iop s) + block_size (hdr s)))
       (f_pos (opt_iop s) + block_size (hdr s)))
    (shift_inserted i value NO_BLOCK n).

(** A header followed by whole node records, one after the other, up to the
    end of the file. *)
Definition contiguous {L : Layout} (f : FILE) : Prop :=
  ∃ m, 0 ≤ m ∧
       f_eof f = sizeof_header_t + m * sizeof_node_t ∧
       ∀ off, is_Some (f_nodes f !! off) ↔
              ∃ k, 0 ≤ k < m ∧ off = sizeof_header_t + k * sizeof_node_t.

(** A header as [main] sets it up, with the root, once there is one, right
    behind the header record. *)
Definition standard_header {L : Layout} (h : header_t) : Prop :=
  header_size h = sizeof_header_t ∧ block_size h = sizeof_node_t ∧
  tree_order h = TREE_ORDER ∧
  (root_block h = NO_BLOCK ∨ root_block h = sizeof_header_t).

Definition headers_standard {L : Layout} (s : engine) : Prop :=
  standard_header (hdr s) ∧
  ∀ h, f_header (opt_iop s) = Some h → standard_header h.

(** The header in memory satisfies [G] and every file the program has,
    closed or open, satisfies [P]. *)
Definition all_files (G : header_t → Prop) (P : FILE → Prop)
    (st : program) : Prop :=
  G (header st) ∧
  (∀ nm f, disk st !! nm = Some f → P f) ∧
  (∀ f, iop (options st) = Some f → P f).

(** [main] never leaves a stream open without a node buffer. *)
Definition buffer_allocated (st : program) : Prop :=
  is_Some (iop (options st)) → is_Some (p (options st)).

(** The state the retagging loop leaves when the buffer holds a node without
    children that was just appended: the record is rewritten from the
    buffer, with [par_block] as parent. *)
Definition retagged_itself (par_block : Z) (s : engine) : engine :=
  mk_engine (hdr s)
    (mk_file (f_header (opt_iop s))
       (<[f_pos (opt_iop s) - block_size (hdr s) :=
            with_parent_block par_block (opt_p s)]> (f_nodes (opt_iop s)))
       (f_eof (opt_iop s)) (f_pos (opt_iop s)))
    (with_parent_block par_block (opt_p s)).


(** What the tool is to print for [cnt] records that follow each other from
    offset [pos]. *)
Fixpoint records_lines (nodes : gmap Z node_t) (pos size : Z) (cnt : nat)
  : list string :=
  match cnt with
  | O => []
  | S cnt' =>
      default [] (nodes !! pos ≫= print_node) ++
      records_lines nodes (pos + size) size cnt'
  end.

(** A node record the tool can print without leaving the arrays. *)
Definition printable (n : node_t) : Prop :=
  length (key n) = 4%nat ∧ length (block n) = 5%nat ∧ keys_used n ≤ 4.

(** *** More states of the 16-bit machine *)

(** What a run of the menu has printed. *)
Definition messages_of (o : outcome) : list string :=
  match o with
  | Running _ m => m
  | Exited _ m => m
  | Aborted _ => []
  end.

(** A root with the keys 10 and 30, as two insertions leave it. *)
Definition root_10_30 : node_t :=
  mk_node false 2 [10; 30; 0; 0] [-1; -1; -1; -1; -1] (-1).

(** A file with one node record behind the header. *)
Definition one_record_file (pos : Z) : FILE :=
  mk_file (Some (mk_header 10 36 4 10)) {[ 10 := root_10_30 ]} 46 pos.

(** A heap block that holds 99 in the second key slot. *)
Definition stale_99 : node_t :=
  mk_node false 0 [0; 99; 0; 0] [0; 0; 0; 0; 0] 0.

(** A state in which the node at 82, which names a parent, holds four keys
    and was just written back. *)
Definition inner_overflow_16 : engine :=
  mk_engine (mk_header 10 36 4 10)
    (mk_file (Some (mk_header 10 36 4 10))
       (list_to_map
          [(10, mk_node false 1 [30; 20; 30; 40] [46; 82; -1; -1; -1] (-1));
           (46, mk_node false 2 [10; 20; 30; 40] [-1; -1; -1; -1; -1] 46);
           (82, mk_node false 4 [5; 6; 7; 40] [-1; -1; -1; -1; -1] 82)])
       118 118)
    (mk_node false 4 [5; 6; 7; 40] [-1; -1; -1; -1; -1] 82).

(** ** Transfers that start inside a record: the file as bytes

    Where the stream stands inside a record, what [fread] delivers and what
    [fwrite] overwrites is decided by the bytes of the file.  On the
    MACHINE_16 target integers are stored least significant byte first and
    the structures have no padding: a node record is 36 bytes, [is_leaf] at
    0, [keys_used] at 2, [key[0..3]] at 4, [block[0..4]] at 12 and
    [parent_block] at 32; the header record is 10 bytes. *)

Fixpoint le_bytes (w : nat) (x : Z) : list Z :=
  match w with
  | O => []
  | S w' => x mod 256 :: le_bytes w' (x / 256)
  end.

Fixpoint of_le (bs : list Z) : Z :=
  match bs with
  | [] => 0
  | b :: bs' => b + 256 * of_le bs'
  end.

(** A [long] from its bytes. *)
Definition of_le_signed (bs : list Z) : Z :=
  let x := of_le bs in
  let m := 256 ^ Z.of_nat (length bs) in
  if m / 2 <=? x then x - m else x.

(** The bytes of a node buffer; [leaf] is the word stored in [is_leaf]. *)
Definition node_image (leaf : Z) (n : node_t) : list Z :=
  le_bytes 2 leaf ++ le_bytes 2 (keys_used n) ++
  concat (le_bytes 2 <$> key n) ++ concat (le_bytes 4 <$> block n) ++
  le_bytes 4 (parent_block n).

(** The node buffer that holds the 36 bytes [bs], with the word found in
    [is_leaf]; the field compares equal to [true] when that word is 1. *)
Definition node_of_image (bs : list Z) : Z * node_t :=
  let field (off w : nat) := take w (drop off bs) in
  let leaf := of_le (field 0 2)%nat in
  (leaf,
   mk_node (leaf =? 1) (of_le (field 2 2)%nat)
     [of_le (field 4 2)%nat; of_le (field 6 2)%nat;
      of_le (field 8 2)%nat; of_le (field 10 2)%nat]
     [of_le_signed (field 12 4)%nat; of_le_signed (field 16 4)%nat;
      of_le_signed (field 20 4)%nat; of_le_signed (field 24 4)%nat;
      of_le_signed (field 28 4)%nat]
     (of_le_signed (field 32 4)%nat)).

Definition header_image (h : header_t) : list Z :=
  le_bytes 2 (header_size h) ++ le_bytes 2 (block_size h) ++
  le_bytes 2 (tree_order h) ++ le_bytes 4 (root_block h).

(** The bytes of [cnt] records that follow each other from offset [pos]. *)
Fixpoint records_image (nodes : gmap Z node_t) (pos : Z) (cnt : nat)
  : list Z :=
  match cnt with
  | O => []
  | S cnt' =>
      from_option (λ n, node_image (Z.b2z (is_leaf n)) n) (replicate 36 0)
        (nodes !! pos) ++
      records_image nodes (pos + 36) cnt'
  end.

(** The bytes of a file made of a header and whole records. *)
Definition file_image (f : FILE) : list Z :=
  from_option header_image (replicate 10 0) (f_header f) ++
  records_image (f_nodes f) 10 (Z.to_nat ((f_eof f - 10) / 36)).

(** The stream and the node buffer, byte by byte. *)
Record raw := mk_raw {
  raw_bytes : list Z;        (* the contents of the file *)
  raw_pos : Z;               (* the stream position *)
  raw_leaf : Z;              (* the word in opt->p->is_leaf *)
  raw_p : node_t             (* the rest of *opt->p *)
}.

Definition raw_of (s : engine) : raw :=
  mk_raw (file_image (opt_iop s)) (f_pos (opt_iop s))
    (Z.b2z (is_leaf (opt_p s))) (opt_p s).

Definition raw_fseek (offset : Z) (w : whence) (r : raw) : Z * raw :=
  let target := match w with
                | SEEK_SET => offset
                | SEEK_CUR => raw_pos r + offset
                | SEEK_END => Z.of_nat (length (raw_bytes r)) + offset
                end in
  if target <? 0 then (-1, r)
  else (0, mk_raw (raw_bytes r) target (raw_leaf r) (raw_p r)).

(** [fread(opt->p, 36, 1, opt->iop)]: a whole item when 36 bytes are left,
    otherwise the bytes that are left go to the front of the buffer and the
    call returns 0. *)
Definition raw_fread (r : raw) : Z * raw :=
  let left := drop (Z.to_nat (raw_pos r)) (raw_bytes r) in
  let got := take 36 left in
  let buffer :=
    got ++ drop (length got) (node_image (raw_leaf r) (raw_p r)) in
  let '(leaf, n) := node_of_image buffer in
  (if (36 <=? Z.of_nat (length left)) then 1 else 0,
   mk_raw (raw_bytes r) (raw_pos r + Z.of_nat (length got)) leaf n).

(** [fwrite(opt->p, 36, 1, opt->iop)]: the 36 bytes of the buffer replace
    what the file holds from the stream position on, and extend the file
    where it ends before. *)
Definition raw_fwrite (r : raw) : Z * raw :=
  let pos := Z.to_nat (raw_pos r) in
  let bs := raw_bytes r in
  (1,
   mk_raw
     (take pos bs ++ replicate (pos - length bs) 0 ++
      node_image (raw_leaf r) (raw_p r) ++ drop (pos + 36) bs)
     (raw_pos r + 36) (raw_leaf r) (raw_p r)).

(** Running code that only works on the node buffer. *)
Definition on_buffer {A} (h : header_t) (m : M A) (n : node_t)
  : option (A * node_t) :=
  match m (mk_engine h (mk_file None ∅ 0 0) n) with
  | (Ret a, s) => Some (a, opt_p s)
  | _ => None
  end.

(** How a round of the [while(insert==false)] loop ends. *)
Inductive round_end := Met | Inserted | Overflowed | Followed.

(** One round of the loop of [insert_value] on the bytes; [None] where the
    code indexes outside an array or the record size is not 36. *)
Definition raw_descend_step (h : header_t) (value : Z) (r : raw)
  : option (round_end * raw) :=
  if negb (block_size h =? 36) then None
  else
    let r1 := (raw_fread r).2 in
    '(new_pos, _) ← on_buffer h (find_pos false value) (raw_p r1);
    k ← arr_get (key (raw_p r1)) new_pos;
    if value =? k then Some (Met, r1)                  (* value exists *)
    else
      b ← arr_get (block (raw_p r1)) (word (new_pos + 1));
      if b =? NO_BLOCK then                            (* no more path *)
        '(_, n) ← on_buffer h (shift_insert new_pos value NO_BLOCK)
                    (raw_p r1);
        let r2 := mk_raw (raw_bytes r1) (raw_pos r1) (raw_leaf r1) n in
        let r3 := (raw_fseek (- block_size h) SEEK_CUR r2).2 in
        let r4 := (raw_fwrite r3).2 in
        Some (if keys_used n =? tree_order h then Overflowed else Inserted,
              r4)
      else                                             (* the path continues *)
        Some (Followed, (raw_fseek b SEEK_SET r1).2).

(** The loop, up to the call of [node_overflow]. *)
Fixpoint raw_descend (h : header_t) (n : nat) (value : Z) (r : raw)
  : option (round_end * raw) :=
  match n with
  | O => None
  | S n' =>
      '(e, r') ← raw_descend_step h value r;
      match e with
      | Followed => raw_descend h n' value r'
      | _ => Some (e, r')
      end
  end.

(** The branch of [insert_value] for a tree that has a root. *)
Definition raw_insert_rooted (h : header_t) (fuel : nat) (value : Z)
    (r : raw) : option (round_end * raw) :=
  raw_descend h fuel value (raw_fseek (root_block h) SEEK_SET r).2.

(** The record the file holds at [off]. *)
Definition record_at (off : Z) (bs : list Z) : Z * node_t :=
  node_of_image (take 36 (drop (Z.to_nat off) bs)).

(** Stack contents for the call of [node_overflow]: the second slot of
    [temp_block] holds 114. *)
Definition residue_114 : env :=
  mk_env true [3; 2000; 0; 0] [-1; 114; 0; 0; 0].

Definition stray_session : list (Z * env) :=
  [(10, zeroed_env true); (20, zeroed_env true); (30, zeroed_env true);
   (40, zeroed_env true); (5, zeroed_env true); (6, zeroed_env true);
   (7, residue_114)].

(** * Properties *)

(** ** Running a computation *)

Lemma bind_run {A B} (m : M A) (f : A → M B) (s : engine) :
  (m ≫= f) s =
  match m s with
  | (Ret a, s') => f a s'
  | (Undefined, s') => (Undefined, s')
  | (OutOfFuel, s') => (OutOfFuel, s')
  end.
Proof. reflexivity. Qed.

Section keeps.
Context (I : engine → Prop).

Lemma keeps_ret {A} (a : A) : keeps I (mret a).
Proof. intros s Hs. exact Hs. Qed.

Lemma keeps_bind {A B} (m : M A) (f : A → M B) :
  keeps I m → (∀ a, keeps I (f a)) → keeps I (m ≫= f).
Proof.
  intros Hm Hf s Hs. rewrite bind_run.
  specialize (Hm s Hs). destruct (m s) as [[a| |] s']; simpl in *; auto.
  apply Hf, Hm.
Qed.

Lemma keeps_gets {A} (g : engine → A) : keeps I (gets g).
Proof. intros s Hs. exact Hs. Qed.

Lemma keeps_undefined {A} : keeps I (@undefined A).
Proof. intros s Hs. exact Hs. Qed.

Lemma keeps_out_of_fuel {A} : keeps I (@out_of_fuel A).
Proof. intros s Hs. exact Hs. Qed.

Lemma keeps_lift_opt {A} (o : option A) : keeps I (lift_opt o).
Proof. destruct o; [apply keeps_ret | apply keeps_undefined]. Qed.

Lemma keeps_if {A} (c : bool) (m1 m2 : M A) :
  keeps I m1 → keeps I m2 → keeps I (if c then m1 else m2).
Proof. destruct c; auto. Qed.

Lemma keeps_for_up {A} (body : Z → A → M A) :
  (∀ i a, keeps I (body i a)) → ∀ n i a, keeps I (for_up n i body a).
Proof.
  intros Hb n. induction n as [|n IH]; intros i a; simpl.
  - apply keeps_ret.
  - apply keeps_bind; [apply Hb | intros a'; apply IH].
Qed.

Lemma keeps_for_down_n (body : Z → M unit) :
  (∀ i, keeps I (body i)) → ∀ n i, keeps I (for_down_n n i body).
Proof.
  intros Hb n. induction n as [|n IH]; intros i; simpl.
  - apply keeps_ret.
  - apply keeps_bind; [apply Hb | intros _; apply IH].
Qed.

End keeps.

(** ** The leaf flag *)

Section leaf_flag.
Context {L : Layout}.

Lemma keeps_modify_p (f : node_t → node_t) :
  (∀ n, is_leaf n = false → is_leaf (f n) = false) →
  keeps no_leaf (modify (with_p f)).
Proof. intros Hf s [Hp Hn]. split; [apply Hf, Hp | exact Hn]. Qed.

Lemma keeps_fseek off w : keeps no_leaf (fseek off w).
Proof.
  intros s Hs. unfold fseek. destruct (_ <? 0); simpl; exact Hs.
Qed.

Lemma keeps_ftell : keeps no_leaf ftell.
Proof. apply keeps_gets. Qed.

Lemma keeps_fread_node : keeps no_leaf fread_node.
Proof.
  intros s [Hp Hn]. unfold fread_node.
  destruct (negb (whole_records s)); [by split |].
  destruct (f_nodes (opt_iop s) !! f_pos (opt_iop s)) as [n|] eqn:E; simpl.
  - split; [exact (Hn _ _ E) | exact Hn].
  - destruct (_ <=? _); by split.
Qed.

Lemma keeps_fwrite_node : keeps no_leaf fwrite_node.
Proof.
  intros s [Hp Hn]. unfold fwrite_node.
  destruct (negb (whole_records s)); [by split |].
  destruct (_ || _); [| by split].
  split; [exact Hp |]. intros off n. simpl.
  rewrite lookup_insert. case_decide.
  - intros [= <-]. exact Hp.
  - apply Hn.
Qed.

Lemma keeps_p_key i : keeps no_leaf (p_key i).
Proof.
  apply keeps_bind; [apply keeps_gets | intros; apply keeps_lift_opt].
Qed.

Lemma keeps_p_block i : keeps no_leaf (p_block i).
Proof.
  apply keeps_bind; [apply keeps_gets | intros; apply keeps_lift_opt].
Qed.

Lemma keeps_set_p_key i v : keeps no_leaf (set_p_key i v).
Proof.
  apply keeps_bind; [apply keeps_gets | intros a].
  apply keeps_bind; [apply keeps_lift_opt | intros a'].
  apply keeps_modify_p. auto.
Qed.

Lemma keeps_set_p_block i v : keeps no_leaf (set_p_block i v).
Proof.
  apply keeps_bind; [apply keeps_gets | intros a].
  apply keeps_bind; [apply keeps_lift_opt | intros a'].
  apply keeps_modify_p. auto.
Qed.

Lemma keeps_scan strict value : ∀ n new_pos,
  keeps no_leaf (scan strict n value new_pos).
Proof.
  induction n as [|n IH]; intros new_pos; simpl.
  - apply keeps_ret.
  - apply keeps_bind; [apply keeps_p_key | intros k].
    apply keeps_if; [apply keeps_ret | apply IH].
Qed.

Lemma keeps_find_pos strict value : keeps no_leaf (find_pos strict value).
Proof.
  apply keeps_bind; [apply keeps_gets | intros; apply keeps_scan].
Qed.

End leaf_flag.

Create HintDb keeps.
#[local] Hint Resolve keeps_ret keeps_gets keeps_undefined keeps_out_of_fuel
  keeps_lift_opt keeps_fseek keeps_ftell keeps_fread_node keeps_fwrite_node
  keeps_p_key keeps_p_block keeps_set_p_key keeps_set_p_block keeps_scan
  keeps_find_pos : keeps.

(** Walks through a computation built from binds, conditionals and the
    counted loops, leaving the primitives to the hint database. *)
Ltac keeps_step :=
  match goal with
  | |- keeps _ (_ ≫= _) => apply keeps_bind; [| intros ?]
  | |- keeps _ (if _ then _ else _) => apply keeps_if
  | |- keeps _ (for_lt _ _ _ _) => apply keeps_for_up; intros ? ?
  | |- keeps _ (for_le _ _ _ _) => apply keeps_for_up; intros ? ?
  | |- keeps _ (for_down _ _ _) => apply keeps_for_down_n; intros ?
  | |- keeps _ (on_p _ _ _) => unfold on_p
  | |- keeps no_leaf (modify (with_p _)) => apply keeps_modify_p; auto
  | |- keeps _ _ => solve [eauto with keeps]
  end.

Section leaf_flag_engine.
Context {L : Layout}.

Lemma keeps_shift_insert new_pos k b :
  keeps no_leaf (shift_insert new_pos k b).
Proof. unfold shift_insert. repeat keeps_step. Qed.

Lemma keeps_retag par_block : ∀ fuel index,
  keeps no_leaf (retag fuel index par_block).
Proof.
  induction fuel as [|fuel IH]; intros index; simpl.
  - apply keeps_out_of_fuel.
  - repeat keeps_step.
Qed.

Lemma keeps_split_root fuel lk rk tk tb :
  keeps no_leaf (split_root fuel lk rk tk tb).
Proof. unfold split_root. repeat keeps_step; try apply keeps_retag. Qed.

Lemma keeps_split_inner lk rk tk tb :
  keeps no_leaf (split_inner lk rk tk tb).
Proof.
  unfold split_inner. repeat keeps_step; try apply keeps_shift_insert.
Qed.

Lemma keeps_overflow_loop fuel lk rk : ∀ n tk tb,
  keeps no_leaf (overflow_loop fuel n lk rk tk tb).
Proof.
  induction n as [|n IH]; intros tk tb; simpl.
  - apply keeps_out_of_fuel.
  - repeat keeps_step;
      first [apply keeps_split_root | apply keeps_split_inner].
Qed.

Lemma keeps_node_overflow e fuel : keeps no_leaf (node_overflow e fuel).
Proof.
  unfold node_overflow. repeat keeps_step; try apply keeps_overflow_loop.
Qed.

Lemma keeps_descend_step e fuel value :
  keeps no_leaf (descend_step e fuel value).
Proof.
  unfold descend_step. repeat keeps_step;
    first [apply keeps_shift_insert | apply keeps_node_overflow].
Qed.

Lemma keeps_descend e fuel value : ∀ n,
  keeps no_leaf (descend e fuel n value).
Proof.
  induction n as [|n IH]; simpl.
  - apply keeps_out_of_fuel.
  - repeat keeps_step; try apply keeps_descend_step.
Qed.



Lemma no_leaf_inv s : no_leaf s → nodes_not_leaf s ∧ leaf_flag_inv s.
Proof. intros [Hp Hn]. repeat split; auto. Qed.

(** The stores of the root initialisation up to [is_leaf=false], followed
    by anything that keeps the flag clear. *)
Lemma init_root_no_leaf {A} v (rest : M A) s :
  nodes_not_leaf s → keeps no_leaf rest →
  let m := set_p_key 0 v;;
           modify (with_p (with_keys_used 1));;
           modify (with_p (with_parent_block NO_BLOCK));;
           modify (with_p (with_is_leaf false));;
           rest in
  nodes_not_leaf (m s).2 ∧ (∀ a, (m s).1 = Ret a → no_leaf (m s).2).
Proof.
  intros Hn Hrest m. subst m. unfold set_p_key.
  do 2 (rewrite bind_run; simpl). unfold lift_opt.
  destruct (arr_set (key (opt_p s)) 0 v) as [a'|]; simpl.
  - repeat (rewrite bind_run; simpl).
    match goal with |- context [rest ?s'] => assert (no_leaf s') as Hs' end.
    { split; [reflexivity | exact Hn]. }
    apply Hrest in Hs'. split; [apply Hs' | intros _ _; exact Hs'].
  - split; [exact Hn | discriminate].
Qed.

Lemma insert_value_leaf_flag e fuel v s :
  leaf_flag_inv s →
  nodes_not_leaf (insert_value e fuel v s).2 ∧
  ((insert_value e fuel v s).1 = Ret SUCCESS →
   no_leaf (insert_value e fuel v s).2).
Proof.
  intros [Hn Hp]. unfold insert_value.
  destruct (v =? 0); [split; [exact Hn | discriminate] |].
  rewrite bind_run. simpl.
  destruct (tree_order (hdr s) >? TREE_ORDER);
    [split; [exact Hn | discriminate] |].
  destruct (root_block (hdr s) =? NO_BLOCK) eqn:Hroot.
  - do 3 (rewrite bind_run; simpl).
    assert (keeps no_leaf
      (for_le 0 (tree_order (hdr s))
         (on_p (λ index, set_p_block index NO_BLOCK)) tt;;
       c ← fwrite_node;
       if negb (c =? 1) then mret E_WRITE_FILE else mret SUCCESS)) as Hk.
    { repeat keeps_step. }
    match goal with |- nodes_not_leaf (_ ?s').2 ∧ _ =>
      destruct (init_root_no_leaf v _ s' Hn Hk) as [H1 H2]
    end.
    split; [exact H1 |]. intros Hr. apply (H2 _ Hr).
  - destruct Hp as [Hp | Hp].
    { apply Z.eqb_neq in Hroot. contradiction. }
    assert (keeps no_leaf
      (fseek (root_block (hdr s)) SEEK_SET;;
       descend e fuel fuel v;; mret SUCCESS)) as Hk.
    { repeat keeps_step. apply keeps_descend. }
    specialize (Hk s (conj Hp Hn)).
    split; [apply Hk | intros _; exact Hk].
Qed.

Lemma insert_all_leaf_flag fuel l : ∀ s,
  leaf_flag_inv s → nodes_not_leaf (insert_all fuel l s).2.
Proof.
  induction l as [|[v e] l IH]; intros s Hs; simpl.
  - apply Hs.
  - destruct (insert_value_leaf_flag e fuel v s Hs) as [H1 H2].
    destruct (insert_value e fuel v s) as [[[]| |] s']; simpl in *;
      try exact H1.
    apply IH, no_leaf_inv, H2. reflexivity.
Qed.

End leaf_flag_engine.

(** ** Claims *)

(** The menu and the engine agree on what [CREATE] leaves behind. *)
Lemma main_create_created {L : Layout} r gname gvalue :
  ∃ st out,
    main_step CREATE r (main_init gname gvalue) = Running st out ∧
    header st = header0 ∧
    iop (options st) = Some (opt_iop (created (fresh_block r))) ∧
    p (options st) = Some (fresh_block r).
Proof. eexists _, _. repeat split. Qed.

(** C1 (the code falls short of the claim): with a file open, the [SEARCH]
    round of the menu stores the typed value and does nothing else.  It
    leaves the stream, the buffer, the header and the disk as they were,
    which is the part of the claim that holds, and it prints nothing, so no
    value is ever reported as found or as missing. *)
Theorem search_reports_nothing {L : Layout} (r : round) (st : program)
    (f : FILE) :
  iop (options st) = Some f →
  main_step SEARCH r st =
  Running (mk_program (options st) (header st) (typed_value r) (disk st)) [].
Proof. intros Hf. simpl. unfold main_search. rewrite Hf. reflexivity. Qed.

Lemma search_reports_nothing_witness :
  ∃ st out,
    main_loop (L := machine_16)
      [(CREATE, typed 0 true); (INSERT, typed 10 true)]
      (main_init (L := machine_16) EmptyString 0) [] = Running st out ∧
    main_step (L := machine_16) SEARCH (typed 10 true) st =
    Running (mk_program (options st) (header st) 10 (disk st)) [].
Proof.
  eexists _, _. split; [vm_compute; reflexivity |].
  eapply (search_reports_nothing (L := machine_16)). reflexivity.
Defined.

(** *** The order check *)

Lemma never_ret r r' : r ≠ r' → never r (mret r').
Proof. intros Hne s [= Heq]. congruence. Qed.

Lemma never_bind {A} r (m : M A) (f : A → M status_t) :
  (∀ a, never r (f a)) → never r (m ≫= f).
Proof.
  intros Hf s. rewrite bind_run.
  destruct (m s) as [[a| |] s']; simpl; try discriminate. apply Hf.
Qed.

Lemma never_if r (c : bool) (m1 m2 : M status_t) :
  never r m1 → never r m2 → never r (if c then m1 else m2).
Proof. destruct c; auto. Qed.

Ltac never_step :=
  match goal with
  | |- never _ (_ ≫= _) => apply never_bind; intros ?
  | |- never _ (if _ then _ else _) => apply never_if
  | |- never _ (mret _) => apply never_ret; discriminate
  end.

(** C9: [insert_value] with the value 0, which [read_word_t] announces as
    the low end of the accepted range, returns [INV_DATA_PTR] and changes
    neither the header, nor the file, nor the buffer; no other value is
    answered with that status. *)
Theorem insert_zero_is_rejected {L : Layout} (e : env) (fuel : nat)
    (s : engine) :
  insert_value e fuel 0 s = (Ret INV_DATA_PTR, s) ∧
  ∀ v, (insert_value e fuel v s).1 = Ret INV_DATA_PTR → v = 0.
Proof.
  split; [reflexivity |]. intros v.
  destruct (Z.eqb_spec v 0) as [-> | Hv]; [reflexivity |].
  intros Hr. exfalso. revert Hr. unfold insert_value.
  replace (v =? 0) with false by (symmetry; by apply Z.eqb_neq).
  match goal with |- (?m s).1 = _ → _ =>
    assert (never INV_DATA_PTR m) as Hn; [| apply Hn]
  end.
  repeat never_step.
Qed.

(** Counterexample to C8 as stated: a file whose header declares order 3
    is opened without complaint by the engine configured for order 4, and
    the following [insert_value] runs to [SUCCESS] and writes a node. *)
Lemma smaller_order_is_accepted :
  ∃ opt h f n s,
    open_tree (L := machine_16) {[ "t" := order3_file ]}
      (mk_options "t" true None (Some zeroed_node))
      (header0 (L := machine_16)) = (SUCCESS, opt, h) ∧
    tree_order h = 3 ∧ iop opt = Some f ∧ p opt = Some n ∧
    insert_value (L := machine_16) (zeroed_env true) 10 10
      (mk_engine h f n) = (Ret SUCCESS, s) ∧
    f_nodes (opt_iop s) !! 10 =
      Some (mk_node false 1 [10; 0; 0; 0] [-1; -1; -1; -1; 0] (-1)).
Proof.
  eexists _, _, _, _, _.
  split; [vm_compute; reflexivity |].
  split; [reflexivity |]. split; [reflexivity |]. split; [reflexivity |].
  split; vm_compute; reflexivity.
Qed.

(** C8 (amended): [open_tree] never answers [E_INCOMPATIBLE_VERSION]; the
    order is checked by [insert_value], which for a non-zero value returns
    [E_INCOMPATIBLE_VERSION] exactly when the stored order is greater than
    [TREE_ORDER], and then does so before reading any node, leaving header,
    file and buffer as they were. *)
Theorem order_checked_on_insert {L : Layout} (e : env) (fuel : nat) (v : Z)
    (s : engine) (dsk : gmap string FILE) (opt : options_t) (h : header_t) :
  v ≠ 0 →
  (open_tree dsk opt h).1.1 ≠ E_INCOMPATIBLE_VERSION ∧
  ((insert_value e fuel v s).1 = Ret E_INCOMPATIBLE_VERSION ↔
   tree_order (hdr s) > TREE_ORDER) ∧
  (tree_order (hdr s) > TREE_ORDER →
   insert_value e fuel v s = (Ret E_INCOMPATIBLE_VERSION, s)).
Proof.
  intros Hv. apply Z.eqb_neq in Hv.
  split; [| split].
  - unfold open_tree. destruct (file_exists opt); [| discriminate].
    destruct (dsk !! name opt) as [f|]; [| discriminate].
    destruct (f_header f); discriminate.
  - unfold insert_value. rewrite Hv, bind_run. simpl.
    destruct (Z.gtb_spec (tree_order (hdr s)) TREE_ORDER) as [Hgt | Hle].
    + split; [intros _; lia | reflexivity].
    + split; [| lia]. intros Hr. exfalso. revert Hr.
      match goal with |- (?m s).1 = _ → _ =>
        assert (never E_INCOMPATIBLE_VERSION m) as Hn; [| apply Hn]
      end.
      repeat never_step.
  - intros Hgt. unfold insert_value. rewrite Hv, bind_run. simpl.
    destruct (Z.gtb_spec (tree_order (hdr s)) TREE_ORDER); [reflexivity | lia].
Qed.

Lemma order_checked_on_insert_witness :
  let s := mk_engine (mk_header 10 36 5 NO_BLOCK)
             (mk_file (Some (mk_header 10 36 5 NO_BLOCK)) ∅ 10 10)
             zeroed_node in
  insert_value (L := machine_16) (zeroed_env true) 10 7 s =
  (Ret E_INCOMPATIBLE_VERSION, s).
Proof.
  intros s.
  apply (order_checked_on_insert (L := machine_16) (zeroed_env true) 10 7 s
           ∅ (mk_options "t" true None None) (header0 (L := machine_16))).
  - discriminate.
  - vm_compute. reflexivity.
Defined.

(** *** The first insertion *)

(** C7 (the code falls short of the claim): the first [insert_value] on an
    empty tree of the configured order points the header at
    [h->header_size], rewrites the header on disk and writes one node right
    behind it, holding the value as its only key, [NO_BLOCK] in every child
    slot and [NO_BLOCK] as parent.  The node's [is_leaf] flag, however, is
    stored as [false], and the dump tool announces it as a node. *)
Theorem first_insert_root_not_leaf {L : Layout} (e : env) (fuel : nat)
    (v : Z) (s : engine) :
  v ≠ 0 →
  root_block (hdr s) = NO_BLOCK →
  tree_order (hdr s) = TREE_ORDER →
  block_size (hdr s) = sizeof_node_t →
  f_eof (opt_iop s) = sizeof_header_t →
  length (key (opt_p s)) = 4%nat →
  length (block (opt_p s)) = 5%nat →
  ∃ s',
    insert_value e fuel v s = (Ret SUCCESS, s') ∧
    hdr s' = with_root_block (header_size (hdr s)) (hdr s) ∧
    f_header (opt_iop s') = Some (hdr s') ∧
    f_nodes (opt_iop s') =
      <[sizeof_header_t := opt_p s']> (f_nodes (opt_iop s)) ∧
    opt_p s' =
      mk_node false 1 (<[0%nat := v]> (key (opt_p s)))
        [NO_BLOCK; NO_BLOCK; NO_BLOCK; NO_BLOCK; NO_BLOCK] NO_BLOCK ∧
    leaf_line (opt_p s') = ">Node." +:+ nl.
Proof.
  intros Hv Hroot Hord Hbs Heof Hk Hb.
  destruct s as [h [fh fn fe fp] [lf ku ks bs par]]. simpl in *.
  destruct ks as [|k0 [|k1 [|k2 [|k3 [|]]]]]; try discriminate Hk.
  destruct bs as [|b0 [|b1 [|b2 [|b3 [|b4 [|]]]]]]; try discriminate Hb.
  apply Z.eqb_neq in Hv. subst fe.
  unfold insert_value. rewrite Hv, bind_run. simpl.
  rewrite Hord, Hroot. simpl.
  repeat (rewrite bind_run; simpl).
  unfold fwrite_node, whole_records. simpl.
  rewrite Hbs, Z.eqb_refl, Z.max_id, Z.eqb_refl, orb_true_r. simpl.
  eexists. split; [reflexivity |]. simpl.
  repeat split.
Qed.

Lemma first_insert_root_not_leaf_witness :
  ∃ s',
    insert_value (L := machine_16) (zeroed_env true) 10 10
      (created (L := machine_16) zeroed_node) = (Ret SUCCESS, s') ∧
    root_block (hdr s') = 10 ∧
    f_nodes (opt_iop s') !! 10 =
      Some (mk_node false 1 [10; 0; 0; 0] [-1; -1; -1; -1; -1] (-1)).
Proof.
  destruct (first_insert_root_not_leaf (L := machine_16) (zeroed_env true)
              10%nat 10 (created (L := machine_16) zeroed_node))
    as (s' & Hrun & Hh & _ & Hn & Hp & _);
    [discriminate | reflexivity | reflexivity | reflexivity | reflexivity
    | reflexivity | reflexivity |].
  exists s'. split; [exact Hrun |]. split.
  - rewrite Hh. reflexivity.
  - rewrite Hn, Hp. reflexivity.
Defined.

(** *** The leaf flag over a whole run of the program *)

Section program_level.
Context {L : Layout}.

Lemma files_ok_close st :
  files_ok st →
  ∀ nm f, (close_tree (disk st) (options st)).1.2 !! nm = Some f → file_ok f.
Proof.
  intros [Hd Ho] nm f. unfold close_tree.
  destruct (iop (options st)) as [g|] eqn:Hg; simpl; [| apply Hd].
  rewrite lookup_insert. case_decide; [| apply Hd].
  intros [= <-]. by apply Ho.
Qed.

Lemma empty_headers_close st :
  (∀ nm f, disk st !! nm = Some f → empty_tree_header f) →
  (∀ f, iop (options st) = Some f → empty_tree_header f) →
  ∀ nm f, (close_tree (disk st) (options st)).1.2 !! nm = Some f →
          empty_tree_header f.
Proof.
  intros Hd Ho nm f. unfold close_tree.
  destruct (iop (options st)) as [g|] eqn:Hg; simpl; [| apply Hd].
  rewrite lookup_insert. case_decide; [| apply Hd].
  intros [= <-]. by apply Ho.
Qed.

Lemma close_tree_options st :
  iop (close_tree (disk st) (options st)).2 = None ∧
  p (close_tree (disk st) (options st)).2 = p (options st).
Proof. unfold close_tree. by destruct (iop (options st)). Qed.

Lemma main_close_ok st :
  program_ok st → program_ok (state_of (main_close st)).
Proof.
  intros [Hf Hb]. unfold main_close.
  pose proof (files_ok_close st Hf) as Hd.
  pose proof (close_tree_options st) as [Hi Hp].
  pose proof (empty_headers_close st) as He.
  destruct (close_tree (disk st) (options st)) as [[c d1] o1]. simpl in *.
  split; [split |]; simpl.
  - exact Hd.
  - rewrite Hi. discriminate.
  - rewrite Hp, Hi. destruct Hb as [Hb | (Hr & H1 & H2)]; [by left | right].
    split; [exact Hr |]. split; [by apply He | discriminate].
Qed.

Lemma main_open_ok exists_ msg r st :
  program_ok st → program_ok (state_of (main_open exists_ msg r st)).
Proof.
  intros [Hf Hb]. unfold main_open.
  pose proof (files_ok_close st Hf) as Hd.
  pose proof (close_tree_options st) as [Hi Hp].
  pose proof (empty_headers_close st) as He.
  destruct (close_tree (disk st) (options st)) as [[c d1] o1]. simpl in *.
  unfold open_tree, reallocate_block. simpl.
  assert ((∃ n, Some (default (fresh_block r) (p o1)) = Some n ∧
                is_leaf n = false) ∨
          (root_block (header st) = NO_BLOCK ∧
           ∀ nm f, d1 !! nm = Some f → empty_tree_header f)) as Hb'.
  { rewrite Hp. destruct Hb as [(n & -> & Hn) | (Hr & H1 & H2)].
    - left. by exists n.
    - right. split; [exact Hr | by apply He]. }
  clear Hb He Hp Hi Hf.
  destruct exists_.
  - destruct (d1 !! typed_name r) as [f|] eqn:Hfile.
    + destruct (f_header f) as [h'|] eqn:Hh; simpl.
      * split; [split |]; simpl; [exact Hd | |].
        { intros f' [= <-]. exact (Hd _ _ Hfile). }
        destruct Hb' as [Hb' | [Hr H1]]; [by left | right].
        split; [exact (H1 _ _ Hfile _ Hh) |]. split; [exact H1 |].
        intros f' [= <-]. exact (H1 _ _ Hfile).
      * split; [split |]; simpl; [exact Hd | |].
        { intros f' [= <-]. exact (Hd _ _ Hfile). }
        destruct Hb' as [Hb' | [Hr H1]]; [by left | right].
        split; [exact Hr |]. split; [exact H1 |].
        intros f' [= <-]. exact (H1 _ _ Hfile).
    + simpl. split; [split |]; simpl; [exact Hd | discriminate |].
      destruct Hb' as [Hb' | [Hr H1]]; [by left | right].
      split; [exact Hr |]. split; [exact H1 | discriminate].
  - simpl. split; [split |]; simpl; [exact Hd | |].
    { intros f' [= <-] off n. simpl. rewrite lookup_empty. discriminate. }
    destruct Hb' as [Hb' | [Hr H1]]; [by left | right].
    split; [exact Hr |]. split; [exact H1 |].
    intros f' [= <-] h [= <-]. exact Hr.
Qed.

Lemma main_insert_ok r st :
  program_ok st →
  files_ok (state_of (main_insert r st)) ∧
  ∀ st' out, main_insert r st = Running st' out → program_ok st'.
Proof.
  intros [[Hd Ho] Hb]. unfold main_insert.
  destruct (iop (options st)) as [f|] eqn:Hf.
  2:{ simpl. split; [split; [exact Hd | by rewrite Hf] |].
      intros st' out [= <- _]. split; [split; [exact Hd | by rewrite Hf] |].
      rewrite Hf. exact Hb. }
  destruct (p (options st)) as [n|] eqn:Hn.
  2:{ simpl. split; [split; [exact Hd | by rewrite Hf] | discriminate]. }
  assert (leaf_flag_inv (mk_engine (header st) f n)) as Hinv.
  { split; [exact (Ho f eq_refl) |]. simpl.
    destruct Hb as [(n' & [= <-] & Hl) | (Hr & _)]; [by right | by left]. }
  destruct (insert_value_leaf_flag (overflow_env r) (loop_fuel r)
              (typed_value r) _ Hinv) as [H1 H2].
  destruct (insert_value _ _ _ _) as [result s]. simpl in *.
  assert (files_ok
    (mk_program
       (mk_options (name (options st)) (file_exists (options st))
          (Some (opt_iop s)) (Some (opt_p s)))
       (hdr s) (typed_value r) (disk st))) as Hfiles.
  { split; simpl; [exact Hd | intros f' [= <-]; exact H1]. }
  destruct result as [[]| |]; simpl; (split; [exact Hfiles |]);
    try discriminate.
  intros st' out [= <- _]. split; [exact Hfiles |]. left. simpl.
  eexists. split; [reflexivity |]. by apply H2.
Qed.

Lemma main_step_ok c r st :
  program_ok st →
  files_ok (state_of (main_step c r st)) ∧
  ∀ st' out, main_step c r st = Running st' out → program_ok st'.
Proof.
  intros Hst.
  assert (∀ o, program_ok (state_of o) →
            files_ok (state_of o) ∧
            ∀ st' out, o = Running st' out → program_ok st') as Hboth.
  { intros o Ho. split; [apply Ho | by intros st' out ->]. }
  destruct c; simpl.
  - by apply Hboth, main_open_ok.
  - by apply Hboth, main_open_ok.
  - by apply Hboth, main_close_ok.
  - by apply main_insert_ok.
  - apply Hboth. unfold main_search.
    destruct (iop (options st)) eqn:Hf; simpl; [| exact Hst].
    destruct Hst as [[Hd Ho] Hb]. split; [split |]; simpl; auto.
  - by apply Hboth, main_close_ok.
  - split; [apply Hst | by intros st' out [= <- _]].
Qed.

Lemma main_loop_ok l : ∀ st printed,
  program_ok st → files_ok (state_of (main_loop l st printed)).
Proof.
  induction l as [|[c r] l IH]; intros st printed Hst; simpl.
  - apply Hst.
  - destruct (main_step_ok c r st Hst) as [Hfiles Hnext].
    destruct (main_step c r st) as [st' out | st' out | st']; simpl in *;
      try exact Hfiles.
    specialize (Hnext _ _ eq_refl).
    destruct c; first [by apply IH | exact Hfiles].
Qed.

Lemma main_init_ok gname gvalue : program_ok (main_init gname gvalue).
Proof.
  split; [split |]; simpl.
  - intros nm f. rewrite lookup_empty. discriminate.
  - discriminate.
  - right. split; [reflexivity |]. split; [| discriminate].
    intros nm f. rewrite lookup_empty. discriminate.
Qed.

End program_level.

(** As long as every transfer is a whole record, no record is flagged as a
    leaf: in a run of the menu that starts with no file on disk, whatever the
    rounds typed and whatever fresh memory holds, every node record of every
    file, closed or still open, has [is_leaf = false] in each state the
    model of the file by records reaches, the state a round stops in
    included; the body of the dump loop prints [>Node.] for such a record.
    [is_leaf] is assigned once, at the creation of the root, and every
    other record written is a buffer that was read from a file or left by
    an earlier insertion. *)
Lemma leaf_flag_never_set {L : Layout} (l : list (choice * round))
    (gname : string) (gvalue : Z) (f : FILE) (off : Z) (n : node_t) :
  let st := state_of (main_loop l (main_init gname gvalue) []) in
  iop (options st) = Some f ∨ (∃ nm, disk st !! nm = Some f) →
  f_nodes f !! off = Some n →
  is_leaf n = false ∧
  leaf_line n = ">Node." +:+ nl ∧
  ∀ out, print_node n = Some out → out !! 1%nat = Some (">Node." +:+ nl).
Proof.
  intros st Hf Hn.
  assert (is_leaf n = false) as Hl.
  { destruct (main_loop_ok l _ [] (main_init_ok gname gvalue)) as [Hd Ho].
    destruct Hf as [Hf | [nm Hf]]; [exact (Ho _ Hf _ _ Hn) |].
    exact (Hd _ _ Hf _ _ Hn). }
  assert (leaf_line n = ">Node." +:+ nl) as Hline.
  { unfold leaf_line. rewrite Hl. reflexivity. }
  split; [exact Hl |]. split; [exact Hline |].
  intros out. unfold print_node.
  destruct (print_keys _ _ _) as [ks|]; [| discriminate]. simpl.
  destruct (print_blocks _ _ _) as [bs|]; [| discriminate]. simpl.
  intros [= <-]. simpl. rewrite Hline. reflexivity.
Qed.

Lemma leaf_flag_never_set_witness :
  let n := mk_node false 1 [40; 20; 30; 40] [-1; -1; -1; -1; -1] 82 in
  is_leaf n = false ∧
  leaf_line n = ">Node." +:+ nl ∧
  ∀ out, print_node n = Some out → out !! 1%nat = Some (">Node." +:+ nl).
Proof.
  apply (leaf_flag_never_set (L := machine_16)
           [(CREATE, typed 0 true); (INSERT, typed 10 true);
            (INSERT, typed 20 true); (INSERT, typed 30 true);
            (INSERT, typed 40 true); (CLOSE, typed 0 true)]
           EmptyString 0
           (mk_file (Some (mk_header 10 36 4 10))
              (list_to_map
                 [(10, mk_node false 1 [30; 20; 30; 40]
                         [46; 82; -1; -1; -1] (-1));
                  (46, mk_node false 2 [10; 20; 30; 40]
                         [-1; -1; -1; -1; -1] 46);
                  (82, mk_node false 1 [40; 20; 30; 40]
                         [-1; -1; -1; -1; -1] 82)])
              118 46)
           82).
  - right. exists "t". vm_compute. reflexivity.
  - vm_compute. reflexivity.
Defined.

(** *** Transfers that start inside a record *)

Lemma of_le_2 (x : Z) :
  0 ≤ x < 65536 → of_le [x mod 256; x / 256 mod 256] = x.
Proof.
  intros Hx. simpl.
  rewrite (Z.mod_small (x / 256)) by (split; [apply Z.div_pos; lia |
    apply Z.div_lt_upper_bound; lia]).
  pose proof (Z.div_mod x 256 ltac:(lia)). lia.
Qed.

Lemma of_le_signed_4 (x : Z) :
  -2147483648 ≤ x < 2147483648 →
  of_le_signed [x mod 256; x / 256 mod 256; x / 256 / 256 mod 256;
                x / 256 / 256 / 256 mod 256] = x.
Proof.
  intros Hx. unfold of_le_signed. simpl length.
  change (256 ^ Z.of_nat 4) with 4294967296.
  change (4294967296 / 2) with 2147483648.
  assert (of_le [x mod 256; x / 256 mod 256; x / 256 / 256 mod 256;
                 x / 256 / 256 / 256 mod 256] = x mod 4294967296) as ->.
  { simpl.
    pose proof (Z.div_mod x 256 ltac:(lia)).
    pose proof (Z.div_mod (x / 256) 256 ltac:(lia)).
    pose proof (Z.div_mod (x / 256 / 256) 256 ltac:(lia)).
    pose proof (Z.div_mod (x / 256 / 256 / 256) 256 ltac:(lia)).
    pose proof (Z.mod_pos_bound x 256 ltac:(lia)).
    pose proof (Z.mod_pos_bound (x / 256) 256 ltac:(lia)).
    pose proof (Z.mod_pos_bound (x / 256 / 256) 256 ltac:(lia)).
    pose proof (Z.mod_pos_bound (x / 256 / 256 / 256) 256 ltac:(lia)).
    apply (Z.mod_unique x 4294967296 (x / 256 / 256 / 256 / 256)); lia. }
  destruct (Z.leb_spec 2147483648 (x mod 4294967296)) as [Hhi | Hlo].
  - destruct (Z.lt_ge_cases x 0) as [Hneg | Hpos].
    + rewrite <- (Z.mod_unique x 4294967296 (-1) (x + 4294967296)); lia.
    + rewrite Z.mod_small in Hhi by lia. lia.
  - destruct (Z.lt_ge_cases x 0) as [Hneg | Hpos].
    + rewrite <- (Z.mod_unique x 4294967296 (-1) (x + 4294967296)) in Hlo;
        lia.
    + apply Z.mod_small. lia.
Qed.

(** A node buffer whose fields are in the range of their types takes 36
    bytes and is recovered from them. *)
Lemma node_image_read_back (n : node_t) :
  length (key n) = 4%nat → length (block n) = 5%nat →
  0 ≤ keys_used n < 65536 →
  Forall (λ k, 0 ≤ k < 65536) (key n) →
  Forall (λ b, -2147483648 ≤ b < 2147483648) (block n) →
  -2147483648 ≤ parent_block n < 2147483648 →
  length (node_image (Z.b2z (is_leaf n)) n) = 36%nat ∧
  node_of_image (node_image (Z.b2z (is_leaf n)) n) =
    (Z.b2z (is_leaf n), n).
Proof.
  destruct n as [leaf ku ks bs pb]. simpl.
  intros Hk Hb Hku Hks Hbs Hpb.
  destruct ks as [|k0 [|k1 [|k2 [|k3 [|]]]]]; try discriminate.
  destruct bs as [|b0 [|b1 [|b2 [|b3 [|b4 [|]]]]]]; try discriminate.
  split; [reflexivity |].
  repeat match goal with
         | H : Forall _ (_ :: _) |- _ =>
             apply Forall_cons in H as [? H]
         end.
  unfold node_of_image, node_image.
  cbn [le_bytes concat fmap list_fmap app take drop
       is_leaf keys_used key block parent_block].
  rewrite !of_le_2 by first [assumption | destruct leaf; simpl; lia].
  rewrite !of_le_signed_4 by assumption.
  by destruct leaf.
Qed.

(** The file [stray_session] leaves: four records, none flagged as a leaf;
    the record at 118 was filled from the stack of [node_overflow] and lists
    114 as its second child.  The bytes of the file hold these records. *)
Lemma stray_session_file :
  let s7 := insert_all (L := machine_16) 10 stray_session
              (created (L := machine_16) zeroed_node) in
  s7 =
    (Ret SUCCESS,
     mk_engine (mk_header 10 36 4 10)
       (mk_file (Some (mk_header 10 36 4 10))
          (list_to_map
             [(10, mk_node false 1 [30; 20; 30; 40] [46; 82; -1; -1; -1] (-1));
              (46, mk_node false 2 [10; 20; 30; 40] [-1; -1; -1; -1; -1] 46);
              (82, mk_node false 3 [3; 5; 6; 40] [-1; 118; -1; -1; -1] 82);
              (118, mk_node false 1 [2000; 6; 7; 40] [-1; 114; -1; -1; -1]
                      82)])
          154 118)
       (mk_node false 3 [3; 5; 6; 40] [-1; 118; -1; -1; -1] 82)) ∧
  length (file_image (opt_iop s7.2)) = 154%nat ∧
  ∀ off, off = 10 ∨ off = 46 ∨ off = 82 ∨ off = 118 →
    Some (record_at off (file_image (opt_iop s7.2))) =
      (λ n, (0, n)) <$> f_nodes (opt_iop s7.2) !! off.
Proof.
  split; [vm_compute; reflexivity |]. split; [vm_compute; reflexivity |].
  intros off [-> | [-> | [-> | ->]]]; vm_compute; reflexivity.
Qed.

(** Where every transfer is a whole record, the rounds on the bytes are the
    rounds on the records: inserting 50 into the root, and meeting 3 in the
    node at 82, after [stray_session]. *)
Lemma whole_record_rounds_agree (v : Z) :
  v = 50 ∨ v = 3 →
  let s7 := (insert_all (L := machine_16) 10 stray_session
               (created (L := machine_16) zeroed_node)).2 in
  let r := insert_value (L := machine_16) (zeroed_env true) 10 v s7 in
  r.1 = Ret SUCCESS ∧
  ∃ e, raw_insert_rooted (hdr s7) 10 v (raw_of s7) = Some (e, raw_of r.2).
Proof.
  intros [-> | ->]; (split; [vm_compute; reflexivity |]).
  - exists Inserted. vm_compute. reflexivity.
  - exists Met. vm_compute. reflexivity.
Qed.

(** C10 (the code falls short of the claim): the session 10, 20, 30, 40, 5,
    6, 7 on the 16-bit machine, where the stack of the call of
    [node_overflow] for 7 holds 114 in the second slot of [temp_block].  The
    branch for a node with a parent copies that slot into the record it
    appends at 118, as its second child.  The descent for 1 then goes from
    the root to 82, to 118 and on to offset 114, four bytes before the
    record at 118: the transfer is no whole record, and the model of the
    file by records stops there.  On the bytes the round goes on: it reads
    36 bytes from 114, finds no key in use and no child in the second slot,
    stores 1 as first key, which lies on the [is_leaf] field of the record
    at 118, and writes the 36 bytes back.  [insert_value] returns, and the
    record at 118 is flagged as a leaf: for it the body of the dump loop
    prints [>Leaf.]. *)
Theorem stray_child_sets_leaf_flag :
  let s7 := (insert_all (L := machine_16) 10 stray_session
               (created (L := machine_16) zeroed_node)).2 in
  let r := insert_value (L := machine_16) (zeroed_env true) 10 1 s7 in
  f_nodes (opt_iop s7) !! 118 =
    Some (mk_node false 1 [2000; 6; 7; 40] [-1; 114; -1; -1; -1] 82) ∧
  record_at 118 (file_image (opt_iop s7)) =
    (0, mk_node false 1 [2000; 6; 7; 40] [-1; 114; -1; -1; -1] 82) ∧
  r.1 = Undefined ∧ f_pos (opt_iop r.2) = 114 ∧
  f_nodes (opt_iop r.2) !! 114 = None ∧
  ∃ r',
    raw_insert_rooted (hdr s7) 10 1 (raw_of s7) = Some (Inserted, r') ∧
    length (raw_bytes r') = 154%nat ∧
    raw_pos r' = 150 ∧
    record_at 118 (raw_bytes r') =
      (1, mk_node true 1 [2000; 6; 7; 40] [-1; 114; -1; -1; -1] 82) ∧
    leaf_line (record_at 118 (raw_bytes r')).2 = ">Leaf." +:+ nl ∧
    ∃ out, print_node (record_at 118 (raw_bytes r')).2 = Some out ∧
           out !! 1%nat = Some (">Leaf." +:+ nl).
Proof.
  split; [vm_compute; reflexivity |]. split; [vm_compute; reflexivity |].
  split; [vm_compute; reflexivity |]. split; [vm_compute; reflexivity |].
  split; [vm_compute; reflexivity |].
  eexists. split; [vm_compute; reflexivity |].
  split; [vm_compute; reflexivity |]. split; [reflexivity |].
  split; [vm_compute; reflexivity |]. split; [vm_compute; reflexivity |].
  eexists. split; vm_compute; reflexivity.
Qed.

(** *** A key the descent meets is left alone *)

Lemma run_pair {A} (m : M A) (s : engine) : m s = ((m s).1, (m s).2).
Proof. destruct (m s); reflexivity. Qed.

Lemma reads_only_ret {A} (a : A) : reads_only (mret a : M A).
Proof. intros s. reflexivity. Qed.

Lemma reads_only_bind {A B} (m : M A) (f : A → M B) :
  reads_only m → (∀ a, reads_only (f a)) → reads_only (m ≫= f).
Proof.
  intros Hm Hf s. rewrite bind_run. specialize (Hm s).
  destruct (m s) as [[a| |] s']; simpl in *; subst; auto. apply Hf.
Qed.

Lemma reads_only_gets {A} (g : engine → A) : reads_only (gets g).
Proof. intros s. reflexivity. Qed.

Lemma reads_only_lift_opt {A} (o : option A) : reads_only (lift_opt o).
Proof. destruct o; intros s; reflexivity. Qed.

Lemma reads_only_p_key i : reads_only (p_key i).
Proof.
  apply reads_only_bind;
    [apply reads_only_gets | intros; apply reads_only_lift_opt].
Qed.

Lemma reads_only_scan strict value : ∀ n new_pos,
  reads_only (scan strict n value new_pos).
Proof.
  induction n as [|n IH]; intros new_pos; simpl.
  - apply reads_only_ret.
  - apply reads_only_bind; [apply reads_only_p_key | intros k].
    destruct (if strict then value <? k else value <=? k);
      [apply reads_only_ret | apply IH].
Qed.

Lemma reads_only_find_pos strict value : reads_only (find_pos strict value).
Proof.
  apply reads_only_bind;
    [apply reads_only_gets | intros; apply reads_only_scan].
Qed.

Lemma p_key_run i s :
  p_key i s = (match arr_get (key (opt_p s)) i with
               | Some k => Ret k | None => Undefined end, s).
Proof. unfold p_key. rewrite bind_run. simpl. by destruct (arr_get _ _). Qed.

Lemma p_block_run i s :
  p_block i s = (match arr_get (block (opt_p s)) i with
                 | Some b => Ret b | None => Undefined end, s).
Proof. unfold p_block. rewrite bind_run. simpl. by destruct (arr_get _ _). Qed.

Lemma fseek_run off w s :
  ∃ c, fseek off w s = (Ret c, (fseek off w s).2) ∧
       file_of (fseek off w s).2 = file_of s.
Proof.
  unfold fseek. destruct (_ <? 0); eexists; split; reflexivity.
Qed.

Section found_key.
Context {L : Layout}.

Lemma fread_node_file s c s1 :
  fread_node s = (Ret c, s1) → file_of s1 = file_of s.
Proof.
  unfold fread_node. destruct (negb (whole_records s)); [discriminate |].
  destruct (f_nodes (opt_iop s) !! f_pos (opt_iop s)).
  - by intros [= _ <-].
  - destruct (_ <=? _); [by intros [= _ <-] | discriminate].
Qed.

(** The round that finds the key ends the loop with the buffer loaded and
    nothing written. *)
Lemma descend_step_here e fuel value s c s1 new_pos :
  fread_node s = (Ret c, s1) →
  (find_pos false value s1).1 = Ret new_pos →
  arr_get (key (opt_p s1)) new_pos = Some value →
  descend_step e fuel value s = (Ret true, s1).
Proof.
  intros Hread Hpos Hkey. unfold descend_step. rewrite bind_run. simpl.
  rewrite bind_run, Hread, bind_run.
  rewrite (run_pair (find_pos _ _)), Hpos, reads_only_find_pos.
  rewrite bind_run, p_key_run, Hkey, Z.eqb_refl. reflexivity.
Qed.

(** The round that passes through a node only moves the stream, and it
    moves it to [block[new_pos+1]]. *)
Lemma descend_step_below e fuel value s c s1 new_pos k b :
  fread_node s = (Ret c, s1) →
  (find_pos false value s1).1 = Ret new_pos →
  arr_get (key (opt_p s1)) new_pos = Some k →
  k ≠ value →
  arr_get (block (opt_p s1)) (word (new_pos + 1)) = Some b →
  b ≠ NO_BLOCK →
  descend_step e fuel value s = (Ret false, (fseek b SEEK_SET s1).2).
Proof.
  intros Hread Hpos Hkey Hne Hblock Hb. unfold descend_step.
  rewrite bind_run. simpl.
  rewrite bind_run, Hread, bind_run.
  rewrite (run_pair (find_pos _ _)), Hpos, reads_only_find_pos.
  rewrite bind_run, p_key_run, Hkey.
  replace (value =? k) with false by (symmetry; apply Z.eqb_neq; congruence).
  rewrite bind_run, p_block_run, Hblock.
  replace (b =? NO_BLOCK) with false by (symmetry; by apply Z.eqb_neq).
  rewrite bind_run.
  destruct (fseek_run b SEEK_SET s1) as (c' & Hseek & _).
  rewrite Hseek. reflexivity.
Qed.

Lemma descend_finds_key e fuel value : ∀ d s,
  finds_key value d s → ∀ n, (d ≤ n)%nat →
  ∃ s', descend e fuel n value s = (Ret tt, s') ∧ file_of s' = file_of s.
Proof.
  intros d s Hfind.
  induction Hfind as [s c s1 new_pos Hread Hpos Hkey
                     | s c s1 new_pos k b d Hread Hpos Hkey Hne Hblock Hb
                         Hfind IH];
    intros [|n] Hn; try lia; simpl; rewrite bind_run.
  - rewrite (descend_step_here _ _ _ _ _ _ _ Hread Hpos Hkey).
    eexists. split; [reflexivity |]. exact (fread_node_file _ _ _ Hread).
  - rewrite (descend_step_below _ _ _ _ _ _ _ _ _
               Hread Hpos Hkey Hne Hblock Hb).
    destruct (IH n ltac:(lia)) as (s' & Hrun & Hfile).
    exists s'. split; [exact Hrun |]. rewrite Hfile.
    destruct (fseek_run b SEEK_SET s1) as (_ & _ & ->).
    exact (fread_node_file _ _ _ Hread).
Qed.

End found_key.

(** The branch "value exists": when the descent of [insert_value] meets a
    node whose slot at the index the scan stops at holds the value, the call
    returns [SUCCESS], the status of every completed insertion, and writes
    nothing: the header and every node record of the file are what they
    were. *)
Lemma found_key_is_not_rewritten {L : Layout} (e : env) (fuel d : nat)
    (value : Z) (s : engine) :
  value ≠ 0 →
  tree_order (hdr s) ≤ TREE_ORDER →
  root_block (hdr s) ≠ NO_BLOCK →
  finds_key value d (fseek (root_block (hdr s)) SEEK_SET s).2 →
  (d ≤ fuel)%nat →
  ∃ s', insert_value e fuel value s = (Ret SUCCESS, s') ∧
        file_of s' = file_of s.
Proof.
  intros Hv Hord Hroot Hfind Hd. unfold insert_value.
  replace (value =? 0) with false by (symmetry; by apply Z.eqb_neq).
  rewrite bind_run. simpl.
  replace (tree_order (hdr s) >? TREE_ORDER) with false
    by (symmetry; rewrite Z.gtb_ltb; apply Z.ltb_ge; exact Hord).
  replace (root_block (hdr s) =? NO_BLOCK) with false
    by (symmetry; by apply Z.eqb_neq).
  destruct (fseek_run (root_block (hdr s)) SEEK_SET s) as (c & Hseek & Hfile).
  destruct (descend_finds_key e fuel value d _ Hfind fuel Hd)
    as (s' & Hrun & Hfile').
  rewrite bind_run, Hseek, bind_run, Hrun.
  exists s'. split; [reflexivity |]. by rewrite Hfile', Hfile.
Qed.

Lemma found_key_is_not_rewritten_witness :
  let s5 := (session16 [(10, true); (20, true); (30, true); (40, true);
                        (5, true)]).2 in
  ∃ s', insert_value (L := machine_16) (zeroed_env true) 10 5 s5 =
          (Ret SUCCESS, s') ∧
        file_of s' = file_of s5.
Proof.
  intros s5.
  apply (found_key_is_not_rewritten (L := machine_16) (zeroed_env true)
           10 2 5 s5).
  - discriminate.
  - vm_compute. discriminate.
  - vm_compute. discriminate.
  - eapply (finds_below 5 _ 1 _ 0 30 82);
      [vm_compute; reflexivity | vm_compute; reflexivity
      | vm_compute; reflexivity | discriminate
      | vm_compute; reflexivity | discriminate |].
    eapply (finds_here 5 _ 1 _ 0); vm_compute; reflexivity.
  - lia.
Defined.

(** *** Where the descent goes on *)

(** The scan stops at the first key that is not below the value. *)
Lemma scan_first (value : Z) (s : engine) (i k : Z) : ∀ n i0,
  0 ≤ i0 ≤ i → i < i0 + Z.of_nat n → i ≤ WORD_T_MAX →
  (∀ j, i0 ≤ j < i →
        ∃ kj, arr_get (key (opt_p s)) j = Some kj ∧ kj < value) →
  arr_get (key (opt_p s)) i = Some k → value ≤ k →
  scan false n value i0 s = (Ret i, s).
Proof.
  induction n as [|n IH]; intros i0 Hi0 Hn Hmax Hbelow Hk Hle; [lia |].
  simpl. rewrite bind_run, p_key_run.
  destruct (decide (i0 = i)) as [-> | Hne].
  - rewrite Hk. by replace (value <=? k) with true
      by (symmetry; by apply Z.leb_le).
  - destruct (Hbelow i0 ltac:(lia)) as (kj & -> & Hlt).
    replace (value <=? kj) with false by (symmetry; apply Z.leb_gt; lia).
    replace (word (i0 + 1)) with (i0 + 1)
      by (unfold word, WORD_T_MAX in *; rewrite Z.mod_small; lia).
    apply IH; try lia; [| exact Hk].
    intros j Hj. apply Hbelow. lia.
Qed.

(** C3 (the code falls short of the claim): let [i] be the smallest index
    of the node just read whose key is not below the value, and let that
    key be above the value.  When [block[i+1]] is a block reference the
    round ends with the stream at [block[i+1]]: the descent goes on into the
    child to the right of the key, not into [children[i]], and it writes
    nothing on the way. *)
Theorem descent_follows_next_block {L : Layout} (e : env) (fuel : nat)
    (value : Z) (s s1 : engine) (c i k b : Z) :
  fread_node s = (Ret c, s1) →
  0 ≤ i < keys_used (opt_p s1) →
  i < WORD_T_MAX →
  (∀ j, 0 ≤ j < i →
        ∃ kj, arr_get (key (opt_p s1)) j = Some kj ∧ kj < value) →
  arr_get (key (opt_p s1)) i = Some k →
  value < k →
  arr_get (block (opt_p s1)) (i + 1) = Some b →
  b ≠ NO_BLOCK →
  0 ≤ b →
  ∃ s', descend_step e fuel value s = (Ret false, s') ∧
        f_pos (opt_iop s') = b ∧
        opt_p s' = opt_p s1 ∧
        file_of s' = file_of s.
Proof.
  intros Hread Hi Hmax Hbelow Hk Hlt Hb Hnb Hpos.
  assert (word (i + 1) = i + 1) as Hword
    by (unfold word, WORD_T_MAX in *; rewrite Z.mod_small; lia).
  assert ((find_pos false value s1).1 = Ret i) as Hfind.
  { unfold find_pos. rewrite bind_run. simpl.
    rewrite (scan_first value s1 i k); try lia; auto. }
  rewrite <- Hword in Hb.
  rewrite (descend_step_below e fuel value s c s1 i k b
             Hread Hfind Hk ltac:(lia) Hb Hnb).
  eexists. split; [reflexivity |].
  unfold fseek. simpl.
  replace (b <? 0) with false by (symmetry; by apply Z.ltb_ge).
  simpl. split; [reflexivity |]. split; [reflexivity |].
  exact (fread_node_file _ _ _ Hread).
Qed.

Lemma descent_follows_next_block_witness :
  let s4 := (session16 [(10, true); (20, true); (30, true); (40, true)]).2 in
  let at_root := (fseek (root_block (hdr s4)) SEEK_SET s4).2 in
  ∃ s', descend_step (L := machine_16) (zeroed_env true) 10 10 at_root =
          (Ret false, s') ∧
        f_pos (opt_iop s') = 82 ∧
        opt_p s' =
          mk_node false 1 [30; 20; 30; 40] [46; 82; -1; -1; -1] (-1) ∧
        file_of s' = file_of at_root.
Proof.
  intros s4 at_root.
  apply (descent_follows_next_block (L := machine_16) (zeroed_env true)
           10 10 at_root
           (mk_engine (hdr s4) (rewind 46 (opt_iop s4))
              (mk_node false 1 [30; 20; 30; 40] [46; 82; -1; -1; -1] (-1)))
           1 0 30 82).
  - vm_compute. reflexivity.
  - simpl. lia.
  - reflexivity.
  - intros j Hj. lia.
  - reflexivity.
  - reflexivity.
  - reflexivity.
  - discriminate.
  - discriminate.
Defined.

(** *** Worked sessions on the 16-bit machine *)

(** The first root split, for either outcome of [rand]: two blocks are
    appended at 46 and 82, the root at 10 keeps its place with one key and
    the two new blocks as children.  Each son carries its own offset as
    parent, because the retagging loop finds no child to load and rewrites
    the buffer it still holds. *)
Lemma first_root_split (hi : bool) :
  session16 [(10, true); (20, true); (30, true); (40, hi)] =
  (Ret SUCCESS,
   let root :=
     mk_node false 1 [if hi then 30 else 20; 20; 30; 40]
       [46; 82; -1; -1; -1] (-1) in
   mk_engine (mk_header 10 36 4 10)
     (mk_file (Some (mk_header 10 36 4 10))
        (list_to_map
           [(10, root);
            (46, mk_node false (if hi then 2 else 1) [10; 20; 30; 40]
                   [-1; -1; -1; -1; -1] 46);
            (82, mk_node false (if hi then 1 else 2)
                   (if hi then [40; 20; 30; 40] else [30; 40; 30; 40])
                   [-1; -1; -1; -1; -1] 82)])
        118 46)
     root).
Proof. destruct hi; vm_compute; reflexivity. Qed.

(** C2 (the code falls short of the claim): after 10, 20, 30, 40 the root
    at 10 holds the key 30 and has the sons 46 and 82, and the value 10 is a
    key of the left son at 46.  Inserting 10 again does not reach that son:
    the descent follows [block[new_pos+1]] into the right son at 82, does
    not find 10 there, and rewrites that record with 10 among its keys.  The
    call returns [SUCCESS], as every completed insertion does, and the file
    is not what it was. *)
Theorem insert_again_rewrites_a_node :
  let s4 := (session16 [(10, true); (20, true); (30, true); (40, true)]).2 in
  let r := insert_value (L := machine_16) (zeroed_env true) 10 10 s4 in
  root_block (hdr s4) = 10 ∧
  (used_keys <$> f_nodes (opt_iop s4) !! 10) = Some [30] ∧
  (used_blocks <$> f_nodes (opt_iop s4) !! 10) = Some [46; 82] ∧
  (used_keys <$> f_nodes (opt_iop s4) !! 46) = Some [10; 20] ∧
  (used_keys <$> f_nodes (opt_iop s4) !! 82) = Some [40] ∧
  r.1 = Ret SUCCESS ∧
  (used_keys <$> f_nodes (opt_iop r.2) !! 46) = Some [10; 20] ∧
  (used_keys <$> f_nodes (opt_iop r.2) !! 82) = Some [10; 40] ∧
  file_of r.2 ≠ file_of s4.
Proof. vm_compute. repeat split. discriminate. Qed.

(** C4 (the code falls short of the claim): after 10, 20, 30, 40, 5, 6, 7
    the node at 82 has the block at 118 as a child.  Inserting 1 splits it
    again, by the branch for nodes with a parent; the new right-hand node is
    appended at 154 and lists 118 among its children, yet the record at 118
    still names 82 as its parent. *)
Theorem inner_split_keeps_old_parent :
  let l := [(10, true); (20, true); (30, true); (40, true);
            (5, true); (6, true); (7, true)] in
  let s7 := (session16 l).2 in
  let r := session16 (l ++ [(1, false)]) in
  f_nodes (opt_iop s7) !! 82 =
    Some (mk_node false 3 [0; 5; 6; 40] [-1; 118; -1; -1; -1] 82) ∧
  f_eof (opt_iop s7) = 154 ∧
  r.1 = Ret SUCCESS ∧
  f_nodes (opt_iop r.2) !! 154 =
    Some (mk_node false 2 [1; 5; 5; 6] [0; 118; -1; -1; -1] 82) ∧
  (used_blocks <$> f_nodes (opt_iop r.2) !! 154) = Some [0; 118; -1] ∧
  f_nodes (opt_iop r.2) !! 118 =
    Some (mk_node false 1 [0; 6; 7; 40] [0; 0; -1; -1; -1] 82) ∧
  f_nodes (opt_iop r.2) !! 82 =
    Some (mk_node false 2 [0; 0; 5; 6] [-1; 118; 154; -1; -1] 82).
Proof. vm_compute. repeat split. Qed.

(** C5 (the code falls short of the claim): after 10, 20, 30, 40, 5, 6 the
    node at 82 holds 5, 6, 40, and inserting 7 makes it overflow with the
    keys 5, 6, 7, 40.  The branch for nodes with a parent keeps 5, 6 or 5 on
    the left, appends a right-hand node at 118 whose keys are read from
    [temp_key[1..]], and promotes [temp_key[0]], which it never assigned:
    here the 0 found on the stack.  The key 40 is in neither half and is not
    promoted. *)
Theorem inner_split_loses_keys (hi : bool) :
  let l := [(10, true); (20, true); (30, true); (40, true);
            (5, true); (6, true)] in
  let s6 := (session16 l).2 in
  let r := session16 (l ++ [(7, hi)]) in
  (used_keys <$> f_nodes (opt_iop s6) !! 82) = Some [5; 6; 40] ∧
  r.1 = Ret SUCCESS ∧
  (used_keys <$> f_nodes (opt_iop r.2) !! 82) =
    Some (if hi then [0; 5; 6] else [0; 5]) ∧
  (used_keys <$> f_nodes (opt_iop r.2) !! 118) =
    Some (if hi then [0] else [6; 7]) ∧
  (used_keys <$> f_nodes (opt_iop r.2) !! 10) = Some [30] ∧
  (used_keys <$> f_nodes (opt_iop r.2) !! 46) = Some [10; 20] ∧
  dom (f_nodes (opt_iop r.2)) = {[10; 46; 82; 118]}.
Proof. destruct hi; vm_compute; repeat split. Qed.

(** C6 (the code falls short of the claim): after 10, 20, 30, 40, 50, 60 the
    root at 10 holds 30, 50, 60 above the sons at 46 and 82, and the file
    ends at 118.  Inserting 70 splits the root a second time.  The left son
    is appended at 118, the retagging loop then loads the old sons into the
    buffer and leaves the stream at 118, and the right son is written over
    the left one: the file grows by one block only, both children of the
    root are 118, and the keys 30 and 50 are in no node. *)
Theorem second_root_split_appends_one_block :
  let l := [(10, true); (20, true); (30, true); (40, true);
            (50, true); (60, true)] in
  let s6 := (session16 l).2 in
  let r := session16 (l ++ [(70, true)]) in
  f_nodes (opt_iop s6) !! 10 =
    Some (mk_node false 3 [30; 50; 60; 40] [46; 82; -1; -1; -1] (-1)) ∧
  f_eof (opt_iop s6) = 118 ∧
  r.1 = Ret SUCCESS ∧
  f_eof (opt_iop r.2) = 154 ∧
  root_block (hdr r.2) = 10 ∧
  f_nodes (opt_iop r.2) !! 10 =
    Some (mk_node false 1 [60; 50; 60; 70] [118; 118; -1; -1; -1] (-1)) ∧
  f_nodes (opt_iop r.2) !! 118 =
    Some (mk_node false 1 [70; 20; 30; 40] [-1; -1; -1; -1; -1] 118) ∧
  (used_keys <$> f_nodes (opt_iop r.2) !! 46) = Some [10; 20] ∧
  (used_keys <$> f_nodes (opt_iop r.2) !! 82) = Some [40] ∧
  dom (f_nodes (opt_iop r.2)) = {[10; 46; 82; 118]}.
Proof. vm_compute. repeat split. Qed.

(** * Further properties of the code *)

(** ** Invariants of the file alone *)

Section file_invariant.
Context {L : Layout} (I : engine → Prop).
Hypothesis I_file : ∀ s s', file_of s' = file_of s → I s → I s'.
Hypothesis I_write : keeps I fwrite_node.

Lemma fkeeps_modify_p (f : node_t → node_t) : keeps I (modify (with_p f)).
Proof. intros s. by apply I_file. Qed.

Lemma fkeeps_fseek off w : keeps I (fseek off w).
Proof.
  intros s. unfold fseek. destruct (_ <? 0); simpl; [done |].
  by apply I_file.
Qed.

Lemma fkeeps_fread_node : keeps I fread_node.
Proof.
  intros s. unfold fread_node. destruct (negb (whole_records s)); [done |].
  destruct (f_nodes (opt_iop s) !! f_pos (opt_iop s)); simpl.
  - by apply I_file.
  - by destruct (_ <=? _).
Qed.

Lemma fkeeps_p_key i : keeps I (p_key i).
Proof.
  apply keeps_bind; [apply keeps_gets | intros; apply keeps_lift_opt].
Qed.

Lemma fkeeps_p_block i : keeps I (p_block i).
Proof.
  apply keeps_bind; [apply keeps_gets | intros; apply keeps_lift_opt].
Qed.

Lemma fkeeps_set_p_key i v : keeps I (set_p_key i v).
Proof.
  apply keeps_bind; [apply keeps_gets | intros a].
  apply keeps_bind; [apply keeps_lift_opt | intros a'].
  apply fkeeps_modify_p.
Qed.

Lemma fkeeps_set_p_block i v : keeps I (set_p_block i v).
Proof.
  apply keeps_bind; [apply keeps_gets | intros a].
  apply keeps_bind; [apply keeps_lift_opt | intros a'].
  apply fkeeps_modify_p.
Qed.

Lemma fkeeps_scan strict value : ∀ n new_pos,
  keeps I (scan strict n value new_pos).
Proof.
  induction n as [|n IH]; intros new_pos; simpl.
  - apply keeps_ret.
  - apply keeps_bind; [apply fkeeps_p_key | intros k].
    apply keeps_if; [apply keeps_ret | apply IH].
Qed.

Lemma fkeeps_find_pos strict value : keeps I (find_pos strict value).
Proof.
  apply keeps_bind; [apply keeps_gets | intros; apply fkeeps_scan].
Qed.

Ltac fkeeps_step :=
  match goal with
  | |- keeps _ (_ ≫= _) => apply keeps_bind; [| intros ?]
  | |- keeps _ (if _ then _ else _) => apply keeps_if
  | |- keeps _ (for_lt _ _ _ _) => apply keeps_for_up; intros ? ?
  | |- keeps _ (for_le _ _ _ _) => apply keeps_for_up; intros ? ?
  | |- keeps _ (for_down _ _ _) => apply keeps_for_down_n; intros ?
  | |- keeps _ (on_p _ _ _) => unfold on_p
  | |- keeps _ _ =>
      first [ apply keeps_ret | apply keeps_gets | apply keeps_lift_opt
            | apply keeps_out_of_fuel | apply keeps_undefined
            | apply fkeeps_modify_p | apply fkeeps_fseek
            | apply fkeeps_fread_node | apply I_write
            | apply fkeeps_p_key | apply fkeeps_p_block
            | apply fkeeps_set_p_key | apply fkeeps_set_p_block
            | apply fkeeps_find_pos | assumption ]
  end.

Lemma fkeeps_shift_insert new_pos k b : keeps I (shift_insert new_pos k b).
Proof. unfold shift_insert. repeat fkeeps_step. Qed.

Lemma fkeeps_retag par_block : ∀ fuel index,
  keeps I (retag fuel index par_block).
Proof.
  induction fuel as [|fuel IH]; intros index; simpl.
  - apply keeps_out_of_fuel.
  - unfold ftell. repeat fkeeps_step; apply IH.
Qed.

Lemma fkeeps_split_root fuel lk rk tk tb :
  keeps I (split_root fuel lk rk tk tb).
Proof.
  unfold split_root, ftell. repeat fkeeps_step; apply fkeeps_retag.
Qed.

Lemma fkeeps_split_inner lk rk tk tb : keeps I (split_inner lk rk tk tb).
Proof.
  unfold split_inner, ftell. repeat fkeeps_step; apply fkeeps_shift_insert.
Qed.

Lemma fkeeps_overflow_loop fuel lk rk : ∀ n tk tb,
  keeps I (overflow_loop fuel n lk rk tk tb).
Proof.
  induction n as [|n IH]; intros tk tb; simpl.
  - apply keeps_out_of_fuel.
  - repeat fkeeps_step;
      first [apply fkeeps_split_root | apply fkeeps_split_inner | apply IH].
Qed.

Lemma fkeeps_node_overflow e fuel : keeps I (node_overflow e fuel).
Proof.
  unfold node_overflow. repeat fkeeps_step; apply fkeeps_overflow_loop.
Qed.

Lemma fkeeps_descend_step e fuel value :
  keeps I (descend_step e fuel value).
Proof.
  unfold descend_step. repeat fkeeps_step;
    first [apply fkeeps_shift_insert | apply fkeeps_node_overflow].
Qed.

Lemma fkeeps_descend e fuel value : ∀ n, keeps I (descend e fuel n value).
Proof.
  induction n as [|n IH]; simpl.
  - apply keeps_out_of_fuel.
  - repeat fkeeps_step; first [apply fkeeps_descend_step | apply IH].
Qed.

(** The insertion into a tree that has a root. *)
Lemma fkeeps_insert_rooted e fuel value s :
  root_block (hdr s) ≠ NO_BLOCK → I s → I (insert_value e fuel value s).2.
Proof.
  intros Hroot Hs. unfold insert_value.
  destruct (value =? 0); [exact Hs |].
  rewrite bind_run. simpl.
  destruct (tree_order (hdr s) >? TREE_ORDER); [exact Hs |].
  replace (root_block (hdr s) =? NO_BLOCK) with false
    by (symmetry; by apply Z.eqb_neq).
  assert (keeps I
    (fseek (root_block (hdr s)) SEEK_SET;;
     descend e fuel fuel value;; mret SUCCESS)) as Hk.
  { repeat fkeeps_step; apply fkeeps_descend. }
  exact (Hk s Hs).
Qed.

(** The stores that initialise the first root and write it. *)
Lemma fkeeps_root_init value order :
  keeps I
    (set_p_key 0 value;;
     modify (with_p (with_keys_used 1));;
     modify (with_p (with_parent_block NO_BLOCK));;
     modify (with_p (with_is_leaf false));;
     for_le 0 order (on_p (λ index, set_p_block index NO_BLOCK)) tt;;
     c ← fwrite_node;
     if negb (c =? 1) then mret E_WRITE_FILE else mret SUCCESS).
Proof. repeat fkeeps_step. Qed.

(** The whole of [insert_value], for an invariant that also survives the
    rewriting of the header when the first root is made. *)
Lemma fkeeps_insert_value e fuel value :
  (∀ s, I s → I (header_rewritten s)) →
  keeps I (insert_value e fuel value).
Proof.
  intros I_header s Hs.
  destruct (decide (root_block (hdr s) = NO_BLOCK)) as [Hroot | Hroot];
    [| by apply fkeeps_insert_rooted].
  unfold insert_value.
  destruct (value =? 0); [exact Hs |].
  rewrite bind_run. simpl.
  destruct (tree_order (hdr s) >? TREE_ORDER); [exact Hs |].
  rewrite Hroot. simpl.
  do 3 (rewrite bind_run; simpl).
  apply fkeeps_root_init. apply (I_header s Hs).
Qed.

End file_invariant.

(** ** What an insertion never does *)

(** X1: [insert_value] never removes a node record and never shortens the
    file: whatever it returns, and however it ends, every offset that held a
    record before the call holds one after it, and the end of the file has
    not moved back. *)
Theorem insert_never_frees {L : Layout} (e : env) (fuel : nat) (value : Z)
    (s : engine) :
  let s' := (insert_value e fuel value s).2 in
  f_eof (opt_iop s) ≤ f_eof (opt_iop s') ∧
  ∀ off, is_Some (f_nodes (opt_iop s) !! off) →
         is_Some (f_nodes (opt_iop s') !! off).
Proof.
  apply (fkeeps_insert_value
           (λ s', f_eof (opt_iop s) ≤ f_eof (opt_iop s') ∧
                  ∀ off, is_Some (f_nodes (opt_iop s) !! off) →
                         is_Some (f_nodes (opt_iop s') !! off))).
  - intros s1 s2 [= _ _ Hn He] [H1 H2]. by rewrite He, Hn.
  - intros s1 [H1 H2]. unfold fwrite_node.
    destruct (negb (whole_records s1)); [done |].
    destruct (_ || _); [| done]. simpl. split; [lia |].
    intros off Hoff. rewrite lookup_insert. case_decide; [by eexists | auto].
  - intros s1 [H1 H2]. unfold header_rewritten. simpl. split; [lia | done].
  - split; [lia | done].
Qed.


(** ** Closing and opening again *)

Section reopen.
Context {L : Layout}.





End reopen.


(** ** Insertion in place *)

Lemma shift_insert_spec (s : engine) (new_pos k b : Z) :
  length (key (opt_p s)) = 4%nat →
  length (block (opt_p s)) = 5%nat →
  0 ≤ new_pos ≤ keys_used (opt_p s) →
  keys_used (opt_p s) ≤ 3 →
  shift_insert new_pos k b s =
  (Ret tt, with_p (shift_inserted new_pos k b) s).
Proof.
  destruct s as [h f [lf ku ks bs par]]. simpl. intros Hk Hb Hnp Hku.
  destruct ks as [|k0 [|k1 [|k2 [|k3 [|]]]]]; try discriminate Hk.
  destruct bs as [|b0 [|b1 [|b2 [|b3 [|b4 [|]]]]]]; try discriminate Hb.
  assert (ku = 0 ∨ ku = 1 ∨ ku = 2 ∨ ku = 3) as Hcases by lia.
  assert (new_pos = 0 ∨ new_pos = 1 ∨ new_pos = 2 ∨ new_pos = 3) as Hpos
    by lia.
  destruct Hcases as [-> | [-> | [-> | ->]]];
    destruct Hpos as [-> | [-> | [-> | ->]]]; try lia; reflexivity.
Qed.

Section in_place.
Context {L : Layout}.

Lemma word_small (x : Z) : 0 ≤ x ≤ WORD_T_MAX → word x = x.
Proof. unfold word, WORD_T_MAX. intros. rewrite Z.mod_small; lia. Qed.

(** The scan runs through keys that are all below the value. *)
Lemma scan_past (value : Z) (s : engine) : ∀ n i0,
  0 ≤ i0 → i0 + Z.of_nat n ≤ WORD_T_MAX →
  (∀ j, i0 ≤ j < i0 + Z.of_nat n →
        ∃ kj, arr_get (key (opt_p s)) j = Some kj ∧ kj < value) →
  scan false n value i0 s = (Ret (i0 + Z.of_nat n), s).
Proof.
  induction n as [|n IH]; intros i0 Hi0 Hmax Hbelow; simpl.
  - by rewrite Z.add_0_r.
  - rewrite bind_run, p_key_run.
    destruct (Hbelow i0 ltac:(lia)) as (kj & -> & Hlt).
    replace (value <=? kj) with false by (symmetry; apply Z.leb_gt; lia).
    rewrite word_small by lia.
    rewrite IH; [f_equal; f_equal; lia | lia | lia |].
    intros j Hj. apply Hbelow. lia.
Qed.

Lemma find_pos_insertion_point (value : Z) (s : engine) (i : Z) :
  keys_used (opt_p s) ≤ WORD_T_MAX →
  insertion_point value (opt_p s) i →
  find_pos false value s = (Ret i, s).
Proof.
  intros Hku (Hi & Hbelow & Habove). unfold find_pos.
  rewrite bind_run. simpl.
  destruct (decide (i < keys_used (opt_p s))) as [Hlt | Hge].
  - destruct (Habove Hlt) as (k & Hk & Hv).
    apply (scan_first value s i k); try lia; auto.
  - assert (i = keys_used (opt_p s)) as -> by lia.
    rewrite (scan_past value s (Z.to_nat (keys_used (opt_p s))) 0);
      [f_equal; f_equal; lia | lia | lia |].
    intros j Hj. apply Hbelow. lia.
Qed.

(** The round that inserts, up to the test for an overflow: the node read
    has no path to follow behind the place of the value. *)
Lemma descend_step_shift e fuel value s n i k :
  whole_records s = true →
  0 ≤ f_pos (opt_iop s) →
  f_nodes (opt_iop s) !! f_pos (opt_iop s) = Some n →
  well_formed n → keys_used n ≤ 3 →
  insertion_point value n i →
  arr_get (key n) i = Some k → k ≠ value →
  arr_get (block n) (i + 1) = Some NO_BLOCK →
  descend_step e fuel value s =
  if keys_used n + 1 =? tree_order (hdr s)
  then (node_overflow e fuel;; mret true) (written_back value i n s)
  else (Ret true, written_back value i n s).
Proof.
  intros Hwhole Hpos Hn (Hlk & Hlb & Hku0) Hku Hip Hk Hne Hb.
  pose proof Hip as (Hi & _ & _).
  unfold descend_step. rewrite bind_run. simpl.
  rewrite bind_run. unfold fread_node at 1. rewrite Hwhole, Hn. simpl.
  rewrite bind_run, find_pos_insertion_point with (i := i);
    [| simpl; unfold WORD_T_MAX; lia | exact Hip].
  rewrite bind_run, p_key_run. simpl. rewrite Hk.
  replace (value =? k) with false by (symmetry; apply Z.eqb_neq; congruence).
  rewrite bind_run, p_block_run. simpl.
  rewrite word_small by (unfold WORD_T_MAX; lia). rewrite Hb. simpl.
  rewrite bind_run, shift_insert_spec; simpl; try done; try lia.
  rewrite bind_run. unfold fseek. simpl.
  replace (f_pos (opt_iop s) + block_size (hdr s) + - block_size (hdr s))
    with (f_pos (opt_iop s)) by lia.
  replace (f_pos (opt_iop s) <? 0) with false
    by (symmetry; by apply Z.ltb_ge).
  rewrite bind_run. unfold fwrite_node, whole_records in *. simpl.
  rewrite Hwhole, Hn. simpl.
  rewrite bind_run. simpl. unfold written_back.
  by destruct (keys_used n + 1 =? tree_order (hdr s)).
Qed.

(** The round that inserts when there is room for one more key. *)
Lemma descend_step_insert e fuel value s n i k :
  whole_records s = true →
  0 ≤ f_pos (opt_iop s) →
  f_nodes (opt_iop s) !! f_pos (opt_iop s) = Some n →
  well_formed n → keys_used n ≤ 3 →
  keys_used n + 1 ≠ tree_order (hdr s) →
  insertion_point value n i →
  arr_get (key n) i = Some k → k ≠ value →
  arr_get (block n) (i + 1) = Some NO_BLOCK →
  descend_step e fuel value s = (Ret true, written_back value i n s).
Proof.
  intros Hwhole Hpos Hn Hwf Hku Hroom Hip Hk Hne Hb.
  rewrite (descend_step_shift e fuel value s n i k) by done.
  by replace (keys_used n + 1 =? tree_order (hdr s)) with false
    by (symmetry; by apply Z.eqb_neq).
Qed.

End in_place.

Section in_place_theorems.
Context {L : Layout}.

(** [insert_value] on a tree that has a root is the descent from it. *)
Lemma insert_value_rooted e fuel value s s' :
  value ≠ 0 →
  tree_order (hdr s) ≤ TREE_ORDER →
  0 ≤ root_block (hdr s) →
  descend e fuel fuel value
    (with_iop (rewind (root_block (hdr s))) s) = (Ret tt, s') →
  insert_value e fuel value s = (Ret SUCCESS, s').
Proof.
  intros Hv Hord Hroot Hrun. unfold insert_value.
  replace (value =? 0) with false by (symmetry; by apply Z.eqb_neq).
  rewrite bind_run. simpl.
  replace (tree_order (hdr s) >? TREE_ORDER) with false
    by (symmetry; rewrite Z.gtb_ltb; apply Z.ltb_ge; exact Hord).
  replace (root_block (hdr s) =? NO_BLOCK) with false
    by (symmetry; apply Z.eqb_neq; unfold NO_BLOCK; lia).
  rewrite bind_run.
  assert (fseek (root_block (hdr s)) SEEK_SET s =
          (Ret 0, with_iop (rewind (root_block (hdr s))) s)) as ->.
  { unfold fseek.
    replace (root_block (hdr s) <? 0) with false
      by (symmetry; by apply Z.ltb_ge).
    reflexivity. }
  rewrite bind_run, Hrun. reflexivity.
Qed.

Lemma used_keys_lookup (n : node_t) (x : Z) :
  x ∈ used_keys n →
  ∃ j, 0 ≤ j < keys_used n ∧ arr_get (key n) j = Some x.
Proof.
  unfold used_keys. intros Hx.
  apply list_elem_of_lookup in Hx as [j Hj].
  apply lookup_take_Some in Hj as [Hj Hlt].
  exists (Z.of_nat j). split; [lia |].
  unfold arr_get. replace (0 <=? Z.of_nat j) with true
    by (symmetry; apply Z.leb_le; lia).
  by rewrite Nat2Z.id.
Qed.

Ltac shape n :=
  let lf := fresh "lf" in let ku := fresh "ku" in
  let ks := fresh "ks" in let bs := fresh "bs" in let par := fresh "par" in
  destruct n as [lf ku ks bs par]; simpl in *;
  do 5 (try (destruct ks as [|? ks]; simpl in *; try discriminate));
  do 6 (try (destruct bs as [|? bs]; simpl in *; try discriminate)).

(** The keys and blocks in use after [shift_insert]. *)
Lemma shift_inserted_used (i v b : Z) (n : node_t) :
  well_formed n → 0 ≤ i ≤ keys_used n → keys_used n ≤ 3 →
  used_keys (shift_inserted i v b n) =
    take (Z.to_nat i) (used_keys n) ++ v :: drop (Z.to_nat i) (used_keys n) ∧
  used_blocks (shift_inserted i v b n) =
    take (Z.to_nat (i + 1)) (used_blocks n) ++
    b :: drop (Z.to_nat (i + 1)) (used_blocks n).
Proof.
  intros (Hk & Hb & Hku0) Hi Hku. shape n.
  assert (ku = 0 ∨ ku = 1 ∨ ku = 2 ∨ ku = 3) as Hc by lia.
  assert (i = 0 ∨ i = 1 ∨ i = 2 ∨ i = 3) as Hp by lia.
  destruct Hc as [-> | [-> | [-> | ->]]];
    destruct Hp as [-> | [-> | [-> | ->]]]; try lia; split; reflexivity.
Qed.

Lemma shift_inserted_slots (i v b : Z) (n : node_t) :
  well_formed n → 0 ≤ i ≤ keys_used n → keys_used n ≤ 3 →
  arr_get (key (shift_inserted i v b n)) i = Some v ∧
  ∀ j, 0 ≤ j < i →
       arr_get (key (shift_inserted i v b n)) j = arr_get (key n) j.
Proof.
  intros (Hk & Hb & Hku0) Hi Hku. shape n.
  assert (ku = 0 ∨ ku = 1 ∨ ku = 2 ∨ ku = 3) as Hc by lia.
  assert (i = 0 ∨ i = 1 ∨ i = 2 ∨ i = 3) as Hp by lia.
  destruct Hc as [-> | [-> | [-> | ->]]];
    destruct Hp as [-> | [-> | [-> | ->]]]; try lia;
    (split; [reflexivity |]); intros j Hj;
    assert (j = 0 ∨ j = 1 ∨ j = 2) as Hj' by lia;
    destruct Hj' as [-> | [-> | ->]]; try lia; reflexivity.
Qed.

Lemma shift_inserted_sorted (i v b k : Z) (n : node_t) :
  well_formed n → keys_used n ≤ 3 →
  insertion_point v n i →
  arr_get (key n) i = Some k → k ≠ v →
  StronglySorted Z.lt (used_keys n) →
  StronglySorted Z.lt (used_keys (shift_inserted i v b n)).
Proof.
  intros Hwf Hku (Hi & Hbelow & Habove) Hk Hne Hs.
  destruct (shift_inserted_used i v b n Hwf Hi Hku) as [-> _].
  destruct Hwf as (Hlk & Hlb & Hku0). shape n.
  assert (ku = 0 ∨ ku = 1 ∨ ku = 2 ∨ ku = 3) as Hc by lia.
  assert (i = 0 ∨ i = 1 ∨ i = 2 ∨ i = 3) as Hp by lia.
  unfold used_keys in *. simpl in *.
  destruct Hc as [-> | [-> | [-> | ->]]];
    destruct Hp as [-> | [-> | [-> | ->]]]; try lia; simpl in *;
    try (destruct (Habove ltac:(lia)) as (? & [= <-] & ?));
    try (destruct (Hbelow 0 ltac:(lia)) as (? & [= <-] & ?));
    try (destruct (Hbelow 1 ltac:(lia)) as (? & [= <-] & ?));
    try (destruct (Hbelow 2 ltac:(lia)) as (? & [= <-] & ?));
    repeat match goal with
      | H : StronglySorted _ (_ :: _) |- _ =>
          apply StronglySorted_inv in H; destruct H
      | H : Forall _ (_ :: _) |- _ =>
          apply Forall_cons in H; destruct H
      end;
    repeat (constructor; try lia).
Qed.

End in_place_theorems.

(** X4: [insert_value] on a root with room for one more key, when the slot
    [i] where the scan stops does not hold the value and [block[i+1]] is
    [NO_BLOCK].  The call returns [SUCCESS] and rewrites the root record and
    nothing else: the value is put at index [i] of the keys in use, the keys
    from [i] on move up by one, [NO_BLOCK] is put at index [i+1] of the
    child references, the parent is kept, and keys that increased strictly
    still do. *)
Theorem insert_in_place {L : Layout} (e : env) (fuel : nat) (value : Z)
    (s : engine) (n : node_t) (i k : Z) :
  value ≠ 0 → (1 ≤ fuel)%nat →
  tree_order (hdr s) ≤ TREE_ORDER →
  whole_records s = true →
  0 ≤ root_block (hdr s) →
  f_nodes (opt_iop s) !! root_block (hdr s) = Some n →
  well_formed n → keys_used n ≤ 3 →
  keys_used n + 1 ≠ tree_order (hdr s) →
  insertion_point value n i →
  arr_get (key n) i = Some k → k ≠ value →
  arr_get (block n) (i + 1) = Some NO_BLOCK →
  ∃ n' s',
    insert_value e fuel value s = (Ret SUCCESS, s') ∧
    hdr s' = hdr s ∧
    f_header (opt_iop s') = f_header (opt_iop s) ∧
    f_nodes (opt_iop s') =
      <[root_block (hdr s) := n']> (f_nodes (opt_iop s)) ∧
    keys_used n' = keys_used n + 1 ∧
    parent_block n' = parent_block n ∧
    used_keys n' =
      take (Z.to_nat i) (used_keys n) ++
      value :: drop (Z.to_nat i) (used_keys n) ∧
    used_blocks n' =
      take (Z.to_nat (i + 1)) (used_blocks n) ++
      NO_BLOCK :: drop (Z.to_nat (i + 1)) (used_blocks n) ∧
    (StronglySorted Z.lt (used_keys n) → StronglySorted Z.lt (used_keys n')).
Proof.
  intros Hv Hfuel Hord Hwhole Hroot Hn Hwf Hku Hroom Hip Hk Hne Hb.
  destruct fuel as [|fuel]; [lia |].
  pose proof Hip as (Hi & _ & _).
  destruct (shift_inserted_used i value NO_BLOCK n Hwf Hi Hku) as [Huk Hub].
  exists (shift_inserted i value NO_BLOCK n). eexists. split.
  - apply insert_value_rooted; try done.
    simpl. rewrite bind_run.
    rewrite (descend_step_insert e (S fuel) value _ n i k); try done.
  - simpl. repeat split; try done.
    by apply (shift_inserted_sorted i value NO_BLOCK k n).
Qed.

Section met_key.
Context {L : Layout}.

(** Where the scan of [insert_value] stops: behind the keys below the value,
    at a key in use that is not below it or behind the last key in use. *)
Lemma find_pos_stop (value : Z) (s : engine) (i : Z) :
  keys_used (opt_p s) ≤ WORD_T_MAX →
  0 ≤ i ≤ keys_used (opt_p s) →
  (∀ j, 0 ≤ j < i →
        ∃ kj, arr_get (key (opt_p s)) j = Some kj ∧ kj < value) →
  (i < keys_used (opt_p s) →
   ∃ k, arr_get (key (opt_p s)) i = Some k ∧ value ≤ k) →
  find_pos false value s = (Ret i, s).
Proof.
  intros Hku Hi Hbelow Habove. unfold find_pos.
  rewrite bind_run. simpl.
  destruct (decide (i < keys_used (opt_p s))) as [Hlt | Hge].
  - destruct (Habove Hlt) as (k & Hk & Hv).
    apply (scan_first value s i k); try lia; auto.
  - assert (i = keys_used (opt_p s)) as -> by lia.
    rewrite (scan_past value s (Z.to_nat (keys_used (opt_p s))) 0);
      [f_equal; f_equal; lia | lia | lia |].
    intros j Hj. apply Hbelow. lia.
Qed.

(** A record whose slot at the stop of the scan holds the value, in use or
    not, ends the descent. *)
Lemma finds_key_at (value : Z) (s : engine) (n : node_t) (i : Z) :
  whole_records s = true →
  f_nodes (opt_iop s) !! f_pos (opt_iop s) = Some n →
  keys_used n ≤ WORD_T_MAX →
  0 ≤ i ≤ keys_used n →
  (∀ j, 0 ≤ j < i → ∃ kj, arr_get (key n) j = Some kj ∧ kj < value) →
  arr_get (key n) i = Some value →
  finds_key value 1 s.
Proof.
  intros Hwhole Hn Hku Hi Hbelow Hk.
  eapply (finds_here value s 1 _ i).
  - unfold fread_node. rewrite Hwhole, Hn. reflexivity.
  - rewrite find_pos_stop with (i := i); simpl; try done.
    intros _. exists value. split; [exact Hk | lia].
  - exact Hk.
Qed.

End met_key.

(** X5: inserting a value that was just inserted in place, again: the second
    call finds the key in the record the first one wrote, returns [SUCCESS]
    and leaves header and file as the first call left them, whatever [rand]
    and the fuel of the two calls are. *)
Theorem insert_again_in_place {L : Layout} (e1 e2 : env) (fuel1 fuel2 : nat)
    (value : Z) (s : engine) (n : node_t) (i k : Z) :
  value ≠ 0 → (1 ≤ fuel1)%nat → (1 ≤ fuel2)%nat →
  tree_order (hdr s) ≤ TREE_ORDER →
  whole_records s = true →
  0 ≤ root_block (hdr s) →
  f_nodes (opt_iop s) !! root_block (hdr s) = Some n →
  well_formed n → keys_used n ≤ 3 →
  keys_used n + 1 ≠ tree_order (hdr s) →
  insertion_point value n i →
  arr_get (key n) i = Some k → k ≠ value →
  arr_get (block n) (i + 1) = Some NO_BLOCK →
  ∃ s1 s2,
    insert_value e1 fuel1 value s = (Ret SUCCESS, s1) ∧
    insert_value e2 fuel2 value s1 = (Ret SUCCESS, s2) ∧
    file_of s2 = file_of s1.
Proof.
  intros Hv Hfuel1 Hfuel2 Hord Hwhole Hroot Hn Hwf Hku Hroom Hip Hk Hne Hb.
  destruct fuel1 as [|fuel1]; [lia |].
  pose proof Hip as (Hi & Hbelow & _).
  destruct (shift_inserted_slots i value NO_BLOCK n Hwf Hi Hku)
    as [Hslot Hsame].
  eexists. 
  assert (∀ s1, insert_value e1 (S fuel1) value s = (Ret SUCCESS, s1) →
     hdr s1 = hdr s →
     f_nodes (opt_iop s1) !! root_block (hdr s) =
       Some (shift_inserted i value NO_BLOCK n) →
     ∃ s2, insert_value e1 (S fuel1) value s = (Ret SUCCESS, s1) ∧
       insert_value e2 fuel2 value s1 = (Ret SUCCESS, s2) ∧
       file_of s2 = file_of s1) as Hnext.
  { intros s1 Hrun Hhdr Hrec.
    assert (finds_key value 1 (with_iop (rewind (root_block (hdr s1))) s1))
      as Hfind.
    { apply (finds_key_at value _ (shift_inserted i value NO_BLOCK n) i).
      - unfold whole_records in *. simpl. by rewrite Hhdr.
      - simpl. by rewrite Hhdr.
      - simpl. unfold WORD_T_MAX. lia.
      - simpl. lia.
      - intros j Hj. rewrite (Hsame j Hj). by apply Hbelow.
      - exact Hslot. }
    destruct (descend_finds_key e2 fuel2 value 1 _ Hfind fuel2 Hfuel2)
      as (s2 & Hrun2 & Hfile).
    exists s2. split; [exact Hrun |]. split.
    - apply insert_value_rooted; try done; by rewrite Hhdr.
    - rewrite Hfile. reflexivity. }
  apply Hnext.
  - apply insert_value_rooted; try done.
    simpl. rewrite bind_run.
    rewrite (descend_step_insert e1 (S fuel1) value _ n i k); try done.
  - reflexivity.
  - simpl. by rewrite lookup_insert_eq.
Qed.

(** X6: the test [value==opt->p->key[new_pos]] is also made when the scan
    ran through all the keys in use, on the slot behind them.  When that
    slot happens to hold the value, left there by an earlier use of the
    buffer, [insert_value] returns [SUCCESS] without writing anything,
    although the value is not among the keys of the node. *)
Theorem stale_slot_taken_for_key {L : Layout} (e : env) (fuel : nat)
    (value : Z) (s : engine) (n : node_t) :
  value ≠ 0 → (1 ≤ fuel)%nat →
  tree_order (hdr s) ≤ TREE_ORDER →
  whole_records s = true →
  0 ≤ root_block (hdr s) →
  f_nodes (opt_iop s) !! root_block (hdr s) = Some n →
  (0 ≤ keys_used n ≤ WORD_T_MAX) →
  (∀ j, 0 ≤ j < keys_used n →
        ∃ kj, arr_get (key n) j = Some kj ∧ kj < value) →
  arr_get (key n) (keys_used n) = Some value →
  (value ∉ used_keys n) ∧
  ∃ s', insert_value e fuel value s = (Ret SUCCESS, s') ∧
        file_of s' = file_of s.
Proof.
  intros Hv Hfuel Hord Hwhole Hroot Hn Hku Hbelow Hk. split.
  - intros Hin. apply used_keys_lookup in Hin as (j & Hj & Hkj).
    destruct (Hbelow j Hj) as (kj & Hkj' & Hlt). simplify_eq. lia.
  - assert (finds_key value 1 (with_iop (rewind (root_block (hdr s))) s))
      as Hfind.
    { apply (finds_key_at value _ n (keys_used n));
        [exact Hwhole | exact Hn | lia | lia | exact Hbelow | exact Hk]. }
    destruct (descend_finds_key e fuel value 1 _ Hfind fuel Hfuel)
      as (s' & Hrun & Hfile).
    exists s'. split; [by apply insert_value_rooted |].
    rewrite Hfile. reflexivity.
Qed.

(** ** What holds of every file of a session *)

Section files_of_session.
Context {L : Layout} (G : header_t → Prop) (P : FILE → Prop).
Hypothesis P_rewind : ∀ pos f, P f → P (rewind pos f).
Hypothesis P_new :
  ∀ h, G h → P (mk_file (Some h) ∅ sizeof_header_t sizeof_header_t).
Hypothesis P_open : ∀ f h, P f → f_header f = Some h → G h.
Hypothesis P_insert : ∀ e fuel v h f n,
  G h → P f →
  G (hdr (insert_value e fuel v (mk_engine h f n)).2) ∧
  P (opt_iop (insert_value e fuel v (mk_engine h f n)).2).

Lemma all_files_close st :
  all_files G P st →
  ∀ nm f, (close_tree (disk st) (options st)).1.2 !! nm = Some f → P f.
Proof.
  intros (_ & Hd & Ho) nm f. unfold close_tree.
  destruct (iop (options st)) as [g|] eqn:Hg; simpl; [| apply Hd].
  rewrite lookup_insert. case_decide; [| apply Hd].
  intros [= <-]. by apply Ho.
Qed.

Lemma all_files_main_close st :
  all_files G P st → all_files G P (state_of (main_close st)).
Proof.
  intros Hst. unfold main_close.
  pose proof (all_files_close st Hst) as Hd.
  pose proof (close_tree_options st) as [Hi _].
  destruct (close_tree (disk st) (options st)) as [[c d1] o1]. simpl in *.
  split; [exact (proj1 Hst) |].
  split; simpl; [exact Hd |]. rewrite Hi. discriminate.
Qed.

Lemma all_files_main_open exists_ msg r st :
  all_files G P st → all_files G P (state_of (main_open exists_ msg r st)).
Proof.
  intros Hst. unfold main_open.
  pose proof (all_files_close st Hst) as Hd.
  pose proof (proj1 Hst) as Hh.
  destruct (close_tree (disk st) (options st)) as [[c d1] o1]. simpl in *.
  unfold open_tree, reallocate_block. simpl.
  destruct exists_; simpl.
  - destruct (d1 !! typed_name r) as [f|] eqn:Hf; simpl.
    + destruct (f_header f) as [h|] eqn:Hh'; simpl.
      * split; [exact (P_open f h (Hd _ _ Hf) Hh') |].
        split; simpl; [exact Hd |]. intros g [= <-].
        apply P_rewind. by apply (Hd _ _ Hf).
      * split; [exact Hh |].
        split; simpl; [exact Hd |]. intros g [= <-].
        apply P_rewind. by apply (Hd _ _ Hf).
    + split; [exact Hh |]. split; simpl; [exact Hd | discriminate].
  - split; [exact Hh |]. split; simpl; [exact Hd |].
    intros g [= <-]. by apply P_new.
Qed.

Lemma all_files_main_insert r st :
  all_files G P st → all_files G P (state_of (main_insert r st)).
Proof.
  intros Hst. unfold main_insert.
  destruct (iop (options st)) as [f|] eqn:Hf; [| exact Hst].
  destruct (p (options st)) as [n|] eqn:Hn; [| exact Hst].
  pose proof (P_insert (overflow_env r) (loop_fuel r) (typed_value r)
                (header st) f n (proj1 Hst) (proj2 (proj2 Hst) f Hf))
    as [HG HP].
  destruct (insert_value _ _ _ _) as [result s]. simpl in HG, HP.
  assert (all_files G P
            (mk_program
               (mk_options (name (options st)) (file_exists (options st))
                  (Some (opt_iop s)) (Some (opt_p s)))
               (hdr s) (typed_value r) (disk st))) as Hst'.
  { split; [exact HG |]. split; simpl; [exact (proj1 (proj2 Hst)) |].
    intros g [= <-]. exact HP. }
  destruct result as [[] | |]; exact Hst'.
Qed.

Lemma all_files_main_step c r st :
  all_files G P st → all_files G P (state_of (main_step c r st)).
Proof.
  intros Hst. destruct c; simpl.
  - by apply all_files_main_open.
  - by apply all_files_main_open.
  - by apply all_files_main_close.
  - by apply all_files_main_insert.
  - unfold main_search.
    destruct (iop (options st)) eqn:Hf; simpl; [| exact Hst].
    destruct Hst as (Hh & Hd & Ho).
    split; [exact Hh |]. split; simpl; [exact Hd | exact Ho].
  - by apply all_files_main_close.
  - exact Hst.
Qed.

Lemma all_files_main_loop l : ∀ st printed,
  all_files G P st → all_files G P (state_of (main_loop l st printed)).
Proof.
  induction l as [|[c r] l IH]; intros st printed Hst; simpl; [exact Hst |].
  pose proof (all_files_main_step c r st Hst) as Hstep.
  destruct (main_step c r st) as [st' out | st' out | st']; simpl in *;
    try exact Hstep.
  destruct c; simpl; try exact Hstep; by apply IH.
Qed.

Lemma all_files_main_init gname gvalue :
  G header0 → all_files G P (main_init gname gvalue).
Proof.
  intros Hh. split; [exact Hh |].
  split; simpl; [intros nm f; by rewrite lookup_empty | discriminate].
Qed.

End files_of_session.

Section standard_headers.
Context {L : Layout}.

Lemma standard_insert_value e fuel value :
  keeps headers_standard (insert_value e fuel value).
Proof.
  apply (fkeeps_insert_value headers_standard).
  - intros s s' [= Hh Hf _ _] [H1 H2]. split; [by rewrite Hh |].
    by rewrite Hf.
  - intros s [H1 H2]. unfold fwrite_node.
    destruct (negb (whole_records s)); [by split |].
    destruct (_ || _); by split.
  - intros s [(Hhs & Hbs & Hord & Hroot) H2]. unfold header_rewritten.
    rewrite bind_run. unfold fseek. simpl.
    assert (standard_header (with_root_block (header_size (hdr s)) (hdr s)))
      as Hstd.
    { split; [exact Hhs |]. split; [exact Hbs |]. split; [exact Hord |].
      right. exact Hhs. }
    split; simpl; [exact Hstd |]. by intros h [= <-].
Qed.

End standard_headers.


(** ** The statuses of an insertion *)

Section statuses.
Context {L : Layout}.

Lemma insert_value_status e fuel v s r :
  root_block (hdr s) ≠ NO_BLOCK →
  (insert_value e fuel v s).1 = Ret r →
  r = SUCCESS ∨ (r = INV_DATA_PTR ∧ v = 0) ∨
  (r = E_INCOMPATIBLE_VERSION ∧ v ≠ 0 ∧ tree_order (hdr s) > TREE_ORDER).
Proof.
  intros Hroot. unfold insert_value.
  destruct (Z.eqb_spec v 0) as [-> | Hv].
  { intros [= <-]. right. by left. }
  rewrite bind_run. simpl.
  destruct (Z.gtb_spec (tree_order (hdr s)) TREE_ORDER) as [Hgt | Hle].
  { intros [= <-]. right. right. split; [done |]. split; [done | lia]. }
  intros Hr. left.
  destruct (Z.eqb_spec (root_block (hdr s)) NO_BLOCK) as [| _]; [done |].
  revert Hr. rewrite bind_run.
  destruct (fseek _ _ s) as [[?| |] ?]; simpl; try discriminate.
  rewrite bind_run.
  destruct (descend _ _ _ _ _) as [[?| |] ?]; simpl; try discriminate.
  by intros [= <-].
Qed.

Lemma buffer_allocated_step c r st :
  buffer_allocated st → buffer_allocated (state_of (main_step c r st)).
Proof.
  intros Hst. unfold buffer_allocated.
  assert (∀ exists_ msg,
            is_Some (p (options (state_of (main_open exists_ msg r st)))))
    as Hopen.
  { intros exists_ msg. unfold main_open, close_tree.
    destruct (iop (options st)); simpl; unfold open_tree; simpl;
      (destruct exists_; simpl;
       [destruct (_ !! typed_name r) as [g|]; simpl;
        [destruct (f_header g); simpl |] |]); by eexists. }
  assert (¬ is_Some (iop (options (state_of (main_close st))))) as Hclose.
  { unfold main_close, close_tree.
    destruct (iop (options st)); simpl; by intros [? ?]. }
  destruct c; simpl; try done.
  - unfold main_insert.
    destruct (iop (options st)) as [f|] eqn:Hf; [| exact Hst].
    destruct (p (options st)) as [n|] eqn:Hn; [| exact Hst].
    destruct (insert_value _ _ _ _) as [[[] | |] s]; simpl;
      intros _; by eexists.
  - unfold main_search.
    destruct (iop (options st)) eqn:Hf; simpl; [| exact Hst].
    intros _. apply Hst. by rewrite Hf.
Qed.

Lemma buffer_allocated_loop l : ∀ st printed,
  buffer_allocated st → buffer_allocated (state_of (main_loop l st printed)).
Proof.
  induction l as [|[c r] l IH]; intros st printed Hst; simpl; [exact Hst |].
  pose proof (buffer_allocated_step c r st Hst) as Hstep.
  destruct (main_step c r st) as [st' out | st' out | st']; simpl in *;
    try exact Hstep.
  destruct c; simpl; try exact Hstep; by apply IH.
Qed.

Lemma reachable_header_standard l gname gvalue st out :
  main_loop l (main_init gname gvalue) [] = Running st out →
  standard_header (header st).
Proof.
  intros Hrun.
  assert (all_files standard_header
            (λ f, ∀ h, f_header f = Some h → standard_header h)
            (state_of (main_loop l (main_init gname gvalue) []))) as Hall.
  { apply all_files_main_loop.
    - intros pos f Hf. exact Hf.
    - intros h Hh h' [= <-]. exact Hh.
    - intros f h Hf Hh. by apply Hf.
    - intros e fuel v h f n Hh Hf.
      pose proof (standard_insert_value e fuel v (mk_engine h f n)
                    (conj Hh Hf)) as [H1 H2].
      split; [exact H1 | exact H2].
    - apply all_files_main_init.
      split; [done |]. split; [done |]. split; [done |]. by left. }
  rewrite Hrun in Hall. exact (proj1 Hall).
Qed.

End statuses.

(** X9: the statuses of [insert_value] once the tree has a root.  In that
    branch the code looks at the result of no call of [fseek], [fread] or
    [fwrite], nor at that of [node_overflow]: whenever the call returns, the
    status is [SUCCESS], or [INV_DATA_PTR] for the value 0, or
    [E_INCOMPATIBLE_VERSION] for a stored order above [TREE_ORDER]. *)
Theorem rooted_insert_reports_no_io_error {L : Layout} (e : env)
    (fuel : nat) (v : Z) (s : engine) (r : status_t) :
  root_block (hdr s) ≠ NO_BLOCK →
  (insert_value e fuel v s).1 = Ret r →
  r = SUCCESS ∨ (r = INV_DATA_PTR ∧ v = 0) ∨
  (r = E_INCOMPATIBLE_VERSION ∧ v ≠ 0 ∧ tree_order (hdr s) > TREE_ORDER).
Proof. apply insert_value_status. Qed.

(** X10: in any session of the menu that starts with no file on disk, an
    [INSERT] round with a file open and a header that points at a root ends
    the program through [error] exactly when the value typed is 0, and the
    message then is that of [INV_DATA_PTR]. *)
Theorem rooted_insert_round_exits_on_zero_only {L : Layout}
    (l : list (choice * round)) (gname : string) (gvalue : Z)
    (st : program) (out : list string) (r : round) :
  main_loop l (main_init gname gvalue) [] = Running st out →
  is_Some (iop (options st)) →
  root_block (header st) ≠ NO_BLOCK →
  ((∃ st', main_step INSERT r st =
           Exited st' [error_msg INV_DATA_PTR +:+ nl]) ↔ typed_value r = 0) ∧
  (∀ st' msgs, main_step INSERT r st = Exited st' msgs → typed_value r = 0).
Proof.
  intros Hrun [f Hf] Hroot.
  pose proof (reachable_header_standard l gname gvalue st out Hrun) as Hh.
  pose proof (buffer_allocated_loop l (main_init gname gvalue) []) as Hb.
  rewrite Hrun in Hb. simpl in Hb.
  destruct Hb as [n Hn].
  { simpl. by intros [? ?]. }
  { by eexists. }
  assert (∀ st' msgs, main_step INSERT r st = Exited st' msgs →
                      typed_value r = 0) as Honly.
  { intros st' msgs. simpl. unfold main_insert. rewrite Hf, Hn.
    pose proof (insert_value_status (overflow_env r) (loop_fuel r)
                  (typed_value r) (mk_engine (header st) f n)) as Hs.
    destruct (insert_value _ _ _ _) as [[status | |] s]; simpl in *;
      try discriminate.
    destruct (Hs status Hroot eq_refl) as [-> | [[_ Hv] | (_ & _ & Hord)]];
      [discriminate | by intros _ |].
    destruct Hh as (_ & _ & Ho & _). rewrite Ho in Hord. lia. }
  split; [| exact Honly]. split.
  - intros [st' Hst']. by apply (Honly _ _ Hst').
  - intros Hv. simpl. unfold main_insert. rewrite Hf, Hn, Hv.
    eexists. reflexivity.
Qed.

(** ** The retagging loop on a node without children *)

Section retag_no_children.
Context {L : Layout}.

(** One round of [retag] at the end of the file, on a slot that holds
    [NO_BLOCK]. *)
Lemma retag_round fuel index par s :
  whole_records s = true → 0 < block_size (hdr s) →
  f_pos (opt_iop s) = f_eof (opt_iop s) →
  f_nodes (opt_iop s) !! f_eof (opt_iop s) = None →
  0 ≤ f_pos (opt_iop s) - block_size (hdr s) →
  is_Some (f_nodes (opt_iop s) !! (f_pos (opt_iop s) - block_size (hdr s))) →
  index ≤ keys_used (opt_p s) →
  arr_get (block (opt_p s)) index = Some NO_BLOCK →
  retag (S fuel) index par s =
  retag fuel (word (index + 1)) par (retagged_itself par s).
Proof.
  intros Hwhole Hbs Hpos Hnone Hback Hrec Hidx Hb. simpl.
  rewrite bind_run. simpl.
  replace (index <=? keys_used (opt_p s)) with true
    by (symmetry; by apply Z.leb_le).
  rewrite bind_run, p_block_run, Hb. simpl.
  rewrite bind_run. unfold fseek at 1. simpl.
  rewrite bind_run. unfold fread_node at 1. rewrite Hwhole. simpl.
  rewrite Hpos, Hnone, Z.leb_refl.
  rewrite bind_run. simpl. rewrite bind_run. simpl.
  rewrite bind_run. unfold fseek at 1. simpl.
  replace (f_pos (opt_iop s) + - block_size (hdr s) <? 0) with false
    by (symmetry; apply Z.ltb_ge; lia).
  rewrite bind_run. unfold fwrite_node at 1.
  unfold whole_records in *. simpl. rewrite Hwhole. simpl.
  replace (f_pos (opt_iop s) + - block_size (hdr s))
    with (f_pos (opt_iop s) - block_size (hdr s)) by lia.
  rewrite bool_decide_eq_true_2 by exact Hrec. simpl.
  unfold retagged_itself. rewrite Hpos.
  f_equal. unfold with_iop, with_p. simpl.
  replace (f_eof (opt_iop s) - block_size (hdr s) + block_size (hdr s))
    with (f_eof (opt_iop s)) by lia.
  by rewrite Z.max_id.
Qed.

Lemma retagged_itself_again par s :
  retagged_itself par (retagged_itself par s) = retagged_itself par s.
Proof.
  unfold retagged_itself. simpl. by rewrite insert_insert_eq.
Qed.

Lemma retag_childless_run par s0 : ∀ cnt fuel index s,
  s = retagged_itself par s0 →
  whole_records s = true → 0 < block_size (hdr s) →
  f_pos (opt_iop s) = f_eof (opt_iop s) →
  f_nodes (opt_iop s) !! f_eof (opt_iop s) = None →
  0 ≤ f_pos (opt_iop s) - block_size (hdr s) →
  0 ≤ index → keys_used (opt_p s) < WORD_T_MAX →
  index + Z.of_nat cnt = keys_used (opt_p s) + 1 →
  (∀ j, index ≤ j ≤ keys_used (opt_p s) →
        arr_get (block (opt_p s)) j = Some NO_BLOCK) →
  (cnt < fuel)%nat →
  retag fuel index par s = (Ret tt, s).
Proof.
  induction cnt as [|cnt IH];
    intros [|fuel] index s Hs Hwhole Hbs Hpos Hnone Hback Hidx Hku Hcnt
      Hblocks Hfuel; try lia.
  - simpl. rewrite bind_run. simpl.
    replace (index <=? keys_used (opt_p s)) with false
      by (symmetry; apply Z.leb_gt; lia).
    reflexivity.
  - rewrite retag_round; try done; try lia.
    + assert (retagged_itself par s = s) as Hfix
        by (rewrite Hs; apply retagged_itself_again).
      rewrite Hfix. rewrite word_small by (unfold WORD_T_MAX in *; lia).
      apply IH; try done; try lia.
      intros j Hj. apply Hblocks. lia.
    + rewrite Hs. simpl. rewrite lookup_insert_eq. by eexists.
    + apply Hblocks. lia.
Qed.

End retag_no_children.

(** X11: the retagging loop of [node_overflow] on a node without children,
    right after the node was appended to the file.  Every [fseek] to
    [NO_BLOCK] fails, every [fread] at the end of the file reads nothing,
    and every round writes the buffer, that is the node itself with
    [par_block] as parent, back over the record just appended.  The loop
    returns with the stream where it was; in [node_overflow], [par_block] is
    the offset of that very record. *)
Theorem retag_childless {L : Layout} (fuel : nat) (par : Z) (s : engine) :
  whole_records s = true → 0 < block_size (hdr s) →
  f_pos (opt_iop s) = f_eof (opt_iop s) →
  f_nodes (opt_iop s) !! f_eof (opt_iop s) = None →
  0 ≤ f_pos (opt_iop s) - block_size (hdr s) →
  is_Some (f_nodes (opt_iop s) !! (f_pos (opt_iop s) - block_size (hdr s))) →
  0 ≤ keys_used (opt_p s) < WORD_T_MAX →
  (∀ j, 0 ≤ j ≤ keys_used (opt_p s) →
        arr_get (block (opt_p s)) j = Some NO_BLOCK) →
  (Z.to_nat (keys_used (opt_p s)) + 1 < fuel)%nat →
  retag fuel 0 par s = (Ret tt, retagged_itself par s).
Proof.
  intros Hwhole Hbs Hpos Hnone Hback Hrec Hku Hblocks Hfuel.
  destruct fuel as [|fuel]; [lia |].
  rewrite retag_round; try done; try lia; [| apply Hblocks; lia].
  rewrite word_small by (unfold WORD_T_MAX in *; lia).
  apply (retag_childless_run par s (Z.to_nat (keys_used (opt_p s))));
    try done; simpl; try lia.
  - rewrite lookup_insert_ne by lia. exact Hnone.
  - intros j Hj. apply Hblocks. lia.
Qed.

(** ** The split of a node with a parent *)

Section parents.
Context {L : Layout} (PB : Z → Prop).














End parents.


Section promoted.
Context {L : Layout}.

Lemma arr_set_first (t t' : list Z) (i v : Z) :
  arr_set t i v = Some t' → i ≠ 0 → arr_get t' 0 = arr_get t 0.
Proof.
  unfold arr_set, arr_get. destruct (0 <=? i) eqn:Hi; [| discriminate].
  destruct (i <? _); [| discriminate]. simpl. intros [= <-] Hne.
  apply Z.leb_le in Hi. apply list_lookup_insert_ne. lia.
Qed.

Lemma arr_set_get (t t' : list Z) (i v : Z) :
  arr_set t i v = Some t' → arr_get t' i = Some v.
Proof.
  unfold arr_set, arr_get. destruct (0 <=? i) eqn:Hi; [| discriminate].
  destruct (i <? _) eqn:Hlt; [| discriminate]. simpl. intros [= <-].
  apply Z.ltb_lt in Hlt. apply Z.leb_le in Hi.
  apply list_lookup_insert_eq. lia.
Qed.

(** A loop that copies slots [index], [index+1], ... into an array leaves
    slot 0 alone when it starts behind it. *)
Lemma copy_keeps_first (get : Z → M Z) : ∀ n index t s t' s',
  1 ≤ index → index + Z.of_nat n ≤ WORD_T_MAX + 1 →
  for_up n index (λ index t, v ← get index; lift_opt (arr_set t index v))
    t s = (Ret t', s') →
  arr_get t' 0 = arr_get t 0.
Proof.
  induction n as [|n IH]; intros index t s t' s' Hidx Hmax; simpl.
  - by intros [= <- _].
  - rewrite bind_run, bind_run.
    destruct (get index s) as [[v| |] s1]; try discriminate.
    destruct (arr_set t index v) as [t1|] eqn:Hset; simpl;
      try discriminate.
    intros Hrun. destruct n as [|n].
    + simpl in Hrun. injection Hrun as <- _.
      apply (arr_set_first _ _ _ _ Hset). lia.
    + rewrite word_small in Hrun by (unfold WORD_T_MAX in *; lia).
      rewrite (IH (index + 1) t1 s1 t' s' ltac:(lia) ltac:(lia) Hrun).
      apply (arr_set_first _ _ _ _ Hset). lia.
Qed.

Lemma kkeeps_set_p_block (i k j v : Z) :
  keeps (λ s, arr_get (key (opt_p s)) i = Some k) (set_p_block j v).
Proof.
  apply keeps_bind; [apply keeps_gets | intros a].
  apply keeps_bind; [apply keeps_lift_opt | intros a'].
  intros s Hs. exact Hs.
Qed.

Lemma kkeeps_p_block (i k j : Z) :
  keeps (λ s, arr_get (key (opt_p s)) i = Some k) (p_block j).
Proof.
  apply keeps_bind; [apply keeps_gets | intros; apply keeps_lift_opt].
Qed.

(** [shift_insert] leaves the key it was given at [new_pos]. *)
Lemma shift_insert_puts_key new_pos k b s s' :
  shift_insert new_pos k b s = (Ret tt, s') →
  arr_get (key (opt_p s')) new_pos = Some k.
Proof.
  unfold shift_insert. rewrite bind_run. simpl. rewrite bind_run. simpl.
  rewrite bind_run.
  destruct (for_down _ _ _ _) as [[[]| |] s1]; try discriminate.
  rewrite bind_run.
  destruct (set_p_key new_pos k s1) as [[[]| |] s2] eqn:Hset;
    try discriminate.
  assert (arr_get (key (opt_p s2)) new_pos = Some k) as Hkey.
  { revert Hset. unfold set_p_key. rewrite bind_run. simpl.
    rewrite bind_run.
    destruct (arr_set (key (opt_p s1)) new_pos k) as [a'|] eqn:Ha; simpl;
      try discriminate.
    intros [= <-]. simpl. by apply (arr_set_get _ _ _ _ Ha). }
  intros Hrun.
  assert (keeps (λ s, arr_get (key (opt_p s)) new_pos = Some k)
            (for_down (keys_used
                         (with_keys_used (word (keys_used (opt_p s) + 1))
                            (opt_p s))) new_pos
               (λ index, v ← p_block (word (index - 1)); set_p_block index v);;
             set_p_block (word (new_pos + 1)) b)) as Hk.
  { apply keeps_bind; [| intros ?; apply kkeeps_set_p_block].
    apply keeps_for_down_n. intros index.
    apply keeps_bind; [apply kkeeps_p_block | intros ?].
    apply kkeeps_set_p_block. }
  specialize (Hk s2 Hkey). simpl in Hk. rewrite Hrun in Hk. exact Hk.
Qed.

Lemma fseek_buffer off w s : opt_p (fseek off w s).2 = opt_p s.
Proof. unfold fseek. by destruct (_ <? 0). Qed.

Lemma fwrite_node_buffer s : opt_p (fwrite_node s).2 = opt_p s.
Proof.
  unfold fwrite_node. destruct (negb _); [done |]. by destruct (_ || _).
Qed.

End promoted.

(** X18: the key that the branch of [node_overflow] for a node with a parent
    hands to the parent is [temp_key[0]] as it was on entry.  With
    [left_keys] at least 1 the copying loop starts behind slot 0, so that on
    the first round of the [while] loop the key is whatever the stack held;
    when the branch returns, the parent in the buffer holds that value at
    the place found for it. *)
Theorem inner_split_promotes_first_slot {L : Layout}
    (left_keys right_keys : Z) (temp_key temp_block : list Z) (s s' : engine)
    (temp_key' temp_block' : list Z) (overflow : bool) :
  1 ≤ left_keys ≤ WORD_T_MAX → keys_used (opt_p s) ≤ WORD_T_MAX →
  split_inner left_keys right_keys temp_key temp_block s =
    (Ret (temp_key', temp_block', overflow), s') →
  arr_get temp_key' 0 = arr_get temp_key 0 ∧
  ∃ t0 new_pos,
    arr_get temp_key 0 = Some t0 ∧
    arr_get (key (opt_p s')) new_pos = Some t0.
Proof.
  intros Hlk Hku. unfold split_inner.
  rewrite bind_run. simpl. rewrite bind_run. simpl. rewrite bind_run.
  destruct (for_lt _ _ _ _ s) as [[tk1| |] s1] eqn:Hcopy; try discriminate.
  assert (arr_get tk1 0 = arr_get temp_key 0) as Hfirst.
  { apply (copy_keeps_first p_key
             (Z.to_nat (keys_used (opt_p s) - left_keys)) left_keys
             temp_key s tk1 s1);
      [lia | unfold WORD_T_MAX in *; lia | exact Hcopy]. }
  repeat (rewrite bind_run;
          match goal with
          | |- (match ?m ?s0 with _ => _ end) = _ → _ =>
              lazymatch m with
              | shift_insert _ _ _ => fail
              | _ => destruct (m s0) as [[?| |] ?] eqn:?; try discriminate
              end
          end).
  match goal with
  | H : lift_opt (arr_get tk1 0) _ = (Ret ?t, _) |- _ =>
      assert (arr_get tk1 0 = Some t) as Ht0
        by (destruct (arr_get tk1 0); unfold lift_opt, mret, M_ret in H;
            [congruence | discriminate H])
  end.
  rewrite bind_run.
  match goal with
  | |- (match shift_insert ?np ?t ?b ?s0 with _ => _ end) = _ → _ =>
      destruct (shift_insert np t b s0) as [[[]| |] s2] eqn:Hshift;
        try discriminate;
      pose proof (shift_insert_puts_key _ _ _ _ _ Hshift) as Hkey
  end.
  rewrite bind_run.
  destruct (fseek _ _ s2) as [[?| |] s3] eqn:Hseek; try discriminate.
  rewrite bind_run.
  destruct (fwrite_node s3) as [[?| |] s4] eqn:Hwrite; try discriminate.
  rewrite bind_run. simpl. intros [= <- _ _ <-].
  split; [exact Hfirst |].
  eexists _, _. split; [by rewrite <- Hfirst |].
  replace s4 with (fwrite_node s3).2 by (by rewrite Hwrite).
  rewrite fwrite_node_buffer.
  replace s3 with (fseek (- block_size (hdr s)) SEEK_CUR s2).2
    by (by rewrite Hseek).
  rewrite fseek_buffer. exact Hkey.
Qed.

(** ** A file created after another *)

Section stale_buffer.
Context {L : Layout}.

(** The round that inserts when [fread] finds the stream at the end of the
    file: nothing is read, the round works on what the buffer held before,
    and, the record being longer than the way back to the start of the
    file, writes it where the stream is. *)
Lemma descend_step_at_eof e fuel value s i k :
  whole_records s = true →
  f_pos (opt_iop s) = f_eof (opt_iop s) →
  f_nodes (opt_iop s) !! f_eof (opt_iop s) = None →
  0 ≤ f_eof (opt_iop s) < block_size (hdr s) →
  well_formed (opt_p s) → keys_used (opt_p s) ≤ 3 →
  keys_used (opt_p s) + 1 ≠ tree_order (hdr s) →
  insertion_point value (opt_p s) i →
  arr_get (key (opt_p s)) i = Some k → k ≠ value →
  arr_get (block (opt_p s)) (i + 1) = Some NO_BLOCK →
  descend_step e fuel value s =
  (Ret true,
   mk_engine (hdr s)
     (mk_file (f_header (opt_iop s))
        (<[f_eof (opt_iop s) := shift_inserted i value NO_BLOCK (opt_p s)]>
           (f_nodes (opt_iop s)))
        (f_eof (opt_iop s) + block_size (hdr s))
        (f_eof (opt_iop s) + block_size (hdr s)))
     (shift_inserted i value NO_BLOCK (opt_p s))).
Proof.
  intros Hwhole Hpos Hnone Heof (Hlk & Hlb & Hku0) Hku Hroom Hip Hk Hne Hb.
  pose proof Hip as (Hi & _ & _).
  unfold descend_step. rewrite bind_run. simpl.
  rewrite bind_run. unfold fread_node at 1.
  rewrite Hwhole, Hpos, Hnone, Z.leb_refl. simpl.
  rewrite bind_run, find_pos_insertion_point with (i := i);
    [| simpl; unfold WORD_T_MAX; lia | exact Hip].
  rewrite bind_run, p_key_run. simpl. rewrite Hk.
  replace (value =? k) with false by (symmetry; apply Z.eqb_neq; congruence).
  rewrite bind_run, p_block_run. simpl.
  rewrite word_small by (unfold WORD_T_MAX; lia). rewrite Hb. simpl.
  rewrite bind_run, shift_insert_spec; simpl; try done; try lia.
  rewrite bind_run. unfold fseek. simpl. rewrite Hpos.
  replace (f_eof (opt_iop s) + - block_size (hdr s) <? 0) with true
    by (symmetry; apply Z.ltb_lt; lia).
  rewrite bind_run. unfold fwrite_node, whole_records in *. simpl.
  rewrite Hwhole, Hpos, Hnone, Z.eqb_refl. simpl.
  rewrite bind_run. simpl.
  replace (keys_used (opt_p s) + 1 =? tree_order (hdr s)) with false
    by (symmetry; by apply Z.eqb_neq).
  unfold with_iop, with_p. simpl. rewrite Hpos.
  by rewrite Z.max_r by lia.
Qed.

End stale_buffer.

(** X19: [CREATE] resets neither the header in memory nor the node buffer.
    When the header still points at a root, the first [INSERT] into the new
    file takes the branch for a tree that has one, reads nothing from the
    empty file, and inserts into whatever node the buffer held: with a
    header record shorter than a node record, the round goes on running and
    the new file gets, as its only record, that node with the value added,
    the keys of the tree left behind included. *)
Theorem create_inherits_the_buffer {L : Layout} (r1 r2 : round)
    (st : program) (n : node_t) (i k : Z) :
  0 ≤ sizeof_header_t < sizeof_node_t →
  p (options st) = Some n →
  block_size (header st) = sizeof_node_t →
  tree_order (header st) ≤ TREE_ORDER →
  root_block (header st) = sizeof_header_t →
  typed_value r2 ≠ 0 → (1 ≤ loop_fuel r2)%nat →
  well_formed n → keys_used n ≤ 3 →
  keys_used n + 1 ≠ tree_order (header st) →
  insertion_point (typed_value r2) n i →
  arr_get (key n) i = Some k → k ≠ typed_value r2 →
  arr_get (block n) (i + 1) = Some NO_BLOCK →
  ∃ st' out f root,
    main_loop [(CREATE, r1); (INSERT, r2)] st [] = Running st' out ∧
    iop (options st') = Some f ∧
    f_header f = Some (header st) ∧
    f_nodes f = {[ sizeof_header_t := root ]} ∧
    used_keys root =
      take (Z.to_nat i) (used_keys n) ++
      typed_value r2 :: drop (Z.to_nat i) (used_keys n).
Proof.
  intros Hsize Hp Hbs Hord Hroot Hv Hfuel Hwf Hku Hroom Hip Hk Hne Hb.
  pose proof Hip as (Hi & _ & _).
  destruct (shift_inserted_used i (typed_value r2) NO_BLOCK n Hwf Hi Hku)
    as [Hused _].
  destruct (loop_fuel r2) as [|fuel] eqn:Hf; [lia |].
  assert (insert_value (overflow_env r2) (S fuel) (typed_value r2)
            (mk_engine (header st)
               (mk_file (Some (header st)) ∅ sizeof_header_t sizeof_header_t)
               n) =
          (Ret SUCCESS,
           mk_engine (header st)
             (mk_file (Some (header st))
                (<[sizeof_header_t :=
                     shift_inserted i (typed_value r2) NO_BLOCK n]> ∅)
                (sizeof_header_t + block_size (header st))
                (sizeof_header_t + block_size (header st)))
             (shift_inserted i (typed_value r2) NO_BLOCK n))) as Hrun.
  { apply insert_value_rooted; simpl; try done; [lia |].
    rewrite Hroot, bind_run.
    rewrite (descend_step_at_eof (overflow_env r2) (S fuel) (typed_value r2)
               _ i k); simpl; try done.
    - unfold whole_records. simpl. by apply Z.eqb_eq.
    - lia. }
  simpl. unfold main_open, close_tree, open_tree, reallocate_block.
  destruct (iop (options st)) as [g|]; simpl;
    unfold main_insert; simpl; rewrite Hp; simpl; rewrite Hf, Hrun; simpl;
    eexists _, _, _, _;
    (split; [reflexivity |]); (split; [reflexivity |]);
    (split; [reflexivity |]); (split; [reflexivity | exact Hused]).
Qed.

(** ** Opening a file *)

Section headers_present.
Context {L : Layout}.

Lemma header_present_insert_value e fuel value :
  keeps (λ s, is_Some (f_header (opt_iop s))) (insert_value e fuel value).
Proof.
  apply (fkeeps_insert_value (λ s, is_Some (f_header (opt_iop s)))).
  - intros s s' [= _ Hf _ _] Hs. by rewrite Hf.
  - intros s Hs. unfold fwrite_node.
    destruct (negb (whole_records s)); [done |]. by destruct (_ || _).
  - intros s _. unfold header_rewritten. rewrite bind_run. unfold fseek.
    simpl. by eexists.
Qed.

Lemma reachable_headers_present l gname gvalue :
  all_files (λ _, True) (λ f, is_Some (f_header f))
    (state_of (main_loop l (main_init gname gvalue) [])).
Proof.
  apply all_files_main_loop.
  - intros pos f Hf. exact Hf.
  - intros h _. by eexists.
  - done.
  - intros e fuel v h f n _ Hf. split; [done |].
    exact (header_present_insert_value e fuel v (mk_engine h f n) Hf).
  - by apply all_files_main_init.
Qed.

End headers_present.

(** X20: in any session of the menu that starts with no file on disk,
    [OPEN] with the name of a file on disk, or of the file that is open
    (which the round closes first), goes on running: the file starts with a
    header record, which the round loads into the header in memory, and the
    stream is left right behind it. *)
Theorem open_loads_the_header_record {L : Layout}
    (l : list (choice * round)) (gname : string) (gvalue : Z)
    (st : program) (out : list string) (r : round) :
  main_loop l (main_init gname gvalue) [] = Running st out →
  is_Some (disk st !! typed_name r) ∨
  (is_Some (iop (options st)) ∧ name (options st) = typed_name r) →
  ∃ st' msg f h,
    main_step OPEN r st = Running st' msg ∧
    iop (options st') = Some f ∧ f_header f = Some h ∧
    header st' = h ∧ f_pos f = sizeof_header_t.
Proof.
  intros Hrun Hknown.
  pose proof (reachable_headers_present l gname gvalue) as (_ & Hd & Ho).
  rewrite Hrun in Hd, Ho. simpl in Hd, Ho.
  simpl. unfold main_open, close_tree, open_tree, reallocate_block.
  destruct (iop (options st)) as [g|] eqn:Hg; simpl.
  - destruct (decide (name (options st) = typed_name r)) as [Hnm | Hnm].
    + rewrite Hnm, lookup_insert_eq.
      destruct (Ho g eq_refl) as [h Hh]. rewrite Hh. simpl.
      eexists _, _, _, _. split; [reflexivity |]. simpl.
      split; [reflexivity |]. split; [exact Hh |]. by split.
    + rewrite lookup_insert_ne by done.
      destruct Hknown as [[f Hf] | [_ ?]]; [| done].
      rewrite Hf. destruct (Hd _ _ Hf) as [h Hh]. rewrite Hh. simpl.
      eexists _, _, _, _. split; [reflexivity |]. simpl.
      split; [reflexivity |]. split; [exact Hh |]. by split.
  - destruct Hknown as [[f Hf] | [[? ?] _]]; [| done].
    rewrite Hf. destruct (Hd _ _ Hf) as [h Hh]. rewrite Hh. simpl.
    eexists _, _, _, _. split; [reflexivity |]. simpl.
    split; [reflexivity |]. split; [exact Hh |]. by split.
Qed.

(** ** The sizes of the halves *)

(** X12: the sizes [node_overflow] gives the two halves, for either outcome
    of [rand]: they are not negative and, together with the promoted key,
    they account for [tree_order] keys when the order is even and for one
    key less when it is odd. *)
Theorem split_sizes (e : env) (h : header_t) :
  2 ≤ tree_order h ≤ WORD_T_MAX →
  0 ≤ split_left_keys e h ∧ 0 ≤ split_right_keys e h ∧
  split_left_keys e h + split_right_keys e h + 1 =
    tree_order h - tree_order h mod 2.
Proof.
  intros Hord. unfold split_left_keys, split_right_keys, split_q.
  rewrite Z.shiftr_div_pow2 by lia. change (2 ^ 1) with 2.
  pose proof (Z.div_mod (tree_order h) 2 ltac:(lia)) as Hdiv.
  pose proof (Z.mod_pos_bound (tree_order h) 2 ltac:(lia)) as Hmod.
  unfold WORD_T_MAX in *.
  destruct (rand_high e); rewrite !word_small by (unfold WORD_T_MAX; lia);
    lia.
Qed.

(** ** The dump tool *)

Section dump.
Context {L : Layout}.

Lemma print_keys_some (a : list Z) : ∀ m index,
  0 ≤ index → index + Z.of_nat m ≤ Z.of_nat (length a) →
  ∃ out, print_keys m index a = Some out ∧ length out = m.
Proof.
  induction m as [|m IH]; intros index Hi Hlen; simpl; [by exists [] |].
  destruct (arr_get a index) as [k|] eqn:Hk.
  - destruct (IH (index + 1) ltac:(lia) ltac:(lia)) as (out & -> & Hout).
    simpl. eexists. split; [reflexivity |]. simpl. by rewrite Hout.
  - exfalso. unfold arr_get in Hk.
    replace (0 <=? index) with true in Hk by (symmetry; by apply Z.leb_le).
    apply lookup_ge_None in Hk. lia.
Qed.

Lemma print_keys_none (a : list Z) : ∀ m index,
  0 ≤ index ≤ Z.of_nat (length a) →
  Z.of_nat (length a) < index + Z.of_nat m →
  print_keys m index a = None.
Proof.
  induction m as [|m IH]; intros index Hi Hlen; simpl; [lia |].
  destruct (arr_get a index) as [k|] eqn:Hk; [| reflexivity]. simpl.
  unfold arr_get in Hk.
  replace (0 <=? index) with true in Hk by (symmetry; apply Z.leb_le; lia).
  apply lookup_lt_Some in Hk.
  rewrite IH; [reflexivity | lia | lia].
Qed.

Lemma print_blocks_some (a : list Z) : ∀ m index,
  0 ≤ index → index + Z.of_nat m ≤ Z.of_nat (length a) →
  ∃ out, print_blocks m index a = Some out ∧ length out = m.
Proof.
  induction m as [|m IH]; intros index Hi Hlen; simpl; [by exists [] |].
  destruct (arr_get a index) as [k|] eqn:Hk.
  - destruct (IH (index + 1) ltac:(lia) ltac:(lia)) as (out & -> & Hout).
    simpl. eexists. split; [reflexivity |]. simpl. by rewrite Hout.
  - exfalso. unfold arr_get in Hk.
    replace (0 <=? index) with true in Hk by (symmetry; by apply Z.leb_le).
    apply lookup_ge_None in Hk. lia.
Qed.

Lemma print_blocks_none (a : list Z) : ∀ m index,
  0 ≤ index ≤ Z.of_nat (length a) →
  Z.of_nat (length a) < index + Z.of_nat m →
  print_blocks m index a = None.
Proof.
  induction m as [|m IH]; intros index Hi Hlen; simpl; [lia |].
  destruct (arr_get a index) as [k|] eqn:Hk; [| reflexivity]. simpl.
  unfold arr_get in Hk.
  replace (0 <=? index) with true in Hk by (symmetry; apply Z.leb_le; lia).
  apply lookup_lt_Some in Hk.
  rewrite IH; [reflexivity | lia | lia].
Qed.

End dump.

(** X13: what the dump tool prints for a record with arrays as [node_t]
    declares them: [2 * keys_used + 7] pieces (the count, the kind, the
    parent, every key, a newline, every child reference, a newline and the
    prompt) when [keys_used] is at most 4, and nothing defined when it is
    more, for the loops then index behind the arrays. *)
Theorem print_node_in_bounds (n : node_t) :
  length (key n) = 4%nat → length (block n) = 5%nat →
  (0 ≤ keys_used n ≤ 4 →
   ∃ out, print_node n = Some out ∧
          length out = (2 * Z.to_nat (keys_used n) + 7)%nat) ∧
  (4 < keys_used n → print_node n = None).
Proof.
  intros Hk Hb. unfold print_node. split; intros Hku.
  - destruct (print_keys_some (key n) (Z.to_nat (keys_used n)) 0)
      as (ks & -> & Hks); [lia | lia |].
    destruct (print_blocks_some (block n) (Z.to_nat (keys_used n + 1)) 0)
      as (bs & -> & Hbs); [lia | lia |].
    simpl. eexists. split; [reflexivity |]. simpl.
    rewrite !length_app. simpl. rewrite length_app. simpl. lia.
  - rewrite print_keys_none; [reflexivity | lia | lia].
Qed.

Section dump_runs.
Context {L : Layout}.

Lemma print_node_some (n : node_t) : printable n → is_Some (print_node n).
Proof.
  intros (Hk & Hb & Hku). unfold print_node.
  destruct (print_keys_some (key n) (Z.to_nat (keys_used n)) 0)
    as (ks & -> & _); [lia | lia |].
  destruct (print_blocks_some (block n) (Z.to_nat (keys_used n + 1)) 0)
    as (bs & -> & _); [lia | lia |].
  simpl. by eexists.
Qed.

End dump_runs.

(** X14: the [while] loop of [print_b_plus_tree], started at the [k]-th of
    the [m] records of a file laid out one record after the other, returns
    (given fuel for one round more than there are records left) having
    printed the records from the [k]-th on, in the order of the file, and
    leaves the stream at the end of the file. *)
Theorem print_records_to_eof {L : Layout} (m : Z) : ∀ cnt fuel s k,
  0 < sizeof_node_t → whole_records s = true →
  f_eof (opt_iop s) = sizeof_header_t + m * sizeof_node_t →
  (∀ off, is_Some (f_nodes (opt_iop s) !! off) ↔
          ∃ j, 0 ≤ j < m ∧ off = sizeof_header_t + j * sizeof_node_t) →
  (∀ off n, f_nodes (opt_iop s) !! off = Some n → printable n) →
  0 ≤ k → k + Z.of_nat cnt = m →
  f_pos (opt_iop s) = sizeof_header_t + k * sizeof_node_t →
  (cnt < fuel)%nat →
  ∃ s', print_records fuel s =
          (Ret (records_lines (f_nodes (opt_iop s)) (f_pos (opt_iop s))
                  sizeof_node_t cnt), s') ∧
        f_pos (opt_iop s') = f_eof (opt_iop s).
Proof.
  induction cnt as [|cnt IH];
    intros [|fuel] s k Hsize Hwhole Heof Hdom Hprint Hk Hm Hpos Hfuel;
    try lia; simpl; rewrite bind_run; unfold fread_node; rewrite Hwhole;
    simpl.
  - destruct (f_nodes (opt_iop s) !! f_pos (opt_iop s)) as [n|] eqn:Hn.
    + exfalso. assert (is_Some (f_nodes (opt_iop s) !! f_pos (opt_iop s)))
        as Hs by (by rewrite Hn).
      apply Hdom in Hs as (j & Hj & Hoff). nia.
    + replace (f_eof (opt_iop s) <=? f_pos (opt_iop s)) with true
        by (symmetry; apply Z.leb_le; nia).
      simpl. exists s. split; [reflexivity | nia].
  - destruct (f_nodes (opt_iop s) !! f_pos (opt_iop s)) as [n|] eqn:Hn.
    + simpl. rewrite bind_run. simpl.
      destruct (print_node_some n (Hprint _ _ Hn)) as [lines Hlines].
      rewrite Hlines. simpl. rewrite bind_run.
      unfold whole_records in Hwhole. apply Z.eqb_eq in Hwhole.
      destruct (IH fuel
                  (mk_engine (hdr s)
                     (mk_file (f_header (opt_iop s)) (f_nodes (opt_iop s))
                        (f_eof (opt_iop s))
                        (f_pos (opt_iop s) + block_size (hdr s))) n)
                  (k + 1)) as (s' & Hrun & Hend);
        [exact Hsize | unfold whole_records; simpl; by apply Z.eqb_eq
        | exact Heof | exact Hdom | exact Hprint | lia | lia
        | simpl; rewrite Hwhole, Hpos; ring | lia |].
      simpl in Hrun, Hend. unfold mret, M_ret. rewrite bind_run, Hrun.
      exists s'. rewrite Hwhole. split; [reflexivity | exact Hend].
    + exfalso.
      assert (is_Some (f_nodes (opt_iop s) !! f_pos (opt_iop s))) as Hs.
      { apply Hdom. exists k. split; [lia | exact Hpos]. }
      rewrite Hn in Hs. by destruct Hs.
Qed.

(** X15: the dump tool seeks to [h->block_size], not to [h->header_size],
    before it reads the first record.  On a file laid out as the engine
    writes it, with a header and a node record of different sizes, that is
    no place where a record starts: the tool prints no record at all.  It
    prints nothing and ends when the file ends at or before that offset, and
    reads from the middle of a record (or of the header), which the file
    model does not describe, as soon as the tree has a root. *)
Theorem dump_misses_the_records {L : Layout} (nm : string) (heap : node_t)
    (fuel : nat) (disk : gmap string FILE) (f : FILE) (h : header_t) :
  0 < sizeof_header_t → 0 < sizeof_node_t →
  sizeof_header_t ≠ sizeof_node_t →
  disk !! nm = Some f → f_header f = Some h →
  block_size h = sizeof_node_t →
  contiguous f → (1 ≤ fuel)%nat →
  b_print [nm] heap fuel disk =
    (if f_eof f <=? sizeof_node_t then Ret (Dumped []) else Undefined) ∧
  (is_Some (f_nodes f !! sizeof_header_t) → sizeof_node_t < f_eof f).
Proof.
  intros Hhs Hbs Hne Hf Hh Hblock (m & Hm & Heof & Hdom) Hfuel.
  destruct fuel as [|fuel]; [lia |]. split.
  - unfold b_print. rewrite Hf, Hh. unfold print_b_plus_tree.
    rewrite bind_run. simpl. rewrite bind_run. unfold fseek. simpl.
    rewrite Hblock.
    replace (sizeof_node_t <? 0) with false by (symmetry; apply Z.ltb_ge; lia).
    simpl. rewrite bind_run. simpl. rewrite bind_run.
    unfold fread_node, whole_records. simpl. rewrite Hblock, Z.eqb_refl.
    simpl.
    destruct (f_nodes f !! sizeof_node_t) as [n|] eqn:Hn.
    + exfalso. assert (is_Some (f_nodes f !! sizeof_node_t)) as Hs
        by (by rewrite Hn).
      apply Hdom in Hs as (j & Hj & Hoff).
      destruct (decide (j = 0)) as [-> | Hj0]; [lia |].
      assert (sizeof_node_t ≤ j * sizeof_node_t) by nia. lia.
    + by destruct (f_eof f <=? sizeof_node_t).
  - intros Hroot. apply Hdom in Hroot as (j & Hj & Hoff). nia.
Qed.

(** ** Worked instances on the 16-bit machine *)

Lemma split_sizes_witness :
  0 ≤ split_left_keys (zeroed_env true) (header0 (L := machine_16)) ∧
  0 ≤ split_right_keys (zeroed_env true) (header0 (L := machine_16)) ∧
  split_left_keys (zeroed_env true) (header0 (L := machine_16)) +
  split_right_keys (zeroed_env true) (header0 (L := machine_16)) + 1 =
    tree_order (header0 (L := machine_16)) -
    tree_order (header0 (L := machine_16)) mod 2.
Proof.
  apply (split_sizes (zeroed_env true) (header0 (L := machine_16))).
  unfold header0, TREE_ORDER, WORD_T_MAX. simpl. lia.
Defined.



Lemma root_10_30_insertion_point : insertion_point 20 root_10_30 1.
Proof.
  split; [simpl; lia |]. split.
  - intros j Hj. assert (j = 0) as -> by lia. exists 10. split; [done | lia].
  - intros _. exists 30. split; [done | lia].
Qed.

Lemma root_10_30_well_formed : well_formed root_10_30.
Proof. repeat split. simpl. lia. Qed.

Lemma insert_in_place_witness :
  let s := (session16 [(10, true); (30, true)]).2 in
  ∃ n' s',
    insert_value (L := machine_16) (zeroed_env true) 10 20 s =
      (Ret SUCCESS, s') ∧
    hdr s' = hdr s ∧
    f_header (opt_iop s') = f_header (opt_iop s) ∧
    f_nodes (opt_iop s') =
      <[root_block (hdr s) := n']> (f_nodes (opt_iop s)) ∧
    keys_used n' = keys_used root_10_30 + 1 ∧
    parent_block n' = parent_block root_10_30 ∧
    used_keys n' =
      take (Z.to_nat 1) (used_keys root_10_30) ++
      20 :: drop (Z.to_nat 1) (used_keys root_10_30) ∧
    used_blocks n' =
      take (Z.to_nat (1 + 1)) (used_blocks root_10_30) ++
      NO_BLOCK :: drop (Z.to_nat (1 + 1)) (used_blocks root_10_30) ∧
    (StronglySorted Z.lt (used_keys root_10_30) →
     StronglySorted Z.lt (used_keys n')).
Proof.
  intros s.
  apply (insert_in_place (L := machine_16) (zeroed_env true) 10 20 s
           root_10_30 1 30).
  - discriminate.
  - lia.
  - vm_compute. discriminate.
  - reflexivity.
  - vm_compute. discriminate.
  - vm_compute. reflexivity.
  - exact root_10_30_well_formed.
  - simpl. lia.
  - vm_compute. discriminate.
  - exact root_10_30_insertion_point.
  - reflexivity.
  - discriminate.
  - reflexivity.
Defined.

Lemma insert_again_in_place_witness :
  let s := (session16 [(10, true); (30, true)]).2 in
  ∃ s1 s2,
    insert_value (L := machine_16) (zeroed_env true) 10 20 s =
      (Ret SUCCESS, s1) ∧
    insert_value (L := machine_16) (zeroed_env false) 5 20 s1 =
      (Ret SUCCESS, s2) ∧
    file_of s2 = file_of s1.
Proof.
  intros s.
  apply (insert_again_in_place (L := machine_16) (zeroed_env true)
           (zeroed_env false) 10 5 20 s root_10_30 1 30).
  - discriminate.
  - lia.
  - lia.
  - vm_compute. discriminate.
  - reflexivity.
  - vm_compute. discriminate.
  - vm_compute. reflexivity.
  - exact root_10_30_well_formed.
  - simpl. lia.
  - vm_compute. discriminate.
  - exact root_10_30_insertion_point.
  - reflexivity.
  - discriminate.
  - reflexivity.
Defined.

Lemma stale_slot_taken_for_key_witness :
  let s := (insert_value (L := machine_16) (zeroed_env true) 10 10
              (created (L := machine_16) stale_99)).2 in
  let n := mk_node false 1 [10; 99; 0; 0] [-1; -1; -1; -1; -1] (-1) in
  (99 ∉ used_keys n) ∧
  ∃ s', insert_value (L := machine_16) (zeroed_env true) 10 99 s =
          (Ret SUCCESS, s') ∧
        file_of s' = file_of s.
Proof.
  intros s n.
  apply (stale_slot_taken_for_key (L := machine_16) (zeroed_env true) 10 99
           s n).
  - discriminate.
  - lia.
  - vm_compute. discriminate.
  - reflexivity.
  - vm_compute. discriminate.
  - vm_compute. reflexivity.
  - unfold WORD_T_MAX. simpl. lia.
  - intros j Hj. simpl in Hj. assert (j = 0) as -> by lia.
    exists 10. split; [reflexivity | lia].
  - reflexivity.
Defined.

Lemma rooted_insert_reports_no_io_error_witness :
  let s := mk_engine (mk_header 10 36 4 10)
             (mk_file (Some (mk_header 10 36 4 10)) ∅ 10 10)
             (mk_node false 1 [10; 0; 0; 0] [-1; -1; -1; -1; -1] (-1)) in
  fread_node (L := machine_16) s = (Ret 0, s) ∧
  (SUCCESS = SUCCESS ∨ (SUCCESS = INV_DATA_PTR ∧ 20 = 0) ∨
   (SUCCESS = E_INCOMPATIBLE_VERSION ∧ 20 ≠ 0 ∧
    tree_order (hdr s) > TREE_ORDER)).
Proof.
  intros s. split; [reflexivity |].
  apply (rooted_insert_reports_no_io_error (L := machine_16)
           (zeroed_env true) 10 20 s SUCCESS).
  - discriminate.
  - vm_compute. reflexivity.
Defined.

Lemma rooted_insert_round_exits_on_zero_only_witness :
  let l := [(CREATE, typed 0 true); (INSERT, typed 10 true)] in
  let st := state_of (main_loop (L := machine_16) l
                        (main_init (L := machine_16) "g" 0) []) in
  ((∃ st', main_step (L := machine_16) INSERT (typed 0 true) st =
           Exited st' [error_msg INV_DATA_PTR +:+ nl]) ↔
   typed_value (typed 0 true) = 0) ∧
  (∀ st' msgs,
     main_step (L := machine_16) INSERT (typed 0 true) st = Exited st' msgs →
     typed_value (typed 0 true) = 0).
Proof.
  intros l st.
  apply (rooted_insert_round_exits_on_zero_only (L := machine_16) l "g" 0 st
           (messages_of (main_loop (L := machine_16) l
                           (main_init (L := machine_16) "g" 0) []))
           (typed 0 true)).
  - vm_compute. reflexivity.
  - vm_compute. eexists. reflexivity.
  - vm_compute. discriminate.
Defined.

Lemma retag_childless_witness :
  let son := mk_node false 2 [10; 20; 30; 40] [-1; -1; -1; -1; -1] 10 in
  let s := mk_engine (mk_header 10 36 4 10)
             (mk_file (Some (mk_header 10 36 4 10))
                {[ 10 := root_10_30; 46 := son ]} 82 82) son in
  retag (L := machine_16) 10 0 46 s = (Ret tt, retagged_itself 46 s).
Proof.
  intros son s.
  apply (retag_childless (L := machine_16) 10 46 s).
  - reflexivity.
  - simpl. lia.
  - reflexivity.
  - vm_compute. reflexivity.
  - simpl. lia.
  - vm_compute. eexists. reflexivity.
  - unfold WORD_T_MAX. simpl. lia.
  - intros j Hj. simpl in Hj.
    assert (j = 0 ∨ j = 1 ∨ j = 2) as [-> | [-> | ->]] by lia; reflexivity.
  - simpl. lia.
Defined.

Lemma print_node_in_bounds_witness :
  (0 ≤ keys_used root_10_30 ≤ 4 →
   ∃ out, print_node root_10_30 = Some out ∧
          length out = (2 * Z.to_nat (keys_used root_10_30) + 7)%nat) ∧
  (4 < keys_used root_10_30 → print_node root_10_30 = None).
Proof.
  apply (print_node_in_bounds root_10_30); reflexivity.
Defined.

Lemma one_record_file_dom (pos off : Z) :
  is_Some (f_nodes (one_record_file pos) !! off) ↔
  ∃ j, 0 ≤ j < 1 ∧
       off = sizeof_header_t (Layout := machine_16) +
             j * sizeof_node_t (Layout := machine_16).
Proof.
  simpl. split.
  - intros [n Hn]. apply lookup_singleton_Some in Hn as [<- _].
    exists 0. split; lia.
  - intros (j & Hj & ->). assert (j = 0) as -> by lia. simpl.
    rewrite lookup_singleton_eq. by eexists.
Qed.

Lemma one_record_file_printable (pos off : Z) (n : node_t) :
  f_nodes (one_record_file pos) !! off = Some n → printable n.
Proof.
  simpl. intros Hn. apply lookup_singleton_Some in Hn as [_ <-].
  repeat split. simpl. lia.
Qed.

Lemma one_record_file_contiguous (pos : Z) :
  contiguous (L := machine_16) (one_record_file pos).
Proof.
  exists 1. split; [lia |]. split; [reflexivity |].
  apply one_record_file_dom.
Qed.

Lemma print_records_to_eof_witness :
  let s := mk_engine (mk_header 10 36 4 10) (one_record_file 10)
             zeroed_node in
  ∃ s', print_records (L := machine_16) 2 s =
          (Ret (records_lines (f_nodes (opt_iop s)) (f_pos (opt_iop s))
                  (sizeof_node_t (Layout := machine_16)) 1), s') ∧
        f_pos (opt_iop s') = f_eof (opt_iop s).
Proof.
  intros s.
  apply (print_records_to_eof (L := machine_16) 1 1 2 s 0).
  - simpl. lia.
  - reflexivity.
  - reflexivity.
  - apply one_record_file_dom.
  - apply one_record_file_printable.
  - lia.
  - lia.
  - reflexivity.
  - lia.
Defined.

Lemma dump_misses_the_records_witness :
  let f := one_record_file 46 in
  b_print (L := machine_16) ["t"] zeroed_node 5 {[ "t" := f ]} =
    (if f_eof f <=? sizeof_node_t (Layout := machine_16)
     then Ret (Dumped []) else Undefined) ∧
  (is_Some (f_nodes f !! sizeof_header_t (Layout := machine_16)) →
   sizeof_node_t (Layout := machine_16) < f_eof f).
Proof.
  intros f.
  apply (dump_misses_the_records (L := machine_16) "t" zeroed_node 5
           {[ "t" := f ]} f (mk_header 10 36 4 10)).
  - simpl. lia.
  - simpl. lia.
  - simpl. lia.
  - vm_compute. reflexivity.
  - reflexivity.
  - reflexivity.
  - apply one_record_file_contiguous.
  - lia.
Defined.


Lemma inner_split_promotes_first_slot_witness :
  ∃ temp_key' temp_block' overflow s',
    split_inner (L := machine_16) 2 1 [0; 0; 0; 0] [0; 0; 0; 0; 0]
      inner_overflow_16 = (Ret (temp_key', temp_block', overflow), s') ∧
    arr_get temp_key' 0 = arr_get [0; 0; 0; 0] 0 ∧
    ∃ t0 new_pos,
      arr_get [0; 0; 0; 0] 0 = Some t0 ∧
      arr_get (key (opt_p s')) new_pos = Some t0.
Proof.
  eexists _, _, _, _. split; [vm_compute; reflexivity |].
  eapply (inner_split_promotes_first_slot (L := machine_16) 2 1
            [0; 0; 0; 0] [0; 0; 0; 0; 0] inner_overflow_16).
  - unfold WORD_T_MAX. lia.
  - unfold WORD_T_MAX. simpl. lia.
  - vm_compute. reflexivity.
Defined.

Lemma root_10_insertion_point :
  insertion_point 20
    (mk_node false 1 [10; 0; 0; 0] [-1; -1; -1; -1; -1] (-1)) 1.
Proof.
  split; [simpl; lia |]. split.
  - intros j Hj. assert (j = 0) as -> by lia. exists 10. split; [done | lia].
  - simpl. lia.
Qed.

Lemma create_inherits_the_buffer_witness :
  let st := state_of
              (main_loop (L := machine_16)
                 [(CREATE, typed 0 true); (INSERT, typed 10 true)]
                 (main_init (L := machine_16) "g" 0) []) in
  let n := mk_node false 1 [10; 0; 0; 0] [-1; -1; -1; -1; -1] (-1) in
  ∃ st' out f root,
    main_loop (L := machine_16)
      [(CREATE, mk_round "u" 0 zeroed_node (zeroed_env true) 10);
       (INSERT, typed 20 true)] st [] = Running st' out ∧
    iop (options st') = Some f ∧
    f_header f = Some (header st) ∧
    f_nodes f = {[ sizeof_header_t (Layout := machine_16) := root ]} ∧
    used_keys root =
      take (Z.to_nat 1) (used_keys n) ++
      typed_value (typed 20 true) :: drop (Z.to_nat 1) (used_keys n).
Proof.
  intros st n.
  apply (create_inherits_the_buffer (L := machine_16)
           (mk_round "u" 0 zeroed_node (zeroed_env true) 10) (typed 20 true)
           st n 1 0).
  - simpl. lia.
  - vm_compute. reflexivity.
  - reflexivity.
  - vm_compute. discriminate.
  - reflexivity.
  - discriminate.
  - simpl. lia.
  - repeat split. simpl. lia.
  - simpl. lia.
  - vm_compute. discriminate.
  - exact root_10_insertion_point.
  - reflexivity.
  - discriminate.
  - reflexivity.
Defined.

Lemma open_loads_the_header_record_witness :
  let l := [(CREATE, typed 0 true); (INSERT, typed 10 true);
            (CLOSE, typed 0 true)] in
  let o := main_loop (L := machine_16) l
             (main_init (L := machine_16) "g" 0) [] in
  ∃ st' msg f h,
    main_step (L := machine_16) OPEN (typed 0 true) (state_of o) =
      Running st' msg ∧
    iop (options st') = Some f ∧ f_header f = Some h ∧
    header st' = h ∧ f_pos f = sizeof_header_t (Layout := machine_16).
Proof.
  intros l o.
  apply (open_loads_the_header_record (L := machine_16) l "g" 0
           (state_of o) (messages_of o) (typed 0 true)).
  - vm_compute. reflexivity.
  - left. vm_compute. eexists. reflexivity.
Defined.

(** ** The first split of the root *)

Section root_split.
Context {L : Layout}.

#[local] Arguments with_p _ _ /.
#[local] Arguments with_iop _ _ /.
#[local] Arguments with_keys_used _ _ /.
#[local] Arguments with_key _ _ /.
#[local] Arguments with_block _ _ /.
#[local] Arguments with_parent_block _ _ /.

Lemma fseek_set_at h fh nodes eof pos n off :
  0 ≤ off →
  fseek off SEEK_SET (mk_engine h (mk_file fh nodes eof pos) n) =
  (Ret 0, mk_engine h (mk_file fh nodes eof off) n).
Proof.
  intros Hoff. unfold fseek. simpl.
  by replace (off <? 0) with false by (symmetry; by apply Z.ltb_ge).
Qed.

Lemma fseek_cur_at h fh nodes eof pos n off :
  0 ≤ pos + off →
  fseek off SEEK_CUR (mk_engine h (mk_file fh nodes eof pos) n) =
  (Ret 0, mk_engine h (mk_file fh nodes eof (pos + off)) n).
Proof.
  intros Hoff. unfold fseek. simpl.
  by replace (pos + off <? 0) with false by (symmetry; by apply Z.ltb_ge).
Qed.

Lemma fseek_end_at h fh nodes eof pos n off :
  0 ≤ eof + off →
  fseek off SEEK_END (mk_engine h (mk_file fh nodes eof pos) n) =
  (Ret 0, mk_engine h (mk_file fh nodes eof (eof + off)) n).
Proof.
  intros Hoff. unfold fseek. simpl.
  by replace (eof + off <? 0) with false by (symmetry; by apply Z.ltb_ge).
Qed.

Lemma fwrite_node_append h fh nodes eof n :
  block_size h = sizeof_node_t → 0 ≤ block_size h →
  nodes !! eof = None →
  fwrite_node (mk_engine h (mk_file fh nodes eof eof) n) =
  (Ret 1,
   mk_engine h
     (mk_file fh (<[eof := n]> nodes) (eof + block_size h)
        (eof + block_size h)) n).
Proof.
  intros Hbs Hpos Hnone. unfold fwrite_node, whole_records. simpl.
  rewrite Hbs, Z.eqb_refl, Hnone, Z.eqb_refl. simpl.
  rewrite <- Hbs. by rewrite Z.max_r by lia.
Qed.

Lemma fwrite_node_replace h fh nodes eof pos n :
  block_size h = sizeof_node_t →
  is_Some (nodes !! pos) → pos + block_size h ≤ eof →
  fwrite_node (mk_engine h (mk_file fh nodes eof pos) n) =
  (Ret 1,
   mk_engine h (mk_file fh (<[pos := n]> nodes) eof (pos + block_size h)) n).
Proof.
  intros Hbs Hrec Heof. unfold fwrite_node, whole_records. simpl.
  rewrite Hbs, Z.eqb_refl. simpl.
  rewrite bool_decide_eq_true_2 by exact Hrec. simpl.
  rewrite <- Hbs. by rewrite Z.max_l by lia.
Qed.

Lemma fread_node_at h fh nodes eof pos n n' :
  block_size h = sizeof_node_t →
  nodes !! pos = Some n' →
  fread_node (mk_engine h (mk_file fh nodes eof pos) n) =
  (Ret 1, mk_engine h (mk_file fh nodes eof (pos + block_size h)) n').
Proof.
  intros Hbs Hrec. unfold fread_node, whole_records. simpl.
  by rewrite Hbs, Z.eqb_refl, Hrec.
Qed.

Lemma retag_childless_at fuel par h fh nodes off n :
  block_size h = sizeof_node_t → 0 < block_size h → 0 ≤ off →
  nodes !! (off + block_size h) = None →
  is_Some (nodes !! off) →
  0 ≤ keys_used n < WORD_T_MAX →
  (∀ j, 0 ≤ j ≤ keys_used n → arr_get (block n) j = Some NO_BLOCK) →
  (Z.to_nat (keys_used n) + 1 < fuel)%nat →
  retag fuel 0 par
    (mk_engine h
       (mk_file fh nodes (off + block_size h) (off + block_size h)) n) =
  (Ret tt,
   mk_engine h
     (mk_file fh (<[off := with_parent_block par n]> nodes)
        (off + block_size h) (off + block_size h))
     (with_parent_block par n)).
Proof.
  intros Hbs Hpos Hoff Hnone Hrec Hku Hblocks Hfuel.
  destruct fuel as [|fuel]; [lia |].
  assert (whole_records
            (mk_engine h
               (mk_file fh nodes (off + block_size h) (off + block_size h))
               n) = true) as Hwhole
    by (unfold whole_records; simpl; by apply Z.eqb_eq).
  rewrite retag_round; simpl; try done; try lia;
    [| by rewrite Z.add_simpl_r | apply Hblocks; lia].
  rewrite word_small by (unfold WORD_T_MAX in *; lia).
  rewrite (retag_childless_run par
             (mk_engine h
                (mk_file fh nodes (off + block_size h) (off + block_size h))
                n) (Z.to_nat (keys_used n))); simpl; try done; try lia.
  - unfold retagged_itself. simpl. by rewrite Z.add_simpl_r.
  - rewrite Z.add_simpl_r. rewrite lookup_insert_ne by lia. exact Hnone.
  - intros j Hj. apply Hblocks. lia.
Qed.

Ltac childless_side :=
  first
    [ done
    | lia
    | unfold WORD_T_MAX; lia
    | rewrite lookup_insert_eq; by eexists
    | rewrite !lookup_insert_ne by lia;
      match goal with
      | H : ∀ off, _ ≤ off → _ !! off = None |- _ => apply H; lia
      end
    | let j := fresh "j" in
      let Hj := fresh "Hj" in
      intros j Hj;
      assert (j = 0 ∨ j = 1 ∨ j = 2) as [-> | [-> | ->]] by lia;
      reflexivity ].

Lemma split_root_childless (hi : bool) fuel (h : header_t) fh nodes eof pos0
    lf a0 a1 a2 a3 tk tb :
  block_size h = sizeof_node_t → tree_order h = 4 →
  0 ≤ header_size h → 0 < block_size h →
  header_size h + block_size h ≤ eof →
  nodes !! header_size h =
    Some (mk_node lf 4 [a0; a1; a2; a3] [-1; -1; -1; -1; -1] (-1)) →
  (∀ off, eof ≤ off → nodes !! off = None) →
  length tk = 4%nat → length tb = 5%nat → (3 < fuel)%nat →
  split_root fuel (if hi then 2 else 1) (if hi then 1 else 2) tk tb
    (mk_engine h (mk_file fh nodes eof pos0)
       (mk_node lf 4 [a0; a1; a2; a3] [-1; -1; -1; -1; -1] (-1))) =
  (Ret tt,
   let root :=
     mk_node lf 1 [if hi then a2 else a1; a1; a2; a3]
       [eof; eof + block_size h; -1; -1; -1] (-1) in
   mk_engine h
     (mk_file fh
        (<[header_size h := root]>
           (<[eof + block_size h :=
                mk_node lf (if hi then 1 else 2)
                  (if hi then [a3; a1; a2; a3] else [a2; a3; a2; a3])
                  [-1; -1; -1; -1; -1] (eof + block_size h)]>
              (<[eof :=
                   mk_node lf (if hi then 2 else 1) [a0; a1; a2; a3]
                     [-1; -1; -1; -1; -1] eof]> nodes)))
        (eof + block_size h + block_size h)
        (header_size h + block_size h))
     root).
Proof.
  intros Hbs Hord Hhs Hpos Heof Hroot Hnone Htk Htb Hfuel.
  destruct tk as [|t0 [|t1 [|t2 [|t3 [|]]]]]; try discriminate Htk.
  destruct tb as [|u0 [|u1 [|u2 [|u3 [|u4 [|]]]]]]; try discriminate Htb.
  destruct h as [hsz bs ord root]. simpl in *. subst ord.
  unfold split_root, ftell.
  destruct hi.
  - do 8 (rewrite bind_run; simpl).
    rewrite bind_run, fseek_end_at by lia. rewrite bind_run. simpl.
    rewrite bind_run. replace (eof + 0) with eof by lia.
    rewrite fwrite_node_append; [| done | simpl; lia | apply Hnone; lia].
    rewrite bind_run. simpl.
    rewrite retag_childless_at; simpl; try childless_side.
    rewrite insert_insert_eq.
    do 4 (rewrite bind_run; simpl).
    rewrite bind_run, fwrite_node_append; [| done | simpl; lia |].
    2:{ rewrite lookup_insert_ne by lia. apply Hnone. lia. }
    rewrite bind_run. simpl.
    rewrite retag_childless_at; simpl; try childless_side.
    rewrite insert_insert_eq.
    rewrite bind_run, fseek_set_at by lia.
    rewrite bind_run,
      (fread_node_at _ _ _ _ _ _
         (mk_node lf 4 [a0; a1; a2; a3] [-1; -1; -1; -1; -1] (-1)));
      [| done |].
    2:{ rewrite !lookup_insert_ne by lia. exact Hroot. }
    do 6 (rewrite bind_run; simpl).
    rewrite bind_run, fseek_cur_at by (simpl; lia).
    replace (hsz + bs + - bs) with hsz by lia.
    rewrite bind_run, fwrite_node_replace; [| done | | simpl; lia].
    2:{ rewrite !lookup_insert_ne by lia. rewrite Hroot. by eexists. }
    reflexivity.
  - do 8 (rewrite bind_run; simpl).
    rewrite bind_run, fseek_end_at by lia. rewrite bind_run. simpl.
    rewrite bind_run. replace (eof + 0) with eof by lia.
    rewrite fwrite_node_append; [| done | simpl; lia | apply Hnone; lia].
    rewrite bind_run. simpl.
    rewrite retag_childless_at; simpl; try childless_side.
    rewrite insert_insert_eq.
    do 4 (rewrite bind_run; simpl).
    rewrite bind_run, fwrite_node_append; [| done | simpl; lia |].
    2:{ rewrite lookup_insert_ne by lia. apply Hnone. lia. }
    rewrite bind_run. simpl.
    rewrite retag_childless_at; simpl; try childless_side.
    rewrite insert_insert_eq.
    rewrite bind_run, fseek_set_at by lia.
    rewrite bind_run,
      (fread_node_at _ _ _ _ _ _
         (mk_node lf 4 [a0; a1; a2; a3] [-1; -1; -1; -1; -1] (-1)));
      [| done |].
    2:{ rewrite !lookup_insert_ne by lia. exact Hroot. }
    do 6 (rewrite bind_run; simpl).
    rewrite bind_run, fseek_cur_at by (simpl; lia).
    replace (hsz + bs + - bs) with hsz by lia.
    rewrite bind_run, fwrite_node_replace; [| done | | simpl; lia].
    2:{ rewrite !lookup_insert_ne by lia. rewrite Hroot. by eexists. }
    reflexivity.
Qed.

(** [node_overflow] on a root without children that holds four keys. *)
Lemma node_overflow_childless e fuel (h : header_t) fh nodes eof pos0
    lf a0 a1 a2 a3 :
  block_size h = sizeof_node_t → tree_order h = 4 →
  0 ≤ header_size h → 0 < block_size h →
  header_size h + block_size h ≤ eof →
  nodes !! header_size h =
    Some (mk_node lf 4 [a0; a1; a2; a3] [-1; -1; -1; -1; -1] (-1)) →
  (∀ off, eof ≤ off → nodes !! off = None) →
  length (stack_key e) = 4%nat → length (stack_block e) = 5%nat →
  (3 < fuel)%nat →
  node_overflow e fuel
    (mk_engine h (mk_file fh nodes eof pos0)
       (mk_node lf 4 [a0; a1; a2; a3] [-1; -1; -1; -1; -1] (-1))) =
  (Ret SUCCESS,
   let hi := rand_high e in
   let root :=
     mk_node lf 1 [if hi then a2 else a1; a1; a2; a3]
       [eof; eof + block_size h; -1; -1; -1] (-1) in
   mk_engine h
     (mk_file fh
        (<[header_size h := root]>
           (<[eof + block_size h :=
                mk_node lf (if hi then 1 else 2)
                  (if hi then [a3; a1; a2; a3] else [a2; a3; a2; a3])
                  [-1; -1; -1; -1; -1] (eof + block_size h)]>
              (<[eof :=
                   mk_node lf (if hi then 2 else 1) [a0; a1; a2; a3]
                     [-1; -1; -1; -1; -1] eof]> nodes)))
        (eof + block_size h + block_size h)
        (header_size h + block_size h))
     root).
Proof.
  intros Hbs Hord Hhs Hpos Heof Hroot Hnone Htk Htb Hfuel.
  unfold node_overflow. rewrite bind_run. simpl.
  destruct fuel as [|fuel']; [lia |].
  unfold split_left_keys, split_right_keys, split_q. rewrite Hord.
  rewrite bind_run. simpl overflow_loop. rewrite bind_run. simpl.
  pose proof (split_root_childless (rand_high e) (S fuel') h fh nodes eof
                pos0 lf a0 a1 a2 a3 (stack_key e) (stack_block e)
                Hbs Hord Hhs Hpos Heof Hroot Hnone Htk Htb Hfuel) as Hsplit.
  destruct (rand_high e); simpl in Hsplit |- *.
  - change (word (Z.shiftr 4 1 - 0)) with 2.
    change (word (Z.shiftr 4 1 + 0 - 1)) with 1.
    rewrite Hsplit. reflexivity.
  - change (word (Z.shiftr 4 1 - 1)) with 1.
    change (word (Z.shiftr 4 1 + 1 - 1)) with 2.
    rewrite Hsplit. reflexivity.
Qed.

(** The insertion that fills a root without children and breaks it. *)
Lemma root_split_run e fuel value (h : header_t) fh nodes eof pos buf n i k
    lf a0 a1 a2 a3 :
  value ≠ 0 → (4 ≤ fuel)%nat →
  block_size h = sizeof_node_t → tree_order h = 4 →
  0 ≤ header_size h → 0 < block_size h →
  root_block h = header_size h →
  header_size h + block_size h ≤ eof →
  (∀ off, eof ≤ off → nodes !! off = None) →
  nodes !! header_size h = Some n →
  well_formed n → keys_used n = 3 →
  insertion_point value n i → arr_get (key n) i = Some k → k ≠ value →
  arr_get (block n) (i + 1) = Some NO_BLOCK →
  shift_inserted i value NO_BLOCK n =
    mk_node lf 4 [a0; a1; a2; a3] [-1; -1; -1; -1; -1] (-1) →
  length (stack_key e) = 4%nat → length (stack_block e) = 5%nat →
  insert_value e fuel value (mk_engine h (mk_file fh nodes eof pos) buf) =
  (Ret SUCCESS,
   let hi := rand_high e in
   let root :=
     mk_node lf 1 [if hi then a2 else a1; a1; a2; a3]
       [eof; eof + block_size h; -1; -1; -1] (-1) in
   mk_engine h
     (mk_file fh
        (<[header_size h := root]>
           (<[eof + block_size h :=
                mk_node lf (if hi then 1 else 2)
                  (if hi then [a3; a1; a2; a3] else [a2; a3; a2; a3])
                  [-1; -1; -1; -1; -1] (eof + block_size h)]>
              (<[eof :=
                   mk_node lf (if hi then 2 else 1) [a0; a1; a2; a3]
                     [-1; -1; -1; -1; -1] eof]>
                 (<[header_size h :=
                      mk_node lf 4 [a0; a1; a2; a3] [-1; -1; -1; -1; -1]
                        (-1)]> nodes))))
        (eof + block_size h + block_size h)
        (header_size h + block_size h))
     root).
Proof.
  intros Hv Hfuel Hbs Hord Hhs Hpos Hroot Heof Hnone Hn Hwf Hku Hip Hk Hne
    Hb Hshift Htk Htb.
  destruct fuel as [|fuel']; [lia |].
  apply insert_value_rooted; simpl; try done;
    [rewrite Hord; unfold TREE_ORDER; lia | lia |].
  rewrite Hroot, bind_run.
  rewrite (descend_step_shift e (S fuel') value _ n i k); simpl; try done;
    [| unfold whole_records; simpl; by apply Z.eqb_eq | lia].
  rewrite Hku, Hord. simpl. unfold written_back. simpl.
  rewrite Hshift, Z.max_l by lia.
  rewrite bind_run, node_overflow_childless; try done; try lia.
  - rewrite lookup_insert_eq. reflexivity.
  - intros off Hoff. rewrite lookup_insert_ne by lia. by apply Hnone.
Qed.

End root_split.

(** X16: the insertion that fills a root without children, as the fourth
    key of a tree does.  [insert_value] returns [SUCCESS]; the header is
    kept; two records are appended, and the root record is rewritten in its
    place with one key and the two new records as children.  The left son
    gets the first two keys or the first key, according to [rand], the root
    the next one, the right son the rest, so that the four keys are all
    kept, in their order.  Each son, however, names itself as its parent:
    the retagging loop, finding no child, rewrites the son it was to find
    the children of. *)
Theorem childless_root_split {L : Layout} (e : env) (fuel : nat) (value : Z)
    (s : engine) (n : node_t) (i k : Z) :
  value ≠ 0 → (4 ≤ fuel)%nat →
  whole_records s = true → tree_order (hdr s) = TREE_ORDER →
  0 ≤ header_size (hdr s) → 0 < block_size (hdr s) →
  root_block (hdr s) = header_size (hdr s) →
  header_size (hdr s) + block_size (hdr s) ≤ f_eof (opt_iop s) →
  (∀ off, f_eof (opt_iop s) ≤ off → f_nodes (opt_iop s) !! off = None) →
  f_nodes (opt_iop s) !! root_block (hdr s) = Some n →
  well_formed n → keys_used n = 3 → parent_block n = NO_BLOCK →
  (∀ j, 0 ≤ j ≤ 4 → arr_get (block n) j = Some NO_BLOCK) →
  insertion_point value n i → arr_get (key n) i = Some k → k ≠ value →
  length (stack_key e) = 4%nat → length (stack_block e) = 5%nat →
  let eof := f_eof (opt_iop s) in
  let size := block_size (hdr s) in
  let keys :=
    take (Z.to_nat i) (used_keys n) ++ value :: drop (Z.to_nat i) (used_keys n)
  in
  let left_keys := if rand_high e then 2%nat else 1%nat in
  ∃ s' root left right,
    insert_value e fuel value s = (Ret SUCCESS, s') ∧
    hdr s' = hdr s ∧
    f_header (opt_iop s') = f_header (opt_iop s) ∧
    f_eof (opt_iop s') = eof + 2 * size ∧
    f_nodes (opt_iop s') !! root_block (hdr s) = Some root ∧
    f_nodes (opt_iop s') !! eof = Some left ∧
    f_nodes (opt_iop s') !! (eof + size) = Some right ∧
    (∀ off, off ≠ root_block (hdr s) → off ≠ eof → off ≠ eof + size →
            f_nodes (opt_iop s') !! off = f_nodes (opt_iop s) !! off) ∧
    used_keys left = take left_keys keys ∧
    used_keys root = take 1 (drop left_keys keys) ∧
    used_keys right = drop (S left_keys) keys ∧
    used_blocks root = [eof; eof + size] ∧
    parent_block root = NO_BLOCK ∧
    parent_block left = eof ∧
    parent_block right = eof + size ∧
    (∀ b, b ∈ used_blocks left ++ used_blocks right → b = NO_BLOCK).
Proof.
  intros Hv Hfuel Hwhole Hord Hhs Hpos Hroot Heof Hnone Hn Hwf Hku Hpar
    Hblocks Hip Hk Hne Htk Htb.
  destruct s as [h [fh nodes eof pos] buf]. simpl in *.
  unfold whole_records in Hwhole. simpl in Hwhole. apply Z.eqb_eq in Hwhole.
  pose proof Hwf as (Hlk & Hlb & _).
  pose proof Hip as (Hi & _ & _).
  destruct n as [lf ku ks bl par]. simpl in *. subst ku par.
  destruct ks as [|k0 [|k1 [|k2 [|k3 [|]]]]]; try discriminate Hlk.
  destruct bl as [|b0 [|b1 [|b2 [|b3 [|b4 [|]]]]]]; try discriminate Hlb.
  pose proof (Hblocks 0 ltac:(lia)) as [= ->].
  pose proof (Hblocks 1 ltac:(lia)) as [= ->].
  pose proof (Hblocks 2 ltac:(lia)) as [= ->].
  pose proof (Hblocks 3 ltac:(lia)) as [= ->].
  pose proof (Hblocks 4 ltac:(lia)) as [= ->].
  set (n := mk_node lf 3 [k0; k1; k2; k3]
              [NO_BLOCK; NO_BLOCK; NO_BLOCK; NO_BLOCK; NO_BLOCK] NO_BLOCK) in *.
  assert (∀ a0 a1 a2 a3,
    shift_inserted i value NO_BLOCK n =
    mk_node lf 4 [a0; a1; a2; a3] [-1; -1; -1; -1; -1] (-1) →
    take (Z.to_nat i) (used_keys n) ++
    value :: drop (Z.to_nat i) (used_keys n) = [a0; a1; a2; a3] →
    ∃ s' root left right,
      insert_value e fuel value (mk_engine h (mk_file fh nodes eof pos) buf) =
        (Ret SUCCESS, s') ∧
      hdr s' = h ∧
      f_header (opt_iop s') = fh ∧
      f_eof (opt_iop s') = eof + 2 * block_size h ∧
      f_nodes (opt_iop s') !! root_block h = Some root ∧
      f_nodes (opt_iop s') !! eof = Some left ∧
      f_nodes (opt_iop s') !! (eof + block_size h) = Some right ∧
      (∀ off, off ≠ root_block h → off ≠ eof → off ≠ eof + block_size h →
              f_nodes (opt_iop s') !! off = nodes !! off) ∧
      used_keys left =
        take (if rand_high e then 2%nat else 1%nat) [a0; a1; a2; a3] ∧
      used_keys root =
        take 1 (drop (if rand_high e then 2%nat else 1%nat)
                  [a0; a1; a2; a3]) ∧
      used_keys right =
        drop (S (if rand_high e then 2%nat else 1%nat)) [a0; a1; a2; a3] ∧
      used_blocks root = [eof; eof + block_size h] ∧
      parent_block root = NO_BLOCK ∧
      parent_block left = eof ∧
      parent_block right = eof + block_size h ∧
      (∀ b, b ∈ used_blocks left ++ used_blocks right → b = NO_BLOCK))
    as Hcase.
  { intros a0 a1 a2 a3 Hshift _.
    eexists _, _, _, _. split.
    { apply (root_split_run e fuel value h fh nodes eof pos buf n i k
               lf a0 a1 a2 a3); try done.
      - by rewrite <- Hroot.
      - destruct Hip as [? _].
        assert (i = 0 ∨ i = 1 ∨ i = 2 ∨ i = 3) as [-> | [-> | [-> | ->]]]
          by (simpl in *; lia); reflexivity. }
    simpl. rewrite Hroot.
    split; [reflexivity |]. split; [reflexivity |]. split; [lia |].
    split; [by rewrite lookup_insert_eq |].
    split.
    { rewrite lookup_insert_ne by lia. rewrite lookup_insert_ne by lia.
      by rewrite lookup_insert_eq. }
    split.
    { rewrite lookup_insert_ne by lia. by rewrite lookup_insert_eq. }
    split.
    { intros off H1 H2 H3. by rewrite !lookup_insert_ne by done. }
    destruct (rand_high e); repeat (split; [reflexivity |]);
      intros b Hb; simpl in Hb;
      repeat (apply elem_of_cons in Hb as [-> | Hb]; [reflexivity |]);
      by apply elem_of_nil in Hb. }
  simpl in Hi.
  assert (i = 0 ∨ i = 1 ∨ i = 2 ∨ i = 3) as [-> | [-> | [-> | ->]]] by lia.
  - apply (Hcase value k0 k1 k2); reflexivity.
  - apply (Hcase k0 value k1 k2); reflexivity.
  - apply (Hcase k0 k1 value k2); reflexivity.
  - apply (Hcase k0 k1 k2 value); reflexivity.
Qed.

Lemma root_10_20_30_insertion_point :
  insertion_point 40
    (mk_node false 3 [10; 20; 30; 0] [-1; -1; -1; -1; -1] (-1)) 3.
Proof.
  split; [simpl; lia |]. split.
  - intros j Hj.
    assert (j = 0 ∨ j = 1 ∨ j = 2) as [-> | [-> | ->]] by lia;
      eexists; (split; [reflexivity | lia]).
  - simpl. lia.
Qed.

Lemma childless_root_split_witness :
  let s := (session16 [(10, true); (20, true); (30, true)]).2 in
  let n := mk_node false 3 [10; 20; 30; 0] [-1; -1; -1; -1; -1] (-1) in
  let keys := take (Z.to_nat 3) (used_keys n) ++
              40 :: drop (Z.to_nat 3) (used_keys n) in
  ∃ s' root left right,
    insert_value (L := machine_16) (zeroed_env false) 10 40 s =
      (Ret SUCCESS, s') ∧
    hdr s' = hdr s ∧
    f_header (opt_iop s') = f_header (opt_iop s) ∧
    f_eof (opt_iop s') = f_eof (opt_iop s) + 2 * block_size (hdr s) ∧
    f_nodes (opt_iop s') !! root_block (hdr s) = Some root ∧
    f_nodes (opt_iop s') !! f_eof (opt_iop s) = Some left ∧
    f_nodes (opt_iop s') !! (f_eof (opt_iop s) + block_size (hdr s)) =
      Some right ∧
    (∀ off, off ≠ root_block (hdr s) → off ≠ f_eof (opt_iop s) →
            off ≠ f_eof (opt_iop s) + block_size (hdr s) →
            f_nodes (opt_iop s') !! off = f_nodes (opt_iop s) !! off) ∧
    used_keys left = take 1 keys ∧
    used_keys root = take 1 (drop 1 keys) ∧
    used_keys right = drop 2 keys ∧
    used_blocks root =
      [f_eof (opt_iop s); f_eof (opt_iop s) + block_size (hdr s)] ∧
    parent_block root = NO_BLOCK ∧
    parent_block left = f_eof (opt_iop s) ∧
    parent_block right = f_eof (opt_iop s) + block_size (hdr s) ∧
    (∀ b, b ∈ used_blocks left ++ used_blocks right → b = NO_BLOCK).
Proof.
  intros s n keys.
  apply (childless_root_split (L := machine_16) (zeroed_env false) 10 40 s
           n 3 0).
  - discriminate.
  - lia.
  - reflexivity.
  - reflexivity.
  - vm_compute. discriminate.
  - vm_compute. reflexivity.
  - reflexivity.
  - vm_compute. discriminate.
  - intros off Hoff. change (f_eof (opt_iop s)) with 46 in Hoff.
    change (f_nodes (opt_iop s)) with ({[ 10 := n ]} : gmap Z node_t).
    apply lookup_singleton_ne. lia.
  - vm_compute. reflexivity.
  - repeat split. simpl. lia.
  - reflexivity.
  - reflexivity.
  - intros j Hj.
    assert (j = 0 ∨ j = 1 ∨ j = 2 ∨ j = 3 ∨ j = 4)
      as [-> | [-> | [-> | [-> | ->]]]] by lia; reflexivity.
  - exact root_10_20_30_insertion_point.
  - reflexivity.
  - discriminate.
  - reflexivity.
  - reflexivity.
Defined.
